(** * Hybrid GPU simulator: atomic unit, barrier controller, register file,
      cache model and simulation engine.

    A shallow embedding of the RTL blocks (SystemVerilog) and of the C++
    cycle-level model, followed by the properties established about them.
    Clocked RTL blocks are embedded as one function per clock edge: every
    right-hand side reads the registers as they were before the edge, and the
    non-blocking assignments of one edge are applied in program order, so the
    last assignment to a register wins.  C++ unsigned integers are Z with the
    wrap-around written out. *)

From Stdlib Require Import ZArith Lia List Bool.
From stdpp Require Import base option list gmap.
Import ListNotations.

Local Open Scope Z_scope.

(** ** Machine words *)

(** Value kept by a [w]-bit unsigned register or C++ [uintw_t]. *)
Definition wrap (w x : Z) : Z := x mod 2 ^ w.
Definition wrap32 (x : Z) : Z := wrap 32 x.
Definition wrap64 (x : Z) : Z := wrap 64 x.

Definition word32 (x : Z) : Prop := 0 <= x < 2 ^ 32.

(** ** atomic_unit.sv *)

Module AtomicUnit.

Definition MAX_PENDING_REQS : nat := 16.

Inductive atomic_op_e :=
| ATOMIC_ADD | ATOMIC_SUB | ATOMIC_EXCH | ATOMIC_MIN | ATOMIC_MAX
| ATOMIC_AND | ATOMIC_OR | ATOMIC_XOR | ATOMIC_CAS | ATOMIC_INC | ATOMIC_DEC.

Record atomic_request_t := {
  address : Z;
  data : Z;
  compare_data : Z;
  op : atomic_op_e;
  warp_id : Z;
  lane_id : Z;
  valid : bool
}.

Inductive atomic_state_e := IDLE | READ_MEM | COMPUTE | WRITE_MEM | RESPOND.

(** Registers of the module, its registered outputs included. *)
Record state := {
  pending_reqs : list atomic_request_t;
  current_req : atomic_request_t;
  current_state : atomic_state_e;
  temp_data : Z;
  orig_data : Z;
  active_addresses : list Z;
  address_valid : list bool;
  resp_data : Z;
  resp_warp_id : Z;
  resp_lane_id : Z;
  resp_valid : bool;
  mem_address : Z;
  mem_write_data : Z;
  mem_write_en : bool;
  mem_atomic_en : bool;
  mem_atomic_op : atomic_op_e;
  mem_request_valid : bool;
  atomic_op_count : Z;
  atomic_contention_count : Z
}.

(** Input pins sampled at a clock edge. *)
Record inputs := {
  rst_n : bool;
  req_op : atomic_op_e;
  req_address : Z;
  req_data : Z;
  req_compare_data : Z;
  req_warp_id : Z;
  req_lane_id : Z;
  req_valid : bool;
  resp_ready : bool;
  mem_read_data : Z;
  mem_response_valid : bool;
  mem_ready : bool
}.

(** [check_contention]: some tracked slot is valid and holds [a]. *)
Fixpoint check_contention_slots (vs : list bool) (addrs : list Z) (a : Z) : bool :=
  match vs, addrs with
  | v :: vs', x :: addrs' =>
      if v && (x =? a) then true else check_contention_slots vs' addrs' a
  | _, _ => false
  end.

Definition check_contention (s : state) (a : Z) : bool :=
  check_contention_slots (address_valid s) (active_addresses s) a.

(** [add_address]: the first slot that is not valid takes [a]. *)
Fixpoint add_address_slots (vs : list bool) (addrs : list Z) (a : Z)
  : list bool * list Z :=
  match vs, addrs with
  | v :: vs', x :: addrs' =>
      if negb v then (true :: vs', a :: addrs')
      else let '(vs'', addrs'') := add_address_slots vs' addrs' a in
           (v :: vs'', x :: addrs'')
  | _, _ => (vs, addrs)
  end.

(** [remove_address]: the first valid slot holding [a] is released. *)
Fixpoint remove_address_slots (vs : list bool) (addrs : list Z) (a : Z) : list bool :=
  match vs, addrs with
  | v :: vs', x :: addrs' =>
      if v && (x =? a) then false :: vs'
      else v :: remove_address_slots vs' addrs' a
  | _, _ => vs
  end.

(** [perform_atomic_op]; the operands are [logic [31:0]], so comparisons
    are unsigned and sums wrap at 32 bits.  The [default] arm of the source
    is not reachable for a value of the enumeration. *)
Definition perform_atomic_op (o : atomic_op_e) (orig_val new_val compare_val : Z) : Z :=
  match o with
  | ATOMIC_ADD => wrap32 (orig_val + new_val)
  | ATOMIC_SUB => wrap32 (orig_val - new_val)
  | ATOMIC_EXCH => new_val
  | ATOMIC_MIN => if orig_val <? new_val then orig_val else new_val
  | ATOMIC_MAX => if orig_val >? new_val then orig_val else new_val
  | ATOMIC_AND => Z.land orig_val new_val
  | ATOMIC_OR => Z.lor orig_val new_val
  | ATOMIC_XOR => Z.lxor orig_val new_val
  | ATOMIC_CAS => if orig_val =? compare_val then new_val else orig_val
  | ATOMIC_INC => wrap32 (orig_val + 1)
  | ATOMIC_DEC => wrap32 (orig_val - 1)
  end.

(** [assign req_ready = (current_state == IDLE) && (size < MAX)]. *)
Definition req_ready (s : state) : bool :=
  match current_state s with
  | IDLE => (length (pending_reqs s) <? MAX_PENDING_REQS)%nat
  | _ => false
  end.

(** [push_back] on the bounded queue [[$:MAX_PENDING_REQS-1]]. *)
Definition push_back (q : list atomic_request_t) (r : atomic_request_t) :=
  if (length q <? MAX_PENDING_REQS)%nat then q ++ [r] else q.

(** Entering READ_MEM with [r] as the request in flight. *)
Definition start_request (r : atomic_request_t) (q : list atomic_request_t)
    (s : state) : state :=
  let '(vs, addrs) := add_address_slots (address_valid s) (active_addresses s) (address r) in
  {| pending_reqs := q; current_req := r;
     current_state := READ_MEM; temp_data := temp_data s; orig_data := orig_data s;
     active_addresses := addrs; address_valid := vs;
     resp_data := resp_data s; resp_warp_id := resp_warp_id s;
     resp_lane_id := resp_lane_id s; resp_valid := false;
     mem_address := mem_address s; mem_write_data := mem_write_data s;
     mem_write_en := mem_write_en s; mem_atomic_en := mem_atomic_en s;
     mem_atomic_op := mem_atomic_op s; mem_request_valid := mem_request_valid s;
     atomic_op_count := wrap32 (atomic_op_count s + 1);
     atomic_contention_count := atomic_contention_count s |}.

(** One rising clock edge of the [always_ff] block. *)
Definition step (s : state) (i : inputs) : state :=
  if negb (rst_n i) then
    {| pending_reqs := []; current_req := current_req s;
       current_state := IDLE; temp_data := temp_data s; orig_data := orig_data s;
       active_addresses := active_addresses s;
       address_valid := repeat false MAX_PENDING_REQS;
       resp_data := resp_data s; resp_warp_id := resp_warp_id s;
       resp_lane_id := resp_lane_id s; resp_valid := false;
       mem_address := mem_address s; mem_write_data := mem_write_data s;
       mem_write_en := mem_write_en s; mem_atomic_en := mem_atomic_en s;
       mem_atomic_op := mem_atomic_op s; mem_request_valid := mem_request_valid s;
       atomic_op_count := 0; atomic_contention_count := 0 |}
  else
    match current_state s with
    | IDLE =>
        if req_valid i && req_ready s then
          let new_req :=
            {| address := req_address i; data := req_data i;
               compare_data := req_compare_data i; op := req_op i;
               warp_id := req_warp_id i; lane_id := req_lane_id i;
               valid := true |} in
          if check_contention s (req_address i) then
            {| pending_reqs := push_back (pending_reqs s) new_req;
               current_req := current_req s;
               current_state := IDLE; temp_data := temp_data s;
               orig_data := orig_data s;
               active_addresses := active_addresses s;
               address_valid := address_valid s;
               resp_data := resp_data s; resp_warp_id := resp_warp_id s;
               resp_lane_id := resp_lane_id s; resp_valid := false;
               mem_address := mem_address s; mem_write_data := mem_write_data s;
               mem_write_en := mem_write_en s; mem_atomic_en := mem_atomic_en s;
               mem_atomic_op := mem_atomic_op s;
               mem_request_valid := mem_request_valid s;
               atomic_op_count := atomic_op_count s;
               atomic_contention_count := wrap32 (atomic_contention_count s + 1) |}
          else start_request new_req (pending_reqs s) s
        else
          match pending_reqs s with
          | r :: q => start_request r q s
          | [] =>
              {| pending_reqs := pending_reqs s; current_req := current_req s;
                 current_state := IDLE; temp_data := temp_data s;
                 orig_data := orig_data s;
                 active_addresses := active_addresses s;
                 address_valid := address_valid s;
                 resp_data := resp_data s; resp_warp_id := resp_warp_id s;
                 resp_lane_id := resp_lane_id s; resp_valid := false;
                 mem_address := mem_address s; mem_write_data := mem_write_data s;
                 mem_write_en := mem_write_en s; mem_atomic_en := mem_atomic_en s;
                 mem_atomic_op := mem_atomic_op s;
                 mem_request_valid := mem_request_valid s;
                 atomic_op_count := atomic_op_count s;
                 atomic_contention_count := atomic_contention_count s |}
          end
    | READ_MEM =>
        if mem_ready i then
          {| pending_reqs := pending_reqs s; current_req := current_req s;
             current_state := COMPUTE; temp_data := temp_data s;
             orig_data := orig_data s;
             active_addresses := active_addresses s;
             address_valid := address_valid s;
             resp_data := resp_data s; resp_warp_id := resp_warp_id s;
             resp_lane_id := resp_lane_id s; resp_valid := resp_valid s;
             mem_address := address (current_req s);
             mem_write_data := mem_write_data s;
             mem_write_en := false; mem_atomic_en := true;
             mem_atomic_op := op (current_req s); mem_request_valid := true;
             atomic_op_count := atomic_op_count s;
             atomic_contention_count := atomic_contention_count s |}
        else s
    | COMPUTE =>
        if mem_response_valid i then
          {| pending_reqs := pending_reqs s; current_req := current_req s;
             current_state := WRITE_MEM;
             temp_data := perform_atomic_op (op (current_req s)) (mem_read_data i)
                            (data (current_req s)) (compare_data (current_req s));
             orig_data := mem_read_data i;
             active_addresses := active_addresses s;
             address_valid := address_valid s;
             resp_data := resp_data s; resp_warp_id := resp_warp_id s;
             resp_lane_id := resp_lane_id s; resp_valid := resp_valid s;
             mem_address := mem_address s; mem_write_data := mem_write_data s;
             mem_write_en := mem_write_en s; mem_atomic_en := mem_atomic_en s;
             mem_atomic_op := mem_atomic_op s; mem_request_valid := false;
             atomic_op_count := atomic_op_count s;
             atomic_contention_count := atomic_contention_count s |}
        else s
    | WRITE_MEM =>
        if mem_ready i then
          {| pending_reqs := pending_reqs s; current_req := current_req s;
             current_state := RESPOND; temp_data := temp_data s;
             orig_data := orig_data s;
             active_addresses := active_addresses s;
             address_valid := address_valid s;
             resp_data := resp_data s; resp_warp_id := resp_warp_id s;
             resp_lane_id := resp_lane_id s; resp_valid := resp_valid s;
             mem_address := address (current_req s);
             mem_write_data := temp_data s;
             mem_write_en := true; mem_atomic_en := true;
             mem_atomic_op := op (current_req s); mem_request_valid := true;
             atomic_op_count := atomic_op_count s;
             atomic_contention_count := atomic_contention_count s |}
        else s
    | RESPOND =>
        if mem_response_valid i then
          {| pending_reqs := pending_reqs s; current_req := current_req s;
             current_state := IDLE; temp_data := temp_data s;
             orig_data := orig_data s;
             active_addresses := active_addresses s;
             address_valid :=
               remove_address_slots (address_valid s) (active_addresses s)
                 (address (current_req s));
             resp_data := orig_data s;
             resp_warp_id := warp_id (current_req s);
             resp_lane_id := lane_id (current_req s);
             resp_valid := true;
             mem_address := mem_address s; mem_write_data := mem_write_data s;
             mem_write_en := mem_write_en s; mem_atomic_en := mem_atomic_en s;
             mem_atomic_op := mem_atomic_op s; mem_request_valid := false;
             atomic_op_count := atomic_op_count s;
             atomic_contention_count := atomic_contention_count s |}
        else s
    end.

(** *** The unit in front of a word-addressed memory

    The memory behind the memory port is the environment of the unit: while
    a request is driven, the read data it returns is the word stored at
    [mem_address], and the response to a write request commits
    [mem_write_data] at [mem_address].  When [mem_ready] and
    [mem_response_valid] are raised is left to each cycle's input. *)

Definition read_word (m : gmap Z Z) (a : Z) : Z := default 0 (m !! a).

(** What the requester and the memory handshake do in one cycle. *)
Record cycle := {
  c_rst_n : bool;
  c_req : option atomic_request_t;
  c_resp_ready : bool;
  c_mem_ready : bool;
  c_mem_response_valid : bool
}.

Definition idle_request : atomic_request_t :=
  {| address := 0; data := 0; compare_data := 0; op := ATOMIC_ADD;
     warp_id := 0; lane_id := 0; valid := false |}.

Definition pins (c : cycle) (s : state) (m : gmap Z Z) : inputs :=
  let r := default idle_request (c_req c) in
  {| rst_n := c_rst_n c;
     req_op := op r; req_address := address r; req_data := data r;
     req_compare_data := compare_data r;
     req_warp_id := warp_id r; req_lane_id := lane_id r;
     req_valid := bool_decide (is_Some (c_req c));
     resp_ready := c_resp_ready c;
     mem_read_data := read_word m (mem_address s);
     mem_response_valid := c_mem_response_valid c;
     mem_ready := c_mem_ready c |}.

Definition sys_step (sm : state * gmap Z Z) (c : cycle) : state * gmap Z Z :=
  let '(s, m) := sm in
  let m' :=
    if c_mem_response_valid c && mem_request_valid s && mem_write_en s
    then <[mem_address s := mem_write_data s]> m else m in
  (step s (pins c s m), m').

Definition sys_run (cs : list cycle) (sm : state * gmap Z Z) : state * gmap Z Z :=
  fold_left sys_step cs sm.

(** Cycles of one transaction: the request is presented, the memory is not
    ready for [k1] cycles, then takes the read; answers it after [k2]
    cycles; is not ready for [k3] cycles, then takes the write; answers it
    after [k4] cycles.  The cycles in [k1] .. [k4] are arbitrary except for
    the handshake bit the unit is waiting for. *)
Definition running (c : cycle) : cycle :=
  {| c_rst_n := true; c_req := c_req c; c_resp_ready := c_resp_ready c;
     c_mem_ready := c_mem_ready c;
     c_mem_response_valid := c_mem_response_valid c |}.

Definition with_ready (b : bool) (c : cycle) : cycle :=
  {| c_rst_n := true; c_req := c_req c; c_resp_ready := c_resp_ready c;
     c_mem_ready := b; c_mem_response_valid := c_mem_response_valid c |}.

Definition with_response (b : bool) (c : cycle) : cycle :=
  {| c_rst_n := true; c_req := c_req c; c_resp_ready := c_resp_ready c;
     c_mem_ready := c_mem_ready c; c_mem_response_valid := b |}.

Definition present (r : atomic_request_t) (c : cycle) : cycle :=
  {| c_rst_n := true; c_req := Some r; c_resp_ready := c_resp_ready c;
     c_mem_ready := c_mem_ready c;
     c_mem_response_valid := c_mem_response_valid c |}.

Definition memory_phases (k1 : list cycle) (c1 : cycle) (k2 : list cycle) (c2 : cycle)
    (k3 : list cycle) (c3 : cycle) (k4 : list cycle) (c4 : cycle) : list cycle :=
  map (with_ready false) k1 ++ [with_ready true c1]
  ++ map (with_response false) k2 ++ [with_response true c2]
  ++ map (with_ready false) k3 ++ [with_ready true c3]
  ++ map (with_response false) k4 ++ [with_response true c4].

Definition transaction (r : atomic_request_t) (c0 : cycle)
    (k1 : list cycle) (c1 : cycle) (k2 : list cycle) (c2 : cycle)
    (k3 : list cycle) (c3 : cycle) (k4 : list cycle) (c4 : cycle) : list cycle :=
  present r c0 :: memory_phases k1 c1 k2 c2 k3 c3 k4 c4.

(** The table of the specification, over 32-bit words. *)
Definition f_op (o : atomic_op_e) (pre d c : Z) : Z :=
  match o with
  | ATOMIC_ADD => (pre + d) mod 2 ^ 32
  | ATOMIC_SUB => (pre - d) mod 2 ^ 32
  | ATOMIC_EXCH => d
  | ATOMIC_MIN => Z.min pre d
  | ATOMIC_MAX => Z.max pre d
  | ATOMIC_AND => Z.land pre d
  | ATOMIC_OR => Z.lor pre d
  | ATOMIC_XOR => Z.lxor pre d
  | ATOMIC_CAS => if decide (pre = c) then d else pre
  | ATOMIC_INC => (pre + 1) mod 2 ^ 32
  | ATOMIC_DEC => (pre - 1) mod 2 ^ 32
  end.

Definition mk_request (o : atomic_op_e) (a d c w l : Z) : atomic_request_t :=
  {| address := a; data := d; compare_data := c; op := o;
     warp_id := w; lane_id := l; valid := true |}.

(** A state as reset leaves it when the memory port was idle before: the
    reset branch assigns neither [mem_request_valid] nor [mem_write_en],
    [mem_address] and [mem_write_data], which keep what they held. *)
Definition power_on : state :=
  {| pending_reqs := []; current_req := idle_request;
     current_state := IDLE; temp_data := 0; orig_data := 0;
     active_addresses := repeat 0 MAX_PENDING_REQS;
     address_valid := repeat false MAX_PENDING_REQS;
     resp_data := 0; resp_warp_id := 0; resp_lane_id := 0; resp_valid := false;
     mem_address := 0; mem_write_data := 0; mem_write_en := false;
     mem_atomic_en := false; mem_atomic_op := ATOMIC_ADD;
     mem_request_valid := false;
     atomic_op_count := 0; atomic_contention_count := 0 |}.

(** Between resets, and starting with the memory port idle, the unit is
    [settled]: nothing is queued; no address is tracked while it is IDLE,
    and exactly the address of the request in flight was added otherwise;
    no memory request is driven in IDLE, READ_MEM and WRITE_MEM. *)
Definition no_slot_valid (vs : list bool) : Prop := Forall (fun v => v = false) vs.

Definition in_flight_slots (s : state) : Prop :=
  exists vs0 addrs0,
    no_slot_valid vs0
    /\ address_valid s = (add_address_slots vs0 addrs0 (address (current_req s))).1
    /\ active_addresses s = (add_address_slots vs0 addrs0 (address (current_req s))).2.

Definition settled (s : state) : Prop :=
  pending_reqs s = []
  /\ match current_state s with
     | IDLE => no_slot_valid (address_valid s) /\ mem_request_valid s = false
     | READ_MEM | WRITE_MEM => in_flight_slots s /\ mem_request_valid s = false
     | COMPUTE | RESPOND => in_flight_slots s
     end.

(** Clock edges on the pins alone. *)
Definition run (s : state) (xs : list inputs) : state := fold_left step xs s.

(** Number of requests taken on the request handshake
    ([req_valid && req_ready] at an edge without reset) during [xs]. *)
Fixpoint handshakes (s : state) (xs : list inputs) : Z :=
  match xs with
  | [] => 0
  | i :: xs' =>
      (if rst_n i && req_valid i && req_ready s then 1 else 0)
      + handshakes (step s i) xs'
  end.

(** Since the last reset nothing was queued and no contention was counted;
    no address is tracked while the unit is IDLE, and only that of the
    request in flight otherwise. *)
Definition uncontended (s : state) : Prop :=
  pending_reqs s = [] /\ atomic_contention_count s = 0
  /\ match current_state s with
     | IDLE => no_slot_valid (address_valid s)
     | _ => in_flight_slots s
     end.

(** The handshake cycles of one transaction, as [transaction] takes them. *)
Record timing := {
  at_request : cycle;
  before_read : list cycle;
  at_read : cycle;
  reading : list cycle;
  at_read_response : cycle;
  before_write : list cycle;
  at_write : cycle;
  writing : list cycle;
  at_write_response : cycle
}.

Definition timed_transaction (rt : atomic_request_t * timing) : list cycle :=
  let '(r, t) := rt in
  transaction r (at_request t) (before_read t) (at_read t) (reading t)
    (at_read_response t) (before_write t) (at_write t) (writing t)
    (at_write_response t).

(** Requests presented one after the other, each when the unit has
    answered the one before. *)
Definition serial (rts : list (atomic_request_t * timing)) : list cycle :=
  flat_map timed_transaction rts.

(** What one request does to the memory when it is executed alone. *)
Definition atomic_effect (m : gmap Z Z) (r : atomic_request_t) : gmap Z Z :=
  <[address r := f_op (op r) (read_word m (address r)) (data r) (compare_data r)]> m.

End AtomicUnit.

(** ** barrier_controller.sv *)

Module BarrierController.

Definition MAX_BARRIERS : nat := 16.
Definition WARPS_PER_BLOCK : Z := 32.

Inductive barrier_state_e := IDLE | COLLECTING | RELEASING | TIMEOUT | ERROR.

(** [barrier_entry_t]; [thread_masks] holds one mask per warp position. *)
Record barrier_entry_t := {
  barrier_id : Z;
  block_id : Z;
  arrived_warps : Z;
  expected_warps : Z;
  thread_masks : list Z;
  active : bool;
  cycle_counter : Z
}.

(** Registers of the module; the four arrays have [MAX_BARRIERS] elements. *)
Record state := {
  barrier_table : list barrier_entry_t;
  barrier_states : list barrier_state_e;
  barrier_free : list bool;
  barrier_complete : list bool;
  release_barrier_id_next : Z;
  release_block_id_next : Z;
  release_warp_mask_next : Z;
  release_valid_next : bool;
  arrive_ready : bool;
  release_barrier_id : Z;
  release_block_id : Z;
  release_warp_mask : Z;
  release_valid : bool;
  barrier_count : Z;
  stalled_cycle_count : Z
}.

Record inputs := {
  rst_n : bool;
  arrive_barrier_id : Z;
  arrive_thread_mask : Z;
  arrive_block_id : Z;
  arrive_warp_id : Z;
  arrive_valid : bool;
  release_ready : bool
}.

(** Element [i] of each array, for [i < MAX_BARRIERS]. *)
Definition no_entry : barrier_entry_t :=
  {| barrier_id := 0; block_id := 0; arrived_warps := 0; expected_warps := 0;
     thread_masks := []; active := false; cycle_counter := 0 |}.

Definition entry (s : state) (i : nat) : barrier_entry_t :=
  nth i (barrier_table s) no_entry.
Definition state_of (s : state) (i : nat) : barrier_state_e :=
  nth i (barrier_states s) IDLE.
Definition free (s : state) (i : nat) : bool := nth i (barrier_free s) false.
Definition complete (s : state) (i : nat) : bool := nth i (barrier_complete s) false.

(** The array whose element [i] is [f i]. *)
Definition tabulate {A} (f : nat -> A) : list A := map f (seq 0 MAX_BARRIERS).

(** ['1] on the [WARPS_PER_BLOCK]-bit mask. *)
Definition all_warps : Z := Z.ones WARPS_PER_BLOCK.

(** Index of the first element of [0 .. n-1] satisfying [p]. *)
Fixpoint find_first (p : nat -> bool) (n : nat) : option nat :=
  match n with
  | O => None
  | S n' =>
      match find_first p n' with
      | Some i => Some i
      | None => if p n' then Some n' else None
      end
  end.

(** [find_free_barrier]; [None] stands for -1. *)
Definition find_free_barrier (s : state) : option nat :=
  find_first (free s) MAX_BARRIERS.

(** [find_barrier]; [None] stands for -1. *)
Definition find_barrier (s : state) (bid blk : Z) : option nat :=
  find_first
    (fun i => negb (free s i) && active (entry s i)
              && (barrier_id (entry s i) =? bid)
              && (block_id (entry s i) =? blk))
    MAX_BARRIERS.

Definition is_barrier_complete (s : state) (index : nat) : bool :=
  (arrived_warps (entry s index) =? expected_warps (entry s index))
  && negb (expected_warps (entry s index) =? 0).

(** Writing position [w] of a [WARPS_PER_BLOCK]-element vector; a select
    out of range writes nothing. *)
Definition in_block (w : Z) : bool := (0 <=? w) && (w <? WARPS_PER_BLOCK).

Definition set_warp_bit (mask w : Z) : Z :=
  if in_block w then Z.setbit mask w else mask.

Definition set_thread_mask (tm : list Z) (w v : Z) : list Z :=
  if in_block w then <[Z.to_nat w := v]> tm else tm.

(** The entry is allocated and active: the per-entry state machine runs. *)
Definition tracked (s : state) (i : nat) : bool :=
  negb (free s i) && active (entry s i).

(** RELEASING: the release on the output is this entry's and is taken. *)
Definition release_acknowledged (s : state) (x : inputs) (i : nat) : bool :=
  release_ready x && release_valid s
  && (release_barrier_id s =? barrier_id (entry s i))
  && (release_block_id s =? block_id (entry s i)).

Definition collecting (s : state) (i : nat) : bool :=
  tracked s i && match state_of s i with COLLECTING => true | _ => false end.

Definition completes (s : state) (i : nat) : bool :=
  collecting s i && is_barrier_complete s i.

Definition acked (s : state) (x : inputs) (i : nat) : bool :=
  tracked s i && match state_of s i with RELEASING => true | _ => false end
  && release_acknowledged s x i.

Definition errored (s : state) (i : nat) : bool :=
  tracked s i && match state_of s i with ERROR => true | _ => false end.

Definition set_entry_fsm (e : barrier_entry_t) (act : bool) (cc : Z) : barrier_entry_t :=
  {| barrier_id := barrier_id e; block_id := block_id e;
     arrived_warps := arrived_warps e; expected_warps := expected_warps e;
     thread_masks := thread_masks e; active := act; cycle_counter := cc |}.

(** Effect of the state-machine loop on the registers of entry [i]. *)
Definition fsm_entry (s : state) (x : inputs) (i : nat) : barrier_entry_t :=
  let e := entry s i in
  if collecting s i then set_entry_fsm e (active e) (wrap32 (cycle_counter e + 1))
  else if acked s x i || errored s i then set_entry_fsm e false (cycle_counter e)
  else e.

Definition fsm_state (s : state) (x : inputs) (i : nat) : barrier_state_e :=
  if tracked s i then
    match state_of s i with
    | IDLE => IDLE
    | COLLECTING => if is_barrier_complete s i then RELEASING else COLLECTING
    | RELEASING => if release_acknowledged s x i then IDLE else RELEASING
    | TIMEOUT => RELEASING
    | ERROR => IDLE
    end
  else state_of s i.

Definition fsm_free (s : state) (x : inputs) (i : nat) : bool :=
  if acked s x i || errored s i then true else free s i.

Definition fsm_complete (s : state) (x : inputs) (i : nat) : bool :=
  if completes s i then true
  else if acked s x i then false
  else complete s i.

(** Does some iteration [i < n] of the loop satisfy [p]? *)
Definition any_below (p : nat -> bool) (n : nat) : bool :=
  existsb p (seq 0 n).

(** The last iteration [i < n] satisfying [p]: its assignment is the one
    that stays. *)
Fixpoint last_below (p : nat -> bool) (n : nat) : option nat :=
  match n with
  | O => None
  | S n' => if p n' then Some n' else last_below p n'
  end.

(** What an accepted arrival does. *)
Inductive arrival :=
| NoArrival
| Existing (index : nat)
| Fresh (index : nat)
| TableFull.

Definition classify (s : state) (x : inputs) : arrival :=
  if arrive_valid x && arrive_ready s then
    match find_barrier s (arrive_barrier_id x) (arrive_block_id x) with
    | Some i => Existing i
    | None =>
        match find_free_barrier s with
        | Some i => Fresh i
        | None => TableFull
        end
    end
  else NoArrival.

Definition arrive_entry (a : arrival) (x : inputs) (i : nat) (e : barrier_entry_t)
  : barrier_entry_t :=
  match a with
  | Existing k =>
      if Nat.eqb i k then
        {| barrier_id := barrier_id e; block_id := block_id e;
           arrived_warps := set_warp_bit (arrived_warps e) (arrive_warp_id x);
           expected_warps := expected_warps e;
           thread_masks :=
             set_thread_mask (thread_masks e) (arrive_warp_id x) (arrive_thread_mask x);
           active := active e; cycle_counter := cycle_counter e |}
      else e
  | Fresh k =>
      if Nat.eqb i k then
        {| barrier_id := arrive_barrier_id x; block_id := arrive_block_id x;
           arrived_warps := set_warp_bit 0 (arrive_warp_id x);
           expected_warps := all_warps;
           thread_masks :=
             set_thread_mask (thread_masks e) (arrive_warp_id x) (arrive_thread_mask x);
           active := true; cycle_counter := 0 |}
      else e
  | _ => e
  end.

(** The arrival finds its entry already complete. *)
Definition arrival_releases (s : state) (a : arrival) : option nat :=
  match a with
  | Existing k => if is_barrier_complete s k then Some k else None
  | _ => None
  end.

(** The entry whose identity is latched into the [release_*_next]
    registers at this edge, if any. *)
Definition release_source (s : state) (x : inputs) : option nat :=
  match arrival_releases s (classify s x) with
  | Some k => Some k
  | None => last_below (completes s) MAX_BARRIERS
  end.

Definition reset (s : state) : state :=
  {| barrier_table := tabulate (fun i =>
       {| barrier_id := barrier_id (entry s i);
          block_id := block_id (entry s i);
          arrived_warps := 0; expected_warps := 0;
          thread_masks := thread_masks (entry s i);
          active := false; cycle_counter := 0 |});
     barrier_states := tabulate (fun _ => IDLE);
     barrier_free := tabulate (fun _ => true);
     barrier_complete := barrier_complete s;
     release_barrier_id_next := 0; release_block_id_next := 0;
     release_warp_mask_next := 0; release_valid_next := false;
     arrive_ready := arrive_ready s;
     release_barrier_id := 0; release_block_id := 0;
     release_warp_mask := 0; release_valid := false;
     barrier_count := 0; stalled_cycle_count := 0 |}.

(** One rising clock edge of the [always_ff] block. *)
Definition step (s : state) (x : inputs) : state :=
  if negb (rst_n x) then reset s
  else
    let a := classify s x in
    let src := release_source s x in
    {| barrier_table := tabulate (fun i => arrive_entry a x i (fsm_entry s x i));
       barrier_states := tabulate (fun i =>
         match a with
         | Existing k =>
             if Nat.eqb i k && is_barrier_complete s k then RELEASING
             else fsm_state s x i
         | Fresh k => if Nat.eqb i k then COLLECTING else fsm_state s x i
         | _ => fsm_state s x i
         end);
       barrier_free := tabulate (fun i =>
         match a with
         | Fresh k => if Nat.eqb i k then false else fsm_free s x i
         | _ => fsm_free s x i
         end);
       barrier_complete := tabulate (fun i =>
         match a with
         | Existing k =>
             if Nat.eqb i k && is_barrier_complete s k then true
             else fsm_complete s x i
         | _ => fsm_complete s x i
         end);
       release_barrier_id_next :=
         match src with
         | Some k => barrier_id (entry s k)
         | None => release_barrier_id_next s
         end;
       release_block_id_next :=
         match src with
         | Some k => block_id (entry s k)
         | None => release_block_id_next s
         end;
       release_warp_mask_next :=
         match src with
         | Some k => arrived_warps (entry s k)
         | None => release_warp_mask_next s
         end;
       release_valid_next :=
         match src with Some _ => true | None => false end;
       arrive_ready :=
         match a with TableFull => false | _ => true end;
       release_barrier_id := release_barrier_id_next s;
       release_block_id := release_block_id_next s;
       release_warp_mask := release_warp_mask_next s;
       release_valid := release_valid_next s;
       barrier_count :=
         if any_below (acked s x) MAX_BARRIERS
         then wrap32 (barrier_count s + 1) else barrier_count s;
       stalled_cycle_count :=
         if any_below (collecting s) MAX_BARRIERS
         then wrap32 (stalled_cycle_count s + 1) else stalled_cycle_count s |}.

Definition run (s : state) (xs : list inputs) : state := fold_left step xs s.

(** [a] is a subset of [b], as bit masks. *)
Definition mask_subset (a b : Z) : Prop := Z.land a b = a.

(** An entry that was allocated expects every warp of the block; one that
    never was is all zero and inactive. *)
Definition entry_shape (e : barrier_entry_t) : Prop :=
  (expected_warps e = all_warps /\ 0 <= arrived_warps e < 2 ^ WARPS_PER_BLOCK)
  \/ (expected_warps e = 0 /\ arrived_warps e = 0 /\ active e = false).

(** Registers before the first reset. *)
Definition power_on : state :=
  {| barrier_table := []; barrier_states := []; barrier_free := [];
     barrier_complete := [];
     release_barrier_id_next := 0; release_block_id_next := 0;
     release_warp_mask_next := 0; release_valid_next := false;
     arrive_ready := false;
     release_barrier_id := 0; release_block_id := 0;
     release_warp_mask := 0; release_valid := false;
     barrier_count := 0; stalled_cycle_count := 0 |}.

Definition quiet (ready : bool) : inputs :=
  {| rst_n := true; arrive_barrier_id := 0; arrive_thread_mask := 0;
     arrive_block_id := 0; arrive_warp_id := 0; arrive_valid := false;
     release_ready := ready |}.

Definition arrive (bid blk w : Z) : inputs :=
  {| rst_n := true; arrive_barrier_id := bid; arrive_thread_mask := Z.ones 32;
     arrive_block_id := blk; arrive_warp_id := w; arrive_valid := true;
     release_ready := false |}.

(** Warps 0 .. 31 of block 0 arrive at barrier 0, one per cycle. *)
Definition all_arrive : list inputs :=
  map (fun w => arrive 0 0 (Z.of_nat w)) (seq 0 32).

(** A release that is latched, or on the output, names every warp of the
    block. *)
Definition releases_full (s : state) : Prop :=
  (release_valid_next s = true -> release_warp_mask_next s = all_warps)
  /\ (release_valid s = true -> release_warp_mask s = all_warps).

(** No two tracked entries are for the same barrier of the same block. *)
Definition ids_unique (s : state) : Prop :=
  forall i j,
    tracked s i = true -> tracked s j = true ->
    barrier_id (entry s i) = barrier_id (entry s j) ->
    block_id (entry s i) = block_id (entry s j) -> i = j.

(** Only an allocated, active entry is COLLECTING. *)
Definition idle_when_free (s : state) : Prop :=
  forall i, tracked s i = false -> state_of s i <> COLLECTING.

(** An arrival while the scheduler takes releases. *)
Definition arrive_taking (bid blk w : Z) : inputs :=
  {| rst_n := true; arrive_barrier_id := bid; arrive_thread_mask := Z.ones 32;
     arrive_block_id := blk; arrive_warp_id := w; arrive_valid := true;
     release_ready := true |}.

(** Warps 0 .. 30 of block 1 arrive at barrier 0, then every warp of
    block 0, then warp 31 of block 1, and then warp 0 of block 0 a second
    time: one arrival per clock edge, releases taken throughout. *)
Definition second_arrival : list inputs :=
  quiet true
  :: map (fun w => arrive_taking 0 1 (Z.of_nat w)) (seq 0 31)
  ++ map (fun w => arrive_taking 0 0 (Z.of_nat w)) (seq 0 32)
  ++ [arrive_taking 0 1 31; arrive_taking 0 0 0].

(** Entry 0 holds barrier 0 of block 1 with every warp arrived and is
    RELEASING, no entry is COLLECTING, and the release registers name
    block 0. *)
Definition release_lost (s : state) : Prop :=
  release_block_id s = 0 /\ release_block_id_next s = 0
  /\ Forall (fun st => st = IDLE \/ st = RELEASING) (barrier_states s)
  /\ free s 0 = false /\ active (entry s 0) = true
  /\ barrier_id (entry s 0) = 0 /\ block_id (entry s 0) = 1
  /\ arrived_warps (entry s 0) = all_warps
  /\ expected_warps (entry s 0) = all_warps
  /\ state_of s 0 = RELEASING.

End BarrierController.

(** ** register_file.sv *)

Module RegisterFile.

Definition NUM_REGISTERS : nat := 32.
Definition THREADS_PER_WARP : nat := 32.
Definition NUM_WARPS : nat := 32.

Record register_entry_t := { data : Z; valid : bool }.

(** [register_file[w][r][t]], the scoreboard (one [NUM_REGISTERS]-bit
    vector per warp) and the monitoring counters. *)
Record state := {
  register_file : list (list (list register_entry_t));
  register_busy : list Z;
  read_operations : Z;
  write_operations : Z;
  bank_conflicts : Z
}.

Record inputs := {
  rst_n : bool;
  rs1_addr : nat;
  rs1_warp_id : nat;
  rs2_addr : nat;
  rs2_warp_id : nat;
  rd_addr : nat;
  rd_warp_id : nat;
  rd_data : list Z;
  rd_thread_mask : Z;
  rd_write_en : bool;
  clear_busy_reg : nat;
  clear_busy_warp : nat;
  clear_busy_en : bool
}.

(** The lanes of one register after a write: lane [t] takes [rd_data[t]]
    when bit [t] of the thread mask is set. *)
Definition write_lanes (mask : Z) (d : list Z) (lanes : list register_entry_t)
  : list register_entry_t :=
  imap (fun t e =>
          if Z.testbit mask (Z.of_nat t)
          then {| data := nth t d 0; valid := true |} else e) lanes.

(** Element select; [None] is the unknown value read out of range. *)
Definition stored (s : state) (w r t : nat) : option register_entry_t :=
  match register_file s !! w with
  | Some regs =>
      match regs !! r with
      | Some lanes => lanes !! t
      | None => None
      end
  | None => None
  end.

(** A read port: the array read of the first [always_comb], overridden by
    the zero-register block when the address is 0. *)
Definition rs_data (s : state) (addr w : nat) : list (option Z) :=
  map (fun t => if Nat.eqb addr 0 then Some 0 else data <$> stored s w addr t)
      (seq 0 THREADS_PER_WARP).

Definition rs1_data (s : state) (x : inputs) := rs_data s (rs1_addr x) (rs1_warp_id x).
Definition rs2_data (s : state) (x : inputs) := rs_data s (rs2_addr x) (rs2_warp_id x).

(** Scoreboard bit of register [r] of warp [w]. *)
Definition busy (s : state) (w r : nat) : option bool :=
  (fun v => Z.testbit v (Z.of_nat r)) <$> register_busy s !! w.

Definition bank_access_mask (x : inputs) : Z :=
  let m1 := if negb (Nat.eqb (rs1_addr x) 0)
            then Z.setbit 0 (Z.of_nat (rs1_addr x)) else 0 in
  if negb (Nat.eqb (rs2_addr x) 0) then Z.setbit m1 (Z.of_nat (rs2_addr x)) else m1.

Definition countones (v : Z) : nat :=
  length (filter (fun i => Z.testbit v (Z.of_nat i) = true) (seq 0 NUM_REGISTERS)).

Definition bank_conflict (x : inputs) : bool :=
  (countones (bank_access_mask x)
   <? (if negb (Nat.eqb (rs1_addr x) 0) then 1 else 0)
      + (if negb (Nat.eqb (rs2_addr x) 0) then 1 else 0))%nat.

Definition reset_state : state :=
  {| register_file :=
       repeat (repeat (repeat {| data := 0; valid := true |} THREADS_PER_WARP)
                 NUM_REGISTERS) NUM_WARPS;
     register_busy := repeat 0 NUM_WARPS;
     read_operations := 0; write_operations := 0; bank_conflicts := 0 |}.

(** One rising clock edge of the three [always_ff] blocks. *)
Definition step (s : state) (x : inputs) : state :=
  if negb (rst_n x) then reset_state
  else
    {| register_file :=
         if rd_write_en x
         then alter (alter (write_lanes (rd_thread_mask x) (rd_data x)) (rd_addr x))
                    (rd_warp_id x) (register_file s)
         else register_file s;
       register_busy :=
         let b1 := if rd_write_en x
                   then alter (fun v => Z.setbit v (Z.of_nat (rd_addr x)))
                              (rd_warp_id x) (register_busy s)
                   else register_busy s in
         if clear_busy_en x
         then alter (fun v => Z.clearbit v (Z.of_nat (clear_busy_reg x)))
                    (clear_busy_warp x) b1
         else b1;
       read_operations :=
         if negb (Nat.eqb (rs1_addr x) 0) || negb (Nat.eqb (rs2_addr x) 0)
         then wrap32 (read_operations s + 1) else read_operations s;
       write_operations :=
         if rd_write_en x then wrap32 (write_operations s + 1) else write_operations s;
       bank_conflicts :=
         if bank_conflict x then wrap32 (bank_conflicts s + 1) else bank_conflicts s |}.

Definition run (s : state) (xs : list inputs) : state := fold_left step xs s.

(** A write of [d] to register [r] of warp [w], all lanes enabled. *)
Definition write (w r : nat) (d : list Z) : inputs :=
  {| rst_n := true; rs1_addr := 0; rs1_warp_id := 0; rs2_addr := 0; rs2_warp_id := 0;
     rd_addr := r; rd_warp_id := w; rd_data := d; rd_thread_mask := Z.ones 32;
     rd_write_en := true;
     clear_busy_reg := 0; clear_busy_warp := 0; clear_busy_en := false |}.

(** The dimensions of the arrays: [NUM_WARPS] x [NUM_REGISTERS] x
    [THREADS_PER_WARP] entries and one scoreboard vector per warp. *)
Definition shaped (s : state) : Prop :=
  length (register_file s) = NUM_WARPS
  /\ Forall (fun regs =>
               length regs = NUM_REGISTERS
               /\ Forall (fun lanes => length lanes = THREADS_PER_WARP) regs)
            (register_file s)
  /\ length (register_busy s) = NUM_WARPS.

(** Pins on which only the two read addresses matter. *)
Definition read_pins (a1 a2 : nat) : inputs :=
  {| rst_n := true; rs1_addr := a1; rs1_warp_id := 0; rs2_addr := a2; rs2_warp_id := 0;
     rd_addr := 0; rd_warp_id := 0; rd_data := []; rd_thread_mask := 0;
     rd_write_en := false;
     clear_busy_reg := 0; clear_busy_warp := 0; clear_busy_en := false |}.

End RegisterFile.

(** ** Outcomes of the C++ model *)

(** A C++ call either returns, or stops the process on a failed [assert],
    or steps outside what the language defines (a subscript out of range). *)
Inductive failure :=
| Assert_aligned        (* "Memory access must be aligned" *)
| Assert_set_index      (* "Invalid set index" *)
| Assert_way_index      (* "Invalid way index" *)
| Out_of_range.         (* operator[] past the end of a vector *)

Inductive result (A : Type) :=
| Ok (a : A)
| Fail (f : failure).
Arguments Ok {A} a.
Arguments Fail {A} f.

Definition bind {A B} (r : result A) (k : A -> result B) : result B :=
  match r with
  | Ok a => k a
  | Fail f => Fail f
  end.

Notation "'do' x <- r ; k" := (bind r (fun x => k))
  (at level 10, x name, r at level 100, k at level 200).

Definition of_option {A} (o : option A) : result A :=
  match o with
  | Some a => Ok a
  | None => Fail Out_of_range
  end.

(** What the development is parametric in: the value of [a << n] on
    [uint32_t] when [n] is 32 or more, which the language leaves open (the
    write-back address of a victim line is computed with such shifts), and
    the constant [TRACE_RESERVE_SIZE], which sim_engine.h sets to 10000:
    what is proved of the trace holds for every size. *)
Class Target := {
  shift_left32 : Z -> Z -> Z;
  TRACE_RESERVE_SIZE : nat
}.

(** Shift counts taken modulo 32, and a trace of 16 entries, short enough
    to be filled in an example. *)
Definition masking_target : Target :=
  {| shift_left32 := fun a n => wrap32 (Z.shiftl a (n mod 32));
     TRACE_RESERVE_SIZE := 16 |}.

(** ** memory_model.h, memory_model.cpp *)

Module MemoryModel.
Section WithTarget.
Context `{Target}.

Record CacheConfig := {
  total_size : Z;
  line_size : Z;
  associativity : Z;
  num_banks : Z;
  memory_latency : Z
}.

Record CacheStats := {
  reads : Z;
  writes : Z;
  hits : Z;
  misses : Z;
  evictions : Z;
  bank_conflicts : Z
}.

Record CacheLine := {
  tag : Z;
  data : list Z;
  valid : bool;
  dirty : bool;
  last_access : Z
}.

Record CacheSet := { ways : list CacheLine }.

Record MemoryAccess := {
  acc_address : Z;
  acc_data : Z;
  acc_is_write : bool;
  acc_cycle : Z
}.

Definition MAX_HISTORY_SIZE : nat := 1000.

Record t := {
  config_ : CacheConfig;
  sets_ : list CacheSet;
  main_memory_ : gmap Z Z;
  stats_ : CacheStats;
  current_cycle_ : Z;
  access_history_ : list MemoryAccess
}.

Definition no_stats : CacheStats :=
  {| reads := 0; writes := 0; hits := 0; misses := 0; evictions := 0;
     bank_conflicts := 0 |}.

(** [CacheLine(line_size_bytes)] and [CacheSet(associativity, line_size_bytes)]. *)
Definition new_line (line_size_bytes : Z) : CacheLine :=
  {| tag := 0; data := repeat 0 (Z.to_nat (line_size_bytes / 4));
     valid := false; dirty := false; last_access := 0 |}.

Definition new_set (assoc line_size_bytes : Z) : CacheSet :=
  {| ways := repeat (new_line line_size_bytes) (Z.to_nat assoc) |}.

(** [num_sets], as computed in the constructor and in the address helpers. *)
Definition num_sets (c : CacheConfig) : Z :=
  total_size c / wrap32 (line_size c * associativity c).

(** The constructor.  Where [line_size * associativity] is 0 in 32 bits
    the program stops at the division for [num_sets]; here the division
    gives 0 and the model has no sets. *)
Definition construct (cache_size line_sz latency : Z) : t :=
  let c := {| total_size := cache_size; line_size := line_sz; associativity := 8;
              num_banks := 8; memory_latency := latency |} in
  {| config_ := c;
     sets_ := repeat (new_set (associativity c) (line_size c)) (Z.to_nat (num_sets c));
     main_memory_ := ∅;
     stats_ := no_stats;
     current_cycle_ := 0;
     access_history_ := [] |}.

Definition clear_line (l : CacheLine) : CacheLine :=
  {| tag := 0; data := map (fun _ => 0) (data l);
     valid := false; dirty := false; last_access := 0 |}.

Definition initialize (m : t) : t :=
  {| config_ := config_ m;
     sets_ := map (fun st => {| ways := map clear_line (ways st) |}) (sets_ m);
     main_memory_ := ∅;
     stats_ := no_stats;
     current_cycle_ := 0;
     access_history_ := [] |}.

(** *** Address helpers.  [std::log2] of an unsigned value, truncated, is
    [Z.log2] for a non-zero value. *)
Definition set_bits (c : CacheConfig) : Z := Z.log2 (num_sets c).
Definition offset_bits (c : CacheConfig) : Z := Z.log2 (line_size c).

Definition get_set_index (c : CacheConfig) (address : Z) : Z :=
  Z.land (Z.shiftr address (offset_bits c)) (Z.shiftl 1 (set_bits c) - 1).

Definition get_tag (c : CacheConfig) (address : Z) : Z :=
  Z.shiftr address (offset_bits c + set_bits c).

Definition get_offset (c : CacheConfig) (address : Z) : Z :=
  Z.land address (wrap32 (line_size c - 1)).

Definition get_bank_index (c : CacheConfig) (address : Z) : Z :=
  Z.shiftr address 2 mod num_banks c.

Definition translate_address (address : Z) : Z := address.

Definition check_alignment (address size : Z) : bool := address mod size =? 0.

Definition calculate_access_latency (c : CacheConfig) (is_hit : bool) : Z :=
  if is_hit then 1 else wrap32 (memory_latency c + line_size c / 16).

Definition check_bank_conflicts (c : CacheConfig) (address : Z) : Z := 0.

(** *** Replacement.  Every set is built with [associativity] ways (the
    [CacheSet] constructor; [verify_state] asserts it), so a loop over
    [i < config_.associativity] visits the ways of the set in order. *)

(** First loop of [select_victim]: the first way that is not valid. *)
Fixpoint first_invalid (ws : list CacheLine) (i : nat) : option nat :=
  match ws with
  | [] => None
  | w :: ws' => if negb (valid w) then Some i else first_invalid ws' (S i)
  end.

(** Second loop of [select_victim], from way [i] on, with the running
    [lru_way] and [lru_time]. *)
Fixpoint lru_scan (ws : list CacheLine) (i lru_way : nat) (lru_time : Z) : nat :=
  match ws with
  | [] => lru_way
  | w :: ws' =>
      if last_access w <? lru_time
      then lru_scan ws' (S i) i (last_access w)
      else lru_scan ws' (S i) lru_way lru_time
  end.

Definition select_victim (st : CacheSet) : result nat :=
  match first_invalid (ways st) 0 with
  | Some i => Ok i
  | None =>
      match ways st with
      | w0 :: ws => Ok (lru_scan ws 1 0 (last_access w0))
      | [] => Fail Out_of_range
      end
  end.

(** The hit loop: the first valid way whose tag matches. *)
Fixpoint find_hit (ws : list CacheLine) (tg : Z) (i : nat) : option nat :=
  match ws with
  | [] => None
  | w :: ws' =>
      if valid w && (tag w =? tg) then Some i else find_hit ws' tg (S i)
  end.

(** *** Main memory: [operator[]] of the unordered map creates a zero entry
    when the key is absent. *)
Definition mem_read (mm : gmap Z Z) (a : Z) : Z * gmap Z Z :=
  match mm !! a with
  | Some v => (v, mm)
  | None => (0, <[a := 0]> mm)
  end.

(** Writing a line back, word [i] at [base + i*4]. *)
Fixpoint write_back (mm : gmap Z Z) (base i : Z) (ds : list Z) : gmap Z Z :=
  match ds with
  | [] => mm
  | d :: ds' => write_back (<[wrap32 (base + i * 4) := d]> mm) base (i + 1) ds'
  end.

(** The address computed for a line that is written back. *)
Definition line_address (c : CacheConfig) (tg set_index : Z) : Z :=
  Z.lor (shift_left32 tg (wrap32 (32 - get_tag c 4294967295)))
        (shift_left32 set_index (get_offset c 4294967295)).

(** Loading words [0 .. n-1] of a line from [base]. *)
Fixpoint refill (mm : gmap Z Z) (base : Z) (ds : list Z) (i n : nat)
  : result (list Z * gmap Z Z) :=
  match n with
  | O => Ok (ds, mm)
  | S n' =>
      let '(v, mm') := mem_read mm (wrap32 (base + Z.of_nat i * 4)) in
      if (i <? length ds)%nat
      then refill mm' base (<[i := v]> ds) (S i) n'
      else Fail Out_of_range
  end.

(** [handle_coherence]: every valid line carrying the tag, in every set,
    is marked dirty. *)
Definition mark_dirty (tg : Z) (l : CacheLine) : CacheLine :=
  if valid l && (tag l =? tg)
  then {| tag := tag l; data := data l; valid := valid l; dirty := true;
          last_access := last_access l |}
  else l.

Definition handle_coherence (c : CacheConfig) (sets : list CacheSet) (address : Z)
  : list CacheSet :=
  map (fun st => {| ways := map (mark_dirty (get_tag c address)) (ways st) |}) sets.

Definition incr (x : Z) : Z := wrap64 (x + 1).

Definition count_access (st : CacheStats) (is_write : bool) : CacheStats :=
  {| reads := if is_write then reads st else incr (reads st);
     writes := if is_write then incr (writes st) else writes st;
     hits := hits st; misses := misses st; evictions := evictions st;
     bank_conflicts := bank_conflicts st |}.

Definition count_lookup (st : CacheStats) (hit : bool) : CacheStats :=
  {| reads := reads st; writes := writes st;
     hits := if hit then incr (hits st) else hits st;
     misses := if hit then misses st else incr (misses st);
     evictions := evictions st; bank_conflicts := bank_conflicts st |}.

Definition count_eviction (st : CacheStats) : CacheStats :=
  {| reads := reads st; writes := writes st; hits := hits st; misses := misses st;
     evictions := incr (evictions st); bank_conflicts := bank_conflicts st |}.

(** The hit branch applied to the line. *)
Definition hit_line (l : CacheLine) (now : Z) (word : nat) (d : Z) (is_write : bool)
  : result CacheLine :=
  if (word <? length (data l))%nat then
    Ok {| tag := tag l;
          data := if is_write then <[word := d]> (data l) else data l;
          valid := valid l;
          dirty := if is_write then true else dirty l;
          last_access := now |}
  else Fail Out_of_range.

Definition set_way (sets : list CacheSet) (si wi : nat) (l : CacheLine) : list CacheSet :=
  alter (fun st => {| ways := <[wi := l]> (ways st) |}) si sets.

(** [process_request]; the returned value is [current_cycle_]. *)
Definition process_request (m : t) (address d : Z) (is_write : bool) : result (t * Z) :=
  let history :=
    if (length (access_history_ m) <? MAX_HISTORY_SIZE)%nat
    then access_history_ m
         ++ [{| acc_address := address; acc_data := d; acc_is_write := is_write;
                acc_cycle := current_cycle_ m |}]
    else access_history_ m in
  let stats1 := count_access (stats_ m) is_write in
  if negb (check_alignment address 4) then Fail Assert_aligned
  else
    let c := config_ m in
    let physical_address := translate_address address in
    let set_index := get_set_index c physical_address in
    let tg := get_tag c physical_address in
    let offset := get_offset c physical_address in
    let si := Z.to_nat set_index in
    let word := Z.to_nat (offset / 4) in
    do st <- of_option (sets_ m !! si) ;
    let hit := find_hit (ways st) tg 0 in
    let stats2 := count_lookup stats1 (bool_decide (is_Some hit)) in
    let latency :=
      wrap32 (calculate_access_latency c (bool_decide (is_Some hit))
              + check_bank_conflicts c physical_address) in
    do r <-
      match hit with
      | Some hit_way =>
          do line <- of_option (ways st !! hit_way) ;
          do line' <- hit_line line (current_cycle_ m) word d is_write ;
          Ok (set_way (sets_ m) si hit_way line', main_memory_ m, stats2)
      | None =>
          do victim_way <- select_victim st ;
          do victim <- of_option (ways st !! victim_way) ;
          let evict := valid victim && dirty victim in
          let mm1 :=
            if evict
            then write_back (main_memory_ m)
                   (wrap32 (line_address c (tag victim) set_index)) 0 (data victim)
            else main_memory_ m in
          let stats3 := if evict then count_eviction stats2 else stats2 in
          let base_address :=
            Z.land physical_address (wrap32 (Z.lnot (wrap32 (line_size c - 1)))) in
          do filled <- refill mm1 base_address (data victim) 0
                         (Z.to_nat (line_size c / 4)) ;
          let '(ds, mm2) := filled in
          if (word <? length ds)%nat then
            let line' :=
              {| tag := tg;
                 data := if is_write then <[word := d]> ds else ds;
                 valid := true; dirty := is_write;
                 last_access := current_cycle_ m |} in
            Ok (set_way (sets_ m) si victim_way line', mm2, stats3)
          else Fail Out_of_range
      end ;
    let '(sets', mm', stats3) := r in
    let now := wrap64 (current_cycle_ m + latency) in
    Ok ({| config_ := c;
           sets_ := handle_coherence c sets' physical_address;
           main_memory_ := mm';
           stats_ := stats3;
           current_cycle_ := now;
           access_history_ := history |}, now).

(** [lookup_cache]: the data of the first valid way carrying the tag. *)
Fixpoint lookup_ways (ws : list CacheLine) (tg : Z) (word : nat) : result (option Z) :=
  match ws with
  | [] => Ok None
  | w :: ws' =>
      if valid w && (tag w =? tg)
      then do v <- of_option (data w !! word) ; Ok (Some v)
      else lookup_ways ws' tg word
  end.

Definition lookup_cache (m : t) (address : Z) : result (option Z) :=
  let c := config_ m in
  do st <- of_option (sets_ m !! Z.to_nat (get_set_index c address)) ;
  lookup_ways (ways st) (get_tag c address) (Z.to_nat (get_offset c address / 4)).

(** [read_instruction]; after a miss that the request does not repair, the
    value returned is that of an uninitialised local, taken as 0. *)
Definition read_instruction (m : t) (address : Z) : result (t * Z) :=
  do r <- lookup_cache m address ;
  match r with
  | Some v => Ok (m, v)
  | None =>
      do p <- process_request m address 0 false ;
      do r' <- lookup_cache p.1 address ;
      Ok (p.1, default 0 r')
  end.

(** The hit loop of [update_cache]. *)
Fixpoint update_ways (ws : list CacheLine) (tg : Z) (word : nat) (d now : Z)
  : result (option (list CacheLine)) :=
  match ws with
  | [] => Ok None
  | w :: ws' =>
      if valid w && (tag w =? tg) then
        if (word <? length (data w))%nat then
          Ok (Some ({| tag := tag w; data := <[word := d]> (data w);
                       valid := valid w; dirty := true; last_access := now |} :: ws'))
        else Fail Out_of_range
      else
        do r <- update_ways ws' tg word d now ;
        Ok (option_map (cons w) r)
  end.

Definition set_sets (m : t) (sets : list CacheSet) : t :=
  {| config_ := config_ m; sets_ := sets; main_memory_ := main_memory_ m;
     stats_ := stats_ m; current_cycle_ := current_cycle_ m;
     access_history_ := access_history_ m |}.

Definition update_cache (m : t) (address d : Z) : result t :=
  let c := config_ m in
  let si := Z.to_nat (get_set_index c address) in
  do st <- of_option (sets_ m !! si) ;
  do r <- update_ways (ways st) (get_tag c address)
         (Z.to_nat (get_offset c address / 4)) d (current_cycle_ m) ;
  match r with
  | Some ws => Ok (set_sets m (<[si := {| ways := ws |}]> (sets_ m)))
  | None => do p <- process_request m address d true ; Ok p.1
  end.

(** [invalidate_cache_line]: every valid way of the set carrying the tag is
    written back when dirty, then invalidated. *)
Fixpoint invalidate_ways (c : CacheConfig) (set_index tg : Z) (ws : list CacheLine)
    (mm : gmap Z Z) : list CacheLine * gmap Z Z :=
  match ws with
  | [] => ([], mm)
  | w :: ws' =>
      if valid w && (tag w =? tg) then
        let mm1 :=
          if dirty w
          then write_back mm (wrap32 (line_address c (tag w) set_index)) 0 (data w)
          else mm in
        let '(ws'', mm2) := invalidate_ways c set_index tg ws' mm1 in
        ({| tag := tag w; data := data w; valid := false; dirty := false;
            last_access := last_access w |} :: ws'', mm2)
      else
        let '(ws'', mm2) := invalidate_ways c set_index tg ws' mm in
        (w :: ws'', mm2)
  end.

Definition invalidate_cache_line (m : t) (address : Z) : result t :=
  let c := config_ m in
  let set_index := get_set_index c address in
  let si := Z.to_nat set_index in
  do st <- of_option (sets_ m !! si) ;
  let '(ws, mm) :=
    invalidate_ways c set_index (get_tag c address) (ways st) (main_memory_ m) in
  Ok {| config_ := c; sets_ := <[si := {| ways := ws |}]> (sets_ m);
        main_memory_ := mm; stats_ := stats_ m;
        current_cycle_ := current_cycle_ m;
        access_history_ := access_history_ m |}.

Definition evict_cache_line (m : t) (set_index way : Z) : result t :=
  let c := config_ m in
  if negb (set_index <? Z.of_nat (length (sets_ m))) then Fail Assert_set_index
  else if negb (way <? associativity c) then Fail Assert_way_index
  else
    do st <- of_option (sets_ m !! Z.to_nat set_index) ;
    do line <- of_option (ways st !! Z.to_nat way) ;
    let mm :=
      if valid line && dirty line
      then write_back (main_memory_ m)
             (wrap32 (line_address c (tag line) set_index)) 0 (data line)
      else main_memory_ m in
    let line' := {| tag := tag line; data := data line; valid := false;
                    dirty := false; last_access := last_access line |} in
    Ok {| config_ := c;
          sets_ := set_way (sets_ m) (Z.to_nat set_index) (Z.to_nat way) line';
          main_memory_ := mm;
          stats_ := count_eviction (stats_ m);
          current_cycle_ := current_cycle_ m;
          access_history_ := access_history_ m |}.

Definition get_cache_stats (m : t) : Z * Z := (hits (stats_ m), misses (stats_ m)).

(** *** Sequences of operations on one model *)
Inductive operation :=
| Initialize
| ProcessRequest (address d : Z) (is_write : bool)
| ReadInstruction (address : Z)
| LookupCache (address : Z)
| UpdateCache (address d : Z)
| InvalidateCacheLine (address : Z)
| EvictCacheLine (set_index way : Z).

Definition apply (m : t) (o : operation) : result t :=
  match o with
  | Initialize => Ok (initialize m)
  | ProcessRequest a d w => do p <- process_request m a d w ; Ok p.1
  | ReadInstruction a => do p <- read_instruction m a ; Ok p.1
  | LookupCache a => do r <- lookup_cache m a ; Ok m
  | UpdateCache a d => update_cache m a d
  | InvalidateCacheLine a => invalidate_cache_line m a
  | EvictCacheLine si wi => evict_cache_line m si wi
  end.

Fixpoint apply_all (m : t) (os : list operation) : result t :=
  match os with
  | [] => Ok m
  | o :: os' => do m' <- apply m o ; apply_all m' os'
  end.

(** The two assertions of [verify_state] on lines and on statistics. *)
Definition line_consistent (l : CacheLine) : Prop := valid l = true \/ dirty l = false.

Definition lines_consistent (m : t) : Prop :=
  Forall (fun st => Forall line_consistent (ways st)) (sets_ m).

Definition stats_consistent (st : CacheStats) : Prop :=
  wrap64 (hits st + misses st) = wrap64 (reads st + writes st).

(** Relations between the counters before and after a call: untouched,
    or one access counted once as a read or a write and once as a hit or a
    miss. *)
Definition same_counts (s s' : CacheStats) : Prop :=
  reads s' = reads s /\ writes s' = writes s
  /\ hits s' = hits s /\ misses s' = misses s.

Definition one_access (s s' : CacheStats) : Prop :=
  exists w hit : bool,
    reads s' = (if w then reads s else incr (reads s))
    /\ writes s' = (if w then incr (writes s) else writes s)
    /\ hits s' = (if hit then incr (hits s) else hits s)
    /\ misses s' = (if hit then misses s else incr (misses s)).

(** The counters are exact (no wrap-around so far) after at most [k]
    accesses. *)
Definition counts_exact (s : CacheStats) (k : Z) : Prop :=
  0 <= reads s /\ 0 <= writes s /\ 0 <= hits s /\ 0 <= misses s
  /\ hits s + misses s = reads s + writes s /\ reads s + writes s <= k.

(** A model as the constructor leaves it for a sane configuration, and as
    every operation keeps it: the line size is a power of two of at least
    one word, there is at least one set, every set has [associativity] ways
    and every line [line_size / 4] words. *)
Definition line_shape (c : CacheConfig) (l : CacheLine) : Prop :=
  length (data l) = Z.to_nat (line_size c / 4).

Definition set_shape (c : CacheConfig) (st : CacheSet) : Prop :=
  length (ways st) = Z.to_nat (associativity c) /\ Forall (line_shape c) (ways st).

Definition well_formed (m : t) : Prop :=
  let c := config_ m in
  4 <= line_size c < 2 ^ 32
  /\ line_size c = 2 ^ offset_bits c
  /\ line_size c mod 4 = 0
  /\ 1 <= num_sets c
  /\ 1 <= associativity c
  /\ length (sets_ m) = Z.to_nat (num_sets c)
  /\ Forall (set_shape c) (sets_ m).

(** Arguments with which an operation neither fails an assertion nor
    leaves the vectors: 32-bit addresses, word-aligned where a request is
    made, and an existing line for an eviction. *)
Definition admissible (c : CacheConfig) (o : operation) : Prop :=
  match o with
  | Initialize => True
  | ProcessRequest a _ _ | ReadInstruction a | UpdateCache a _ => 0 <= a /\ a mod 4 = 0
  | LookupCache a | InvalidateCacheLine a => 0 <= a
  | EvictCacheLine si wi => 0 <= si < num_sets c /\ 0 <= wi < associativity c
  end.

(** A call that can only fail by a subscript out of range. *)
Definition fails_only_out_of_range {A} (r : result A) : Prop :=
  forall f, r = Fail f -> f = Out_of_range.

(** *** [verify_state]: the assertions in the order in which they are
    made; [None] when all of them hold, else the first that fails. *)
Inductive assertion :=
| Cache_size_positive          (* "Cache size must be positive" *)
| Line_size_positive           (* "Cache line size must be positive" *)
| Associativity_positive       (* "Associativity must be positive" *)
| Banks_positive               (* "Number of banks must be positive" *)
| Number_of_sets               (* "Incorrect number of cache sets" *)
| Number_of_ways               (* "Incorrect number of ways" *)
| Line_words                   (* "Incorrect cache line size" *)
| Invalid_line_dirty           (* "Invalid line cannot be dirty" *)
| History_overflow             (* "Access history overflow" *)
| Count_mismatch.              (* "Hit/miss count mismatch with access count" *)

Fixpoint first_failure {A} (check : A -> option assertion) (xs : list A)
  : option assertion :=
  match xs with
  | [] => None
  | x :: xs' =>
      match check x with
      | Some f => Some f
      | None => first_failure check xs'
      end
  end.

Definition verify_line (c : CacheConfig) (l : CacheLine) : option assertion :=
  if negb (Z.of_nat (length (data l)) =? line_size c / 4) then Some Line_words
  else if negb (valid l) && dirty l then Some Invalid_line_dirty
  else None.

Definition verify_set (c : CacheConfig) (st : CacheSet) : option assertion :=
  if negb (Z.of_nat (length (ways st)) =? associativity c) then Some Number_of_ways
  else first_failure (verify_line c) (ways st).

Definition verify_state (m : t) : option assertion :=
  let c := config_ m in
  if negb (0 <? total_size c) then Some Cache_size_positive
  else if negb (0 <? line_size c) then Some Line_size_positive
  else if negb (0 <? associativity c) then Some Associativity_positive
  else if negb (0 <? num_banks c) then Some Banks_positive
  else if negb (Z.of_nat (length (sets_ m)) =? num_sets c) then Some Number_of_sets
  else
    match first_failure (verify_set c) (sets_ m) with
    | Some f => Some f
    | None =>
        if negb (length (access_history_ m) <=? MAX_HISTORY_SIZE)%nat
        then Some History_overflow
        else if negb (wrap64 (hits (stats_ m) + misses (stats_ m))
                      =? wrap64 (reads (stats_ m) + writes (stats_ m)))
        then Some Count_mismatch
        else None
    end.

(** What the operations keep of the structure built by the constructor:
    the shape of every set and the bound on the recorded accesses. *)
Definition structured (m : t) : Prop :=
  Forall (set_shape (config_ m)) (sets_ m)
  /\ (length (access_history_ m) <= MAX_HISTORY_SIZE)%nat.

(** What [verify_state] asserts, as a property of the model. *)
Definition sound (m : t) : Prop :=
  let c := config_ m in
  0 < total_size c /\ 0 < line_size c /\ 0 < associativity c /\ 0 < num_banks c
  /\ line_size c * associativity c < 2 ^ 32
  /\ length (sets_ m) = Z.to_nat (num_sets c)
  /\ structured m /\ lines_consistent m /\ stats_consistent (stats_ m).

(** No two valid ways of a set carry the same tag. *)
Definition distinct_tags (ws : list CacheLine) : Prop :=
  forall i j li lj,
    ws !! i = Some li -> ws !! j = Some lj ->
    valid li = true -> valid lj = true -> tag li = tag lj -> i = j.

(** One line may stand for another in a set without creating a second
    valid way for a tag: it is not valid, or the other was valid with the
    same tag. *)
Definition keeps_tag (l l' : CacheLine) : Prop :=
  valid l' = true -> valid l = true /\ tag l' = tag l.

Definition sets_distinct (sets : list CacheSet) : Prop :=
  Forall (fun st => distinct_tags (ways st)) sets.

(** The word an operation stores, if it stores one: a write request or
    [update_cache].  A read request does not keep its [data] argument. *)
Definition written (o : operation) : list Z :=
  match o with
  | ProcessRequest _ d true => [d]
  | UpdateCache _ d => [d]
  | _ => []
  end.

(** Every word held in a line or in the main memory satisfies [P]. *)
Definition lines_hold (P : Z -> Prop) (sets : list CacheSet) : Prop :=
  Forall (fun st => Forall (fun l => Forall P (data l)) (ways st)) sets.

Definition all_words (P : Z -> Prop) (m : t) : Prop :=
  lines_hold P (sets_ m) /\ map_Forall (fun _ v => P v) (main_memory_ m).

End WithTarget.
End MemoryModel.

(** ** sim_engine.h, sim_engine.cpp

    The records below carry the fields of the types of sim_engine.h that
    sim_engine.cpp and dpi_wrapper.cpp read and write.  The name of the
    trace file and the derived floating-point metrics ([ipc],
    [cache_hit_rate]) are left out: nothing below depends on them. *)

Module SimulationEngine.
Section WithTarget.
Context `{Target}.

Inductive EventType :=
| MEMORY_REQUEST | MEMORY_RESPONSE | INSTRUCTION_FETCH | WARP_COMPLETE | SIMULATION_END.

Record MemoryTransaction := {
  address : Z;
  data : Z;
  is_write : bool;
  size : Z;
  warp_id : Z;
  thread_mask : Z
}.

(** What the [void*] of an event points to or encodes. *)
Inductive payload :=
| Transaction (tr : MemoryTransaction)
| Warp (w : Z)
| Null.

Record SimEvent := {
  type : EventType;
  time : Z;
  ev_data : payload
}.

Record WarpState := {
  pc : Z;
  ws_thread_mask : Z;
  active : bool;
  last_active : Z
}.

Record SimConfig := {
  num_warps : Z;
  threads_per_warp : Z;
  cache_size : Z;
  cache_line_size : Z;
  memory_latency : Z
}.

Record SimStats := {
  total_cycles : Z;
  instructions_executed : Z;
  memory_requests : Z;
  cache_hits : Z;
  cache_misses : Z
}.

Record TraceEntry := {
  tr_time : Z;
  tr_type : EventType;
  tr_warp_id : Z;
  tr_address : Z;
  tr_data : Z
}.

Record t := {
  config_ : SimConfig;
  running_ : bool;
  current_time_ : Z;
  memory_model_ : MemoryModel.t;
  warp_states_ : list WarpState;
  event_queue_ : list SimEvent;
  stats_ : SimStats;
  simulation_trace_ : list TraceEntry
}.

Definition no_stats : SimStats :=
  {| total_cycles := 0; instructions_executed := 0; memory_requests := 0;
     cache_hits := 0; cache_misses := 0 |}.

(** [event_queue_] is a [std::priority_queue] under [std::greater], and
    [SimEvent::operator>] compares the scheduled cycle alone: [top()] is an
    event of least cycle.  Which of several events of the same cycle it is,
    the sources do not fix; the sequence number of the specification is
    taken for it.  The queue is a list in which an event is placed behind
    every event that is not scheduled later than it, so that the head is
    [top()] and the tail is what [pop()] leaves. *)
Fixpoint enqueue (ev : SimEvent) (q : list SimEvent) : list SimEvent :=
  match q with
  | [] => [ev]
  | e :: q' => if time ev <? time e then ev :: q else e :: enqueue ev q'
  end.

Definition set_queue (e : t) (q : list SimEvent) : t :=
  {| config_ := config_ e; running_ := running_ e; current_time_ := current_time_ e;
     memory_model_ := memory_model_ e; warp_states_ := warp_states_ e;
     event_queue_ := q; stats_ := stats_ e;
     simulation_trace_ := simulation_trace_ e |}.

Definition set_running (e : t) (b : bool) : t :=
  {| config_ := config_ e; running_ := b; current_time_ := current_time_ e;
     memory_model_ := memory_model_ e; warp_states_ := warp_states_ e;
     event_queue_ := event_queue_ e; stats_ := stats_ e;
     simulation_trace_ := simulation_trace_ e |}.

Definition set_time (e : t) (now : Z) : t :=
  {| config_ := config_ e; running_ := running_ e; current_time_ := now;
     memory_model_ := memory_model_ e; warp_states_ := warp_states_ e;
     event_queue_ := event_queue_ e; stats_ := stats_ e;
     simulation_trace_ := simulation_trace_ e |}.

Definition set_memory_model (e : t) (m : MemoryModel.t) : t :=
  {| config_ := config_ e; running_ := running_ e; current_time_ := current_time_ e;
     memory_model_ := m; warp_states_ := warp_states_ e;
     event_queue_ := event_queue_ e; stats_ := stats_ e;
     simulation_trace_ := simulation_trace_ e |}.

Definition set_warp_states (e : t) (ws : list WarpState) : t :=
  {| config_ := config_ e; running_ := running_ e; current_time_ := current_time_ e;
     memory_model_ := memory_model_ e; warp_states_ := ws;
     event_queue_ := event_queue_ e; stats_ := stats_ e;
     simulation_trace_ := simulation_trace_ e |}.

Definition set_stats (e : t) (st : SimStats) : t :=
  {| config_ := config_ e; running_ := running_ e; current_time_ := current_time_ e;
     memory_model_ := memory_model_ e; warp_states_ := warp_states_ e;
     event_queue_ := event_queue_ e; stats_ := st;
     simulation_trace_ := simulation_trace_ e |}.

Definition set_trace (e : t) (tr : list TraceEntry) : t :=
  {| config_ := config_ e; running_ := running_ e; current_time_ := current_time_ e;
     memory_model_ := memory_model_ e; warp_states_ := warp_states_ e;
     event_queue_ := event_queue_ e; stats_ := stats_ e;
     simulation_trace_ := tr |}.

Definition schedule_event (e : t) (ty : EventType) (delay : Z) (d : payload) : t :=
  set_queue e
    (enqueue {| type := ty; time := wrap64 (current_time_ e + delay); ev_data := d |}
       (event_queue_ e)).

Definition new_warp : WarpState :=
  {| pc := 0; ws_thread_mask := 4294967295; active := true; last_active := 0 |}.

(** The constructor.  [stats_] is not named in its initialiser list, so
    that the program leaves it unset until [initialize]; it is zero
    here. *)
Definition construct (c : SimConfig) : t :=
  {| config_ := c; running_ := false; current_time_ := 0;
     memory_model_ :=
       MemoryModel.construct (cache_size c) (cache_line_size c) (memory_latency c);
     warp_states_ := repeat new_warp (Z.to_nat (num_warps c));
     event_queue_ := []; stats_ := no_stats; simulation_trace_ := [] |}.

Definition initialize (e : t) : t :=
  let e0 :=
    {| config_ := config_ e; running_ := running_ e; current_time_ := 0;
       memory_model_ := MemoryModel.initialize (memory_model_ e);
       warp_states_ := warp_states_ e;
       event_queue_ := []; stats_ := no_stats; simulation_trace_ := [] |} in
  fold_left (fun e' w => schedule_event e' INSTRUCTION_FETCH 0 (Warp (Z.of_nat w)))
            (seq 0 (Z.to_nat (num_warps (config_ e)))) e0.

(** *** The two callbacks.  Each has a function-local
    [static SimulationEngine* instance = nullptr;].  The two pointers are
    state of the program, passed along here as [statics]; [Some tt] stands
    for a pointer to the engine.  No statement assigns either of them. *)
Record statics := {
  memory_request_callback_instance : option unit;
  instruction_complete_callback_instance : option unit
}.

(** The statics as their initialisers leave them. *)
Definition program_start : statics :=
  {| memory_request_callback_instance := None;
     instruction_complete_callback_instance := None |}.

Definition memory_request_callback (st : statics) (e : t)
    (addr d : Z) (w : bool) (wid mask : Z) : statics * t :=
  let trans := {| address := addr; data := d; is_write := w; size := 4;
                  warp_id := wid; thread_mask := mask |} in
  match memory_request_callback_instance st with
  | Some _ => (st, schedule_event e MEMORY_REQUEST 1 (Transaction trans))
  | None => (st, e)
  end.

Definition instruction_complete_callback (st : statics) (e : t)
    (wid pc_ instruction : Z) : result (statics * t) :=
  match instruction_complete_callback_instance st with
  | Some _ =>
      do warp <- of_option (warp_states_ e !! Z.to_nat wid) ;
      let warp' := {| pc := wrap32 (pc_ + 4); ws_thread_mask := ws_thread_mask warp;
                      active := active warp; last_active := current_time_ e |} in
      let e1 := set_warp_states e (<[Z.to_nat wid := warp']> (warp_states_ e)) in
      let is_branch := Z.land instruction 127 =? 99 in
      let is_exit := Z.land instruction 127 =? 115 in
      if is_exit then Ok (st, schedule_event e1 WARP_COMPLETE 1 (Warp wid))
      else Ok (st, schedule_event e1 INSTRUCTION_FETCH (if is_branch then 3 else 1)
                     (Warp wid))
  | None => Ok (st, e)
  end.

(** *** Event processing *)
Definition log_event (e : t) (ev : SimEvent) : t :=
  if (length (simulation_trace_ e) <? TRACE_RESERVE_SIZE)%nat then
    let entry0 := {| tr_time := time ev; tr_type := type ev; tr_warp_id := 0;
                     tr_address := 0; tr_data := 0 |} in
    let entry :=
      match ev_data ev with
      | Transaction tr =>
          match type ev with
          | MEMORY_REQUEST | MEMORY_RESPONSE =>
              {| tr_time := time ev; tr_type := type ev; tr_warp_id := warp_id tr;
                 tr_address := address tr; tr_data := data tr |}
          | _ => entry0
          end
      | Warp w =>
          match type ev with
          | INSTRUCTION_FETCH | WARP_COMPLETE =>
              {| tr_time := time ev; tr_type := type ev; tr_warp_id := w;
                 tr_address := 0; tr_data := 0 |}
          | _ => entry0
          end
      | Null => entry0
      end in
    set_trace e (simulation_trace_ e ++ [entry])
  else e.

Definition all_inactive (e : t) : bool := forallb (fun w => negb (active w)) (warp_states_ e).

Definition process_memory_request (e : t) (tr : MemoryTransaction) : result t :=
  let st := stats_ e in
  let e1 := set_stats e
    {| total_cycles := total_cycles st;
       instructions_executed := instructions_executed st;
       memory_requests := wrap64 (memory_requests st + 1);
       cache_hits := cache_hits st; cache_misses := cache_misses st |} in
  do p <- MemoryModel.process_request (memory_model_ e1) (address tr) (data tr)
            (is_write tr) ;
  let e2 := set_memory_model e1 p.1 in
  let e3 := if negb (is_write tr)
            then schedule_event e2 MEMORY_RESPONSE p.2 (Transaction tr) else e2 in
  do warp <- of_option (warp_states_ e3 !! Z.to_nat (warp_id tr)) ;
  Ok (set_warp_states e3
        (<[Z.to_nat (warp_id tr) :=
             {| pc := pc warp; ws_thread_mask := ws_thread_mask warp;
                active := active warp; last_active := current_time_ e3 |}]>
           (warp_states_ e3))).

Definition process_memory_response (st : statics) (e : t) (tr : MemoryTransaction)
  : statics * t :=
  let r := memory_request_callback st e (address tr) (data tr) false
             (warp_id tr) (thread_mask tr) in
  (r.1, schedule_event r.2 INSTRUCTION_FETCH 1 (Warp (warp_id tr))).

Definition process_instruction_fetch (st : statics) (e : t) (wid : Z)
  : result (statics * t) :=
  do warp <- of_option (warp_states_ e !! Z.to_nat wid) ;
  if negb (active warp) then Ok (st, e)
  else
    do p <- MemoryModel.read_instruction (memory_model_ e) (pc warp) ;
    let e1 := set_memory_model e p.1 in
    let counters := stats_ e1 in
    let e2 := set_stats e1
      {| total_cycles := total_cycles counters;
         instructions_executed := wrap64 (instructions_executed counters + 1);
         memory_requests := memory_requests counters;
         cache_hits := cache_hits counters; cache_misses := cache_misses counters |} in
    do r <- instruction_complete_callback st e2 wid (pc warp) p.2 ;
    let e3 := r.2 in
    do warp3 <- of_option (warp_states_ e3 !! Z.to_nat wid) ;
    let e4 := set_warp_states e3
      (<[Z.to_nat wid :=
           {| pc := wrap32 (pc warp3 + 4); ws_thread_mask := ws_thread_mask warp3;
              active := active warp3; last_active := last_active warp3 |}]>
         (warp_states_ e3)) in
    Ok (r.1, schedule_event e4 INSTRUCTION_FETCH 4 (Warp wid)).

Definition process_warp_complete (e : t) (wid : Z) : result t :=
  do warp <- of_option (warp_states_ e !! Z.to_nat wid) ;
  let e1 := set_warp_states e
    (<[Z.to_nat wid :=
         {| pc := pc warp; ws_thread_mask := ws_thread_mask warp;
            active := false; last_active := last_active warp |}]>
       (warp_states_ e)) in
  if all_inactive e1 then Ok (schedule_event e1 SIMULATION_END 1 Null) else Ok e1.

(** [process_event]; an event whose payload is not what its type is cast
    to is outside what the language defines. *)
Definition process_event (st : statics) (e : t) (ev : SimEvent)
  : result (statics * t) :=
  let e1 := log_event e ev in
  match type ev, ev_data ev with
  | MEMORY_REQUEST, Transaction tr =>
      do e2 <- process_memory_request e1 tr ; Ok (st, e2)
  | MEMORY_RESPONSE, Transaction tr => Ok (process_memory_response st e1 tr)
  | INSTRUCTION_FETCH, Warp w => process_instruction_fetch st e1 w
  | INSTRUCTION_FETCH, Null => process_instruction_fetch st e1 0
  | WARP_COMPLETE, Warp w => do e2 <- process_warp_complete e1 w ; Ok (st, e2)
  | WARP_COMPLETE, Null => do e2 <- process_warp_complete e1 0 ; Ok (st, e2)
  | SIMULATION_END, _ => Ok (st, set_running e1 false)
  | _, _ => Fail Out_of_range
  end.

Definition update_statistics (e : t) : t :=
  let st := stats_ e in
  let hm := MemoryModel.get_cache_stats (memory_model_ e) in
  set_stats e
    {| total_cycles := current_time_ e;
       instructions_executed := instructions_executed st;
       memory_requests := memory_requests st;
       cache_hits := hm.1; cache_misses := hm.2 |}.

Definition CYCLE_LIMIT : Z := 1000000.

(** One pass through the body of the [while] loop of [run], the queue
    being [ev :: q]. *)
Definition iteration (st : statics) (e : t) (ev : SimEvent) (q : list SimEvent)
  : result (statics * t) :=
  let e1 := set_time (set_queue e q) (time ev) in
  do r <- process_event st e1 ev ;
  let e2 := r.2 in
  let e3 := if current_time_ e2 mod 1000 =? 0 then update_statistics e2 else e2 in
  if (CYCLE_LIMIT <=? current_time_ e3) || all_inactive e3
  then Ok (r.1, set_running e3 false) else Ok (r.1, e3).

(** The [while] loop; [None] when [fuel] passes do not reach its exit. *)
Fixpoint run_loop (fuel : nat) (st : statics) (e : t) : option (result (statics * t)) :=
  match fuel with
  | O => None
  | S fuel' =>
      if running_ e then
        match event_queue_ e with
        | [] => Some (Ok (st, e))
        | ev :: q =>
            match iteration st e ev q with
            | Ok r => run_loop fuel' r.1 r.2
            | Fail f => Some (Fail f)
            end
        end
      else Some (Ok (st, e))
  end.

(** [run]; [calculate_performance_metrics] only writes the two
    floating-point metrics. *)
Definition run (fuel : nat) (st : statics) (e : t) : option (result (statics * t)) :=
  run_loop fuel st (set_running e true).

Definition stop (e : t) : t := set_running e false.

(** *** Calls made on an engine from outside, in sequence *)
Inductive call :=
| Call_initialize
| Call_schedule_event (ty : EventType) (delay : Z) (d : payload)
| Call_run (fuel : nat)
| Call_stop
| Call_memory_request_callback (addr d : Z) (w : bool) (wid mask : Z)
| Call_instruction_complete_callback (wid pc_ instruction : Z).

Definition do_call (st : statics) (e : t) (c : call) : option (result (statics * t)) :=
  match c with
  | Call_initialize => Some (Ok (st, initialize e))
  | Call_schedule_event ty delay d => Some (Ok (st, schedule_event e ty delay d))
  | Call_run fuel => run fuel st e
  | Call_stop => Some (Ok (st, stop e))
  | Call_memory_request_callback addr d w wid mask =>
      Some (Ok (memory_request_callback st e addr d w wid mask))
  | Call_instruction_complete_callback wid pc_ instruction =>
      Some (instruction_complete_callback st e wid pc_ instruction)
  end.

Fixpoint do_calls (st : statics) (e : t) (cs : list call)
  : option (result (statics * t)) :=
  match cs with
  | [] => Some (Ok (st, e))
  | c :: cs' =>
      match do_call st e c with
      | Some (Ok r) => do_calls r.1 r.2 cs'
      | other => other
      end
  end.

(** Weight of a queued event for the termination of the loop. *)
Definition weight (ev : SimEvent) : nat :=
  if CYCLE_LIMIT <=? time ev then 1%nat
  else match type ev with
       | MEMORY_REQUEST => Z.to_nat CYCLE_LIMIT + 4
       | MEMORY_RESPONSE => 3 + Z.to_nat (CYCLE_LIMIT - time ev)
       | INSTRUCTION_FETCH => 1 + Z.to_nat (CYCLE_LIMIT - time ev)
       | WARP_COMPLETE => 2
       | SIMULATION_END => 1
       end%nat.

Definition queue_weight (q : list SimEvent) : nat :=
  fold_right (fun ev n => (weight ev + n)%nat) 0%nat q.

(** *** [check_simulation_state]: the first assertion that fails, if any.
    In [a || !b && "text"] the text belongs to the conjunction and is
    true, so that the assertion is [a || !b]. *)
Inductive state_assertion :=
| Pc_aligned                   (* "PC must be aligned to 4 bytes" *)
| Thread_mask                  (* "Inactive warp must have zero thread mask" *)
| Queue_while_running          (* "Event queue cannot be empty while running" *)
| Memory_model (f : MemoryModel.assertion).

Definition check_warp (w : WarpState) : option state_assertion :=
  if negb (pc w mod 4 =? 0) then Some Pc_aligned
  else if negb (negb (ws_thread_mask w =? 0) || negb (active w)) then Some Thread_mask
  else None.

Fixpoint check_warps (ws : list WarpState) : option state_assertion :=
  match ws with
  | [] => None
  | w :: ws' =>
      match check_warp w with
      | Some f => Some f
      | None => check_warps ws'
      end
  end.

Definition queue_empty (e : t) : bool :=
  match event_queue_ e with [] => true | _ => false end.

Definition check_simulation_state (e : t) : option state_assertion :=
  match check_warps (warp_states_ e) with
  | Some f => Some f
  | None =>
      if negb (negb (queue_empty e) || negb (running_ e)) then Some Queue_while_running
      else option_map Memory_model (MemoryModel.verify_state (memory_model_ e))
  end.

(** What the engine keeps of a warp and of its own state whatever it is
    asked to do, [P] being a property of the memory model that requests,
    instruction fetches and initialisation keep. *)
Definition warp_sound (w : WarpState) : Prop :=
  pc w mod 4 = 0 /\ 0 <= pc w /\ ws_thread_mask w = 4294967295.

Definition engine_sound (P : MemoryModel.t -> Prop) (e : t) : Prop :=
  Forall warp_sound (warp_states_ e)
  /\ P (memory_model_ e)
  /\ (length (simulation_trace_ e) <= TRACE_RESERVE_SIZE)%nat.

(** An event that fetches for an existing warp. *)
Definition fetch_event (n : nat) (ev : SimEvent) : Prop :=
  type ev = INSTRUCTION_FETCH
  /\ exists w, ev_data ev = Warp w /\ 0 <= w /\ (Z.to_nat w < n)%nat.

(** A simulation in which every warp is active and only fetches are
    queued. *)
Definition free_running (e : t) : Prop :=
  warp_states_ e <> []
  /\ Forall (fun w => active w = true /\ pc w mod 4 = 0 /\ 0 <= pc w) (warp_states_ e)
  /\ event_queue_ e <> []
  /\ Forall (fetch_event (length (warp_states_ e))) (event_queue_ e)
  /\ MemoryModel.well_formed (memory_model_ e).

End WithTarget.
End SimulationEngine.

(** ** dpi_wrapper.cpp *)

Module DPIWrapper.
Section WithTarget.
Context `{Target}.

Inductive DPIError :=
| SUCCESS | INVALID_ADDRESS | INVALID_WARP | INVALID_THREAD
| MEMORY_ERROR | SIMULATION_ERROR.

(** The exceptions thrown by the two validators. *)
Inductive exception :=
| invalid_argument_alignment      (* "Address must be 4-byte aligned" *)
| out_of_range_warp.              (* "Invalid warp ID" *)

Record MemoryTransactionDPI := {
  address : Z;
  data : Z;
  is_write : bool;
  size : Z;
  warp_id : Z;
  thread_mask : Z
}.

Record InstructionDPI := {
  i_pc : Z;
  i_instruction : Z;
  i_warp_id : Z;
  i_thread_mask : Z
}.

Record ConfigDPI := {
  num_warps : Z;
  threads_per_warp : Z;
  cache_size : Z;
  cache_line_size : Z;
  memory_latency : Z
}.

(** The singleton; the two [unique_ptr]s are set while [initialized_]. *)
Record t := {
  sim_engine_ : SimulationEngine.t;
  memory_model_ : MemoryModel.t;
  initialized_ : bool
}.

Definition initialize (c : ConfigDPI) : t :=
  let sc := {| SimulationEngine.num_warps := num_warps c;
               SimulationEngine.threads_per_warp := threads_per_warp c;
               SimulationEngine.cache_size := cache_size c;
               SimulationEngine.cache_line_size := cache_line_size c;
               SimulationEngine.memory_latency := memory_latency c |} in
  {| sim_engine_ := SimulationEngine.initialize (SimulationEngine.construct sc);
     memory_model_ :=
       MemoryModel.initialize
         (MemoryModel.construct (cache_size c) (cache_line_size c) (memory_latency c));
     initialized_ := true |}.

(** [None]: the validator returns; [Some x]: it throws [x]. *)
Definition validate_address (addr : Z) : option exception :=
  if negb (addr mod 4 =? 0) then Some invalid_argument_alignment else None.

Definition validate_warp_id (w : t) (wid : Z) : option exception :=
  if SimulationEngine.num_warps (SimulationEngine.config_ (sim_engine_ w)) <=? wid
  then Some out_of_range_warp else None.

Definition process_memory_request (w : t) (tr : MemoryTransactionDPI)
  : result (t * DPIError) :=
  if negb (initialized_ w) then Ok (w, SIMULATION_ERROR)
  else
    match validate_address (address tr) with
    | Some _ => Ok (w, MEMORY_ERROR)
    | None =>
        match validate_warp_id w (warp_id tr) with
        | Some _ => Ok (w, MEMORY_ERROR)
        | None =>
            do p <- MemoryModel.process_request (memory_model_ w) (address tr)
                      (data tr) (is_write tr) ;
            let eng := sim_engine_ w in
            let eng' :=
              if negb (is_write tr) then
                SimulationEngine.schedule_event eng SimulationEngine.MEMORY_RESPONSE
                  (wrap64 (p.2 - SimulationEngine.current_time_ eng))
                  (SimulationEngine.Transaction
                     {| SimulationEngine.address := address tr;
                        SimulationEngine.data := data tr;
                        SimulationEngine.is_write := false;
                        SimulationEngine.size := size tr;
                        SimulationEngine.warp_id := warp_id tr;
                        SimulationEngine.thread_mask := thread_mask tr |})
              else eng in
            Ok ({| sim_engine_ := eng'; memory_model_ := p.1;
                   initialized_ := initialized_ w |}, SUCCESS)
        end
    end.

Definition process_instruction (st : SimulationEngine.statics) (w : t)
    (ins : InstructionDPI) : result (SimulationEngine.statics * t * DPIError) :=
  if negb (initialized_ w) then Ok (st, w, SIMULATION_ERROR)
  else
    match validate_warp_id w (i_warp_id ins) with
    | Some _ => Ok (st, w, SIMULATION_ERROR)
    | None =>
        do r <- SimulationEngine.instruction_complete_callback st (sim_engine_ w)
                  (i_warp_id ins) (i_pc ins) (i_instruction ins) ;
        Ok (r.1, {| sim_engine_ := r.2; memory_model_ := memory_model_ w;
                    initialized_ := initialized_ w |}, SUCCESS)
    end.

(** An access is naturally aligned when its address is a multiple of its
    size (1, 2 or 4 bytes). *)
Definition naturally_aligned (addr sz : Z) : Prop := addr mod sz = 0.

End WithTarget.
End DPIWrapper.

(* ================================================================== *)
(** * Properties *)
(* ================================================================== *)

Create HintDb fails.

Section AtomicUnitProperties.
Import AtomicUnit.

Lemma perform_atomic_op_table o pre d c :
  perform_atomic_op o pre d c = f_op o pre d c.
Proof.
  destruct o; simpl; unfold wrap32, wrap; try reflexivity.
  - destruct (Z.ltb_spec pre d); lia.
  - rewrite Z.gtb_ltb. destruct (Z.ltb_spec d pre); lia.
  - destruct (Z.eqb_spec pre c), (decide (pre = c)); congruence.
Qed.

Lemma sys_run_app cs1 cs2 sm :
  sys_run (cs1 ++ cs2) sm = sys_run cs2 (sys_run cs1 sm).
Proof. apply fold_left_app. Qed.

(** Cycles in which the unit waits leave the unit and the memory alone. *)
Lemma sys_run_wait (f : cycle -> cycle) (k : list cycle) sm :
  (forall c, sys_step sm (f c) = sm) -> sys_run (map f k) sm = sm.
Proof.
  intros Hw. induction k as [|c k IH]; simpl; [reflexivity|].
  rewrite Hw. exact IH.
Qed.

Lemma wait_read_mem s m c :
  current_state s = READ_MEM -> mem_request_valid s = false ->
  sys_step (s, m) (with_ready false c) = (s, m).
Proof.
  intros Hs Hv. unfold sys_step, step. simpl. rewrite Hs, Hv.
  rewrite andb_false_r. reflexivity.
Qed.

Lemma wait_compute s m c :
  current_state s = COMPUTE -> mem_write_en s = false ->
  sys_step (s, m) (with_response false c) = (s, m).
Proof. intros Hs Hv. unfold sys_step, step. simpl. rewrite Hs. reflexivity. Qed.

Lemma wait_write_mem s m c :
  current_state s = WRITE_MEM -> mem_request_valid s = false ->
  sys_step (s, m) (with_ready false c) = (s, m).
Proof.
  intros Hs Hv. unfold sys_step, step. simpl. rewrite Hs, Hv.
  rewrite andb_false_r. reflexivity.
Qed.

Lemma wait_respond s m c :
  current_state s = RESPOND ->
  sys_step (s, m) (with_response false c) = (s, m).
Proof. intros Hs. unfold sys_step, step. simpl. rewrite Hs. reflexivity. Qed.

(** From READ_MEM to the response: the four memory phases of the request
    in flight. *)
Lemma memory_phases_rmw s m k1 c1 k2 c2 k3 c3 k4 c4 :
  current_state s = READ_MEM -> mem_request_valid s = false ->
  let r := current_req s in
  let pre := read_word m (address r) in
  exists s',
    sys_run (memory_phases k1 c1 k2 c2 k3 c3 k4 c4) (s, m)
    = (s', <[address r := f_op (op r) pre (data r) (compare_data r)]> m)
    /\ current_state s' = IDLE /\ resp_valid s' = true
    /\ resp_data s' = pre
    /\ resp_warp_id s' = warp_id r /\ resp_lane_id s' = lane_id r
    /\ mem_request_valid s' = false
    /\ pending_reqs s' = pending_reqs s
    /\ address_valid s'
       = remove_address_slots (address_valid s) (active_addresses s) (address r)
    /\ active_addresses s' = active_addresses s.
Proof.
  intros Hs Hv r pre. subst r pre. destruct s; cbn in Hs, Hv; subst.
  unfold memory_phases. cbn [app].
  rewrite sys_run_app, sys_run_wait by (intros; apply wait_read_mem; reflexivity).
  change (sys_run (?c :: ?cs) ?sm) with (sys_run cs (sys_step sm c)).
  unfold sys_step at 1. rewrite andb_false_r. cbn -[sys_run f_op].
  rewrite sys_run_app, sys_run_wait by (intros; apply wait_compute; reflexivity).
  change (sys_run (?c :: ?cs) ?sm) with (sys_run cs (sys_step sm c)).
  unfold sys_step at 1. rewrite andb_false_r. cbn -[sys_run f_op].
  rewrite sys_run_app, sys_run_wait by (intros; apply wait_write_mem; reflexivity).
  change (sys_run (?c :: ?cs) ?sm) with (sys_run cs (sys_step sm c)).
  unfold sys_step at 1. rewrite andb_false_r. cbn -[sys_run f_op].
  rewrite sys_run_app, sys_run_wait by (intros; apply wait_respond; reflexivity).
  cbn -[f_op]. rewrite perform_atomic_op_table.
  eexists. split; [reflexivity|]. cbn. repeat split; reflexivity.
Qed.

Lemma add_remove_no_contention vs addrs a :
  check_contention_slots vs addrs a = false ->
  check_contention_slots
    (remove_address_slots (add_address_slots vs addrs a).1
       (add_address_slots vs addrs a).2 a)
    (add_address_slots vs addrs a).2 a = false.
Proof.
  revert addrs. induction vs as [|v vs IH]; intros [|x addrs] Hc;
    try reflexivity.
  cbn in Hc |- *. destruct v; cbn in Hc |- *.
  - destruct (x =? a) eqn:Hx; [discriminate|].
    specialize (IH addrs Hc).
    destruct (add_address_slots vs addrs a) as [vs' addrs'].
    cbn in IH |- *. rewrite Hx. cbn. rewrite Hx. exact IH.
  - rewrite Z.eqb_refl. cbn. exact Hc.
Qed.

(** A request accepted in IDLE, followed through its memory phases. *)
Lemma transaction_rmw s m o a d c w l c0 k1 c1 k2 c2 k3 c3 k4 c4 :
  current_state s = IDLE ->
  (length (pending_reqs s) < MAX_PENDING_REQS)%nat ->
  check_contention s a = false ->
  mem_request_valid s = false ->
  let pre := read_word m a in
  exists s',
    sys_run (transaction (mk_request o a d c w l) c0 k1 c1 k2 c2 k3 c3 k4 c4) (s, m)
    = (s', <[a := f_op o pre d c]> m)
    /\ current_state s' = IDLE /\ resp_valid s' = true
    /\ resp_data s' = pre /\ resp_warp_id s' = w /\ resp_lane_id s' = l
    /\ mem_request_valid s' = false
    /\ pending_reqs s' = pending_reqs s
    /\ check_contention s' a = false.
Proof.
  intros Hs Hq Hc Hv pre. unfold transaction.
  change (sys_run (?c :: ?cs) ?sm) with (sys_run cs (sys_step sm c)).
  assert (E0 : sys_step (s, m) (present (mk_request o a d c w l) c0)
               = (start_request (mk_request o a d c w l) (pending_reqs s) s, m)).
  { unfold sys_step. rewrite Hv, andb_false_r.
    unfold step. cbn. rewrite Hs. unfold req_ready. rewrite Hs.
    apply Nat.ltb_lt in Hq. rewrite Hq. cbn. rewrite Hc. reflexivity. }
  rewrite E0. clear E0.
  set (s0 := start_request _ _ s).
  assert (Hs0 : current_state s0 = READ_MEM /\ mem_request_valid s0 = false
                /\ current_req s0 = mk_request o a d c w l
                /\ pending_reqs s0 = pending_reqs s
                /\ address_valid s0
                   = (add_address_slots (address_valid s) (active_addresses s) a).1
                /\ active_addresses s0
                   = (add_address_slots (address_valid s) (active_addresses s) a).2).
  { unfold s0, start_request. cbn.
    destruct (add_address_slots _ _ _) as [vs addrs]. cbn. auto 10. }
  destruct Hs0 as (H1 & H2 & H3 & H4 & H5 & H6).
  destruct (memory_phases_rmw s0 m k1 c1 k2 c2 k3 c3 k4 c4 H1 H2)
    as (s' & Hrun & Hst & Hrv & Hrd & Hw & Hl & Hmv & Hp & Hav & Haa).
  rewrite H3 in *. cbn in *.
  exists s'. split; [exact Hrun|]. repeat split; try assumption; try congruence.
  unfold check_contention. rewrite Hav, Haa, H5, H6.
  apply add_remove_no_contention. exact Hc.
Qed.

Lemma no_slot_valid_no_contention vs addrs a :
  no_slot_valid vs -> check_contention_slots vs addrs a = false.
Proof.
  intros Hv. revert addrs. induction Hv as [|v vs Hv0 Hv IH]; intros [|x addrs];
    try reflexivity.
  subst v. simpl. apply IH.
Qed.

Lemma add_remove_no_slot_valid vs addrs a :
  no_slot_valid vs ->
  no_slot_valid (remove_address_slots (add_address_slots vs addrs a).1
                   (add_address_slots vs addrs a).2 a).
Proof.
  intros Hv. destruct Hv as [|v vs Hv0 Hv]; [destruct addrs; constructor|].
  subst v. destruct addrs as [|x addrs]; simpl.
  - constructor; [reflexivity|exact Hv].
  - rewrite Z.eqb_refl. simpl. constructor; [reflexivity|exact Hv].
Qed.

Lemma settled_start_request s r :
  pending_reqs s = [] -> no_slot_valid (address_valid s) ->
  mem_request_valid s = false ->
  settled (start_request r (pending_reqs s) s).
Proof.
  intros Hp Hv Hm. unfold settled, start_request.
  destruct (add_address_slots (address_valid s) (active_addresses s) (address r))
    as [vs addrs] eqn:Ha.
  cbn. split; [exact Hp|]. split; [|exact Hm].
  exists (address_valid s), (active_addresses s). cbn. rewrite Ha. auto.
Qed.

(** A clock edge without reset keeps the unit settled. *)
Lemma settled_step s i : settled s -> rst_n i = true -> settled (step s i).
Proof.
  intros [Hp Hs] Hr. unfold step. rewrite Hr. cbn [negb].
  destruct (current_state s) eqn:Hst.
  - destruct Hs as [Hv Hm].
    destruct (req_valid i && req_ready s).
    + unfold check_contention.
      rewrite (no_slot_valid_no_contention _ _ _ Hv).
      apply settled_start_request; assumption.
    + rewrite Hp. unfold settled. cbn. auto.
  - destruct Hs as [Hv Hm]. destruct (mem_ready i).
    + unfold settled. cbn. auto.
    + unfold settled. rewrite Hst. auto.
  - destruct (mem_response_valid i).
    + unfold settled. cbn. auto.
    + unfold settled. rewrite Hst. auto.
  - destruct Hs as [Hv Hm]. destruct (mem_ready i).
    + unfold settled. cbn. auto.
    + unfold settled. rewrite Hst. auto.
  - destruct (mem_response_valid i).
    + unfold settled. cbn. split; [exact Hp|]. split; [|reflexivity].
      destruct Hs as (vs0 & addrs0 & Hv0 & -> & ->).
      apply add_remove_no_slot_valid. exact Hv0.
    + unfold settled. rewrite Hst. auto.
Qed.

Lemma settled_sys_run cs : forall s m,
  settled s -> settled (sys_run (map running cs) (s, m)).1.
Proof.
  induction cs as [|c cs IH]; intros s m Hs; [exact Hs|].
  cbn [map sys_run fold_left]. unfold sys_step at 2.
  apply IH. apply settled_step; [exact Hs|reflexivity].
Qed.

(** C1: at any point of an execution (any cycles without reset after a start
    with the memory port idle), when the unit is IDLE and a request
    [(op, a, d, c)] is presented, it is accepted; the value returned to the
    requester is the word stored at [a] before the operation, and afterwards
    [a] holds [f_op op pre d c] (the specification's table) and every other
    address is unchanged, whatever the memory's handshake timing. *)
Theorem atomic_rmw_preimage s0 m0 cs o a d c w l c0 k1 c1 k2 c2 k3 c3 k4 c4 :
  settled s0 ->
  let s := (sys_run (map running cs) (s0, m0)).1 in
  let m := (sys_run (map running cs) (s0, m0)).2 in
  current_state s = IDLE ->
  let pre := read_word m a in
  let tr := transaction (mk_request o a d c w l) c0 k1 c1 k2 c2 k3 c3 k4 c4 in
  let s' := (sys_run tr (s, m)).1 in
  let m' := (sys_run tr (s, m)).2 in
  current_state s' = IDLE /\ resp_valid s' = true
  /\ resp_data s' = pre /\ resp_warp_id s' = w /\ resp_lane_id s' = l
  /\ read_word m' a = f_op o pre d c
  /\ (forall a', a' <> a -> read_word m' a' = read_word m a').
Proof.
  intros H0 s m Hs pre tr s' m'.
  pose proof (settled_sys_run cs s0 m0 H0) as [Hp Hset]. fold s in Hp, Hset.
  rewrite Hs in Hset. destruct Hset as [Hv Hm].
  assert (Hq : (length (pending_reqs s) < MAX_PENDING_REQS)%nat)
    by (rewrite Hp; cbv; lia).
  assert (Hc : check_contention s a = false)
    by (apply no_slot_valid_no_contention; exact Hv).
  destruct (transaction_rmw s m o a d c w l c0 k1 c1 k2 c2 k3 c3 k4 c4 Hs Hq Hc Hm)
    as (s1 & Hrun & Hst & Hrv & Hrd & Hw & Hl & _).
  subst s' m' tr. rewrite Hrun. cbn [fst snd].
  repeat split; try assumption.
  - unfold read_word. rewrite lookup_insert_eq. reflexivity.
  - intros a' Ha. unfold read_word. rewrite lookup_insert_ne by congruence.
    reflexivity.
Qed.

Lemma atomic_rmw_preimage_witness :
  let c := {| c_rst_n := true; c_req := None; c_resp_ready := true;
              c_mem_ready := true; c_mem_response_valid := true |} in
  let before := transaction (mk_request ATOMIC_ADD 64 2 0 1 1) c [] c [] c [] c [] c in
  let tr := transaction (mk_request ATOMIC_MAX 64 9 0 3 5) c [c; c] c [] c [c] c [c] c in
  let sm := sys_run (map running before) (power_on, {[ 64 := 5 ]}) in
  let s' := (sys_run tr (sm.1, sm.2)).1 in
  let m' := (sys_run tr (sm.1, sm.2)).2 in
  settled power_on /\ current_state sm.1 = IDLE /\ read_word sm.2 64 = 7
  /\ resp_valid s' = true /\ resp_data s' = 7 /\ read_word m' 64 = 9.
Proof.
  intros c before tr sm s' m'.
  assert (H0 : settled power_on).
  { split; [reflexivity|]. split; [|reflexivity].
    unfold no_slot_valid. apply Forall_forall. intros v Hv.
    apply list_elem_of_In, repeat_spec in Hv. exact Hv. }
  assert (Hidle : current_state sm.1 = IDLE) by (vm_compute; reflexivity).
  assert (Hpre : read_word sm.2 64 = 7) by (vm_compute; reflexivity).
  pose proof (atomic_rmw_preimage power_on {[ 64 := 5 ]} before ATOMIC_MAX 64 9 0 3 5
                c [c; c] c [] c [c] c [c] c H0 Hidle)
    as (_ & Hv & Hd & _ & _ & Hm & _).
  fold sm in Hv, Hd, Hm. fold tr in Hv, Hd, Hm. rewrite Hpre in Hd, Hm.
  split; [exact H0|]. split; [exact Hidle|]. split; [exact Hpre|].
  split; [exact Hv|]. split; [exact Hd|]. exact Hm.
Defined.

(** C9: [atomic.add(a, x)] followed by [atomic.sub(a, x)] leaves the word at
    [a] as it was before the pair; the first returns [pre] and the second
    [pre + x] modulo 2^32. *)
Theorem atomic_add_sub_roundtrip s m a x w l w' l'
    c0 k1 c1 k2 c2 k3 c3 k4 c4 d0 j1 d1 j2 d2 j3 d3 j4 d4 :
  settled s ->
  current_state s = IDLE ->
  word32 (read_word m a) ->
  let pre := read_word m a in
  let add := transaction (mk_request ATOMIC_ADD a x 0 w l) c0 k1 c1 k2 c2 k3 c3 k4 c4 in
  let sub := transaction (mk_request ATOMIC_SUB a x 0 w' l') d0 j1 d1 j2 d2 j3 d3 j4 d4 in
  let s1 := (sys_run add (s, m)).1 in
  let s2 := (sys_run (add ++ sub) (s, m)).1 in
  let m2 := (sys_run (add ++ sub) (s, m)).2 in
  resp_valid s1 = true /\ resp_data s1 = pre
  /\ resp_valid s2 = true /\ resp_data s2 = (pre + x) mod 2 ^ 32
  /\ read_word m2 a = pre
  /\ (forall a', a' <> a -> read_word m2 a' = read_word m a').
Proof.
  intros [Hp Hset] Hs Hw32 pre add sub s1 s2 m2.
  rewrite Hs in Hset. destruct Hset as [Hnv Hv].
  assert (Hq : (length (pending_reqs s) < MAX_PENDING_REQS)%nat)
    by (rewrite Hp; cbv; lia).
  assert (Hc : check_contention s a = false)
    by (apply no_slot_valid_no_contention; exact Hnv).
  destruct (transaction_rmw s m ATOMIC_ADD a x 0 w l c0 k1 c1 k2 c2 k3 c3 k4 c4
              Hs Hq Hc Hv)
    as (t1 & Hrun1 & Hst1 & Hrv1 & Hrd1 & _ & _ & Hmv1 & Hp1 & Hc1).
  rewrite <- Hp1 in Hq.
  destruct (transaction_rmw t1 (<[a := f_op ATOMIC_ADD (read_word m a) x 0]> m)
              ATOMIC_SUB a x 0 w' l' d0 j1 d1 j2 d2 j3 d3 j4 d4 Hst1 Hq Hc1 Hmv1)
    as (t2 & Hrun2 & Hst2 & Hrv2 & Hrd2 & _).
  assert (Hmid : read_word (<[a := f_op ATOMIC_ADD (read_word m a) x 0]> m) a
                 = (pre + x) mod 2 ^ 32).
  { unfold read_word at 1. rewrite lookup_insert_eq. reflexivity. }
  subst s1 s2 m2 add sub. rewrite sys_run_app, Hrun1, Hrun2. cbn [fst snd].
  rewrite Hmid in *. cbn [f_op] in *.
  assert (Hback : ((pre + x) mod 2 ^ 32 - x) mod 2 ^ 32 = pre).
  { rewrite Zminus_mod_idemp_l. replace (pre + x - x) with pre by lia.
    apply Z.mod_small. exact Hw32. }
  repeat split; try assumption.
  - unfold read_word at 1. rewrite lookup_insert_eq. cbn. exact Hback.
  - intros a' Ha. unfold read_word.
    rewrite !lookup_insert_ne by congruence. reflexivity.
Qed.

Lemma atomic_add_sub_roundtrip_witness :
  let c := {| c_rst_n := true; c_req := None; c_resp_ready := true;
              c_mem_ready := true; c_mem_response_valid := true |} in
  let add := transaction (mk_request ATOMIC_ADD 64 4294967295 0 0 0) c [] c [c] c [] c [] c in
  let sub := transaction (mk_request ATOMIC_SUB 64 4294967295 0 0 1) c [c] c [] c [] c [] c in
  settled power_on /\ word32 (read_word {[ 64 := 7 ]} 64)
  /\ resp_data (sys_run add (power_on, {[ 64 := 7 ]})).1 = 7
  /\ resp_data (sys_run (add ++ sub) (power_on, {[ 64 := 7 ]})).1 = 6
  /\ read_word (sys_run (add ++ sub) (power_on, {[ 64 := 7 ]})).2 64 = 7.
Proof.
  intros c add sub.
  assert (H0 : settled power_on).
  { split; [reflexivity|]. split; [|reflexivity].
    unfold no_slot_valid. apply Forall_forall. intros v Hv.
    apply list_elem_of_In, repeat_spec in Hv. exact Hv. }
  assert (Hw : word32 (read_word {[ 64 := 7 ]} 64)).
  { unfold word32. vm_compute. split; [discriminate|reflexivity]. }
  assert (Hpre : read_word {[ 64 := 7 ]} 64 = 7) by (vm_compute; reflexivity).
  pose proof (atomic_add_sub_roundtrip power_on {[ 64 := 7 ]} 64 4294967295 0 0 0 1
                c [] c [c] c [] c [] c c [c] c [] c [] c [] c H0 eq_refl Hw)
    as (_ & H1 & _ & H2 & H3 & _).
  fold add in H1, H2, H3. fold sub in H2, H3. rewrite Hpre in H1, H2, H3.
  split; [exact H0|]. split; [exact Hw|].
  split; [exact H1|]. split; [exact H2|]. exact H3.
Defined.

End AtomicUnitProperties.

Section BarrierControllerProperties.
Import BarrierController.

Lemma nth_tabulate {A} (f : nat -> A) (d : A) (i : nat) :
  (i < MAX_BARRIERS)%nat -> nth i (tabulate f) d = f i.
Proof.
  intros Hi. unfold tabulate.
  rewrite (nth_indep _ d (f 0%nat)) by (rewrite length_map, length_seq; exact Hi).
  rewrite map_nth, seq_nth by exact Hi. reflexivity.
Qed.

Lemma nth_tabulate_out {A} (f : nat -> A) (d : A) (i : nat) :
  (MAX_BARRIERS <= i)%nat -> nth i (tabulate f) d = d.
Proof.
  intros Hi. apply nth_overflow. unfold tabulate.
  rewrite length_map, length_seq. exact Hi.
Qed.

Lemma find_first_some p n k :
  find_first p n = Some k -> p k = true /\ (k < n)%nat.
Proof.
  induction n as [|n IH]; simpl; [discriminate|].
  destruct (find_first p n) as [j|].
  - intros [= <-]. destruct (IH eq_refl). split; [assumption|lia].
  - destruct (p n) eqn:Hp; [|discriminate].
    intros [= <-]. split; [assumption|lia].
Qed.

Lemma last_below_some p n k :
  last_below p n = Some k -> p k = true /\ (k < n)%nat.
Proof.
  induction n as [|n IH]; simpl; [discriminate|].
  destruct (p n) eqn:Hp.
  - intros [= <-]. split; [assumption|lia].
  - intros H. destruct (IH H). split; [assumption|lia].
Qed.

Lemma is_barrier_complete_iff s k :
  is_barrier_complete s k = true <->
  arrived_warps (entry s k) = expected_warps (entry s k)
  /\ expected_warps (entry s k) <> 0.
Proof.
  unfold is_barrier_complete.
  rewrite andb_true_iff, negb_true_iff, Z.eqb_eq, Z.eqb_neq. reflexivity.
Qed.

(** Setting an in-range bit keeps the mask within its width. *)
Lemma set_warp_bit_range m w :
  0 <= m < 2 ^ WARPS_PER_BLOCK -> 0 <= set_warp_bit m w < 2 ^ WARPS_PER_BLOCK.
Proof.
  intros Hm. unfold set_warp_bit, in_block.
  destruct (0 <=? w) eqn:H0; [|exact Hm].
  destruct (w <? WARPS_PER_BLOCK) eqn:H1; [|exact Hm]. cbn [andb].
  apply Z.leb_le in H0. apply Z.ltb_lt in H1.
  assert (E : Z.land (Z.setbit m w) (Z.ones WARPS_PER_BLOCK) = Z.setbit m w).
  { apply Z.bits_inj'. intros n Hn.
    rewrite Z.land_spec, Z.testbit_ones_nonneg by (unfold WARPS_PER_BLOCK; lia).
    destruct (Z.ltb_spec n WARPS_PER_BLOCK) as [Hlt|Hge].
    - apply andb_true_r.
    - rewrite andb_false_r, Z.setbit_eqb by exact H0.
      destruct (Z.eqb_spec w n) as [->|_]; [lia|]. cbn [orb].
      symmetry. apply Z.testbit_false; [exact Hn|].
      rewrite Z.div_small; [reflexivity|].
      split; [lia|]. apply Z.lt_le_trans with (2 ^ WARPS_PER_BLOCK); [lia|].
      apply Z.pow_le_mono_r; lia. }
  rewrite Z.land_ones in E by (unfold WARPS_PER_BLOCK; lia).
  rewrite <- E. apply Z.mod_pos_bound. unfold WARPS_PER_BLOCK. lia.
Qed.

Lemma entry_shape_subset e :
  entry_shape e -> mask_subset (arrived_warps e) (expected_warps e).
Proof.
  unfold mask_subset. intros [[-> Hr]|(-> & -> & _)]; [|reflexivity].
  unfold all_warps. rewrite Z.land_ones by (unfold WARPS_PER_BLOCK; lia).
  apply Z.mod_small. exact Hr.
Qed.

Lemma fsm_entry_shape s x i :
  entry_shape (entry s i) -> entry_shape (fsm_entry s x i).
Proof.
  unfold fsm_entry, entry_shape.
  destruct (collecting s i); [cbn; tauto|].
  destruct (acked s x i || errored s i); cbn; tauto.
Qed.

Lemma fsm_entry_masks s x i :
  expected_warps (fsm_entry s x i) = expected_warps (entry s i)
  /\ arrived_warps (fsm_entry s x i) = arrived_warps (entry s i).
Proof.
  unfold fsm_entry. destruct (collecting s i); [cbn; tauto|].
  destruct (acked s x i || errored s i); cbn; tauto.
Qed.

Lemma classify_existing s x k :
  classify s x = Existing k ->
  arrive_valid x = true /\ arrive_ready s = true
  /\ find_barrier s (arrive_barrier_id x) (arrive_block_id x) = Some k.
Proof.
  unfold classify.
  destruct (arrive_valid x); [|discriminate].
  destruct (arrive_ready s); [|discriminate]. cbn [andb].
  destruct (find_barrier _ _ _) as [j|].
  - intros [= <-]. auto.
  - destruct (find_free_barrier s); discriminate.
Qed.

Lemma find_barrier_active s bid blk k :
  find_barrier s bid blk = Some k -> active (entry s k) = true.
Proof.
  intros H. apply find_first_some in H as [H _].
  rewrite !andb_true_iff in H. tauto.
Qed.

Lemma step_entry_shape s x :
  (forall i, entry_shape (entry s i)) ->
  forall i, entry_shape (entry (step s x) i).
Proof.
  intros Hs i. unfold step.
  destruct (rst_n x); cbn [negb].
  - unfold entry at 1. cbn [barrier_table].
    destruct (Nat.lt_ge_cases i MAX_BARRIERS) as [Hi|Hi].
    2:{ rewrite nth_tabulate_out by exact Hi. right. cbn. auto. }
    rewrite nth_tabulate by exact Hi.
    pose proof (fsm_entry_shape s x i (Hs i)) as Hf.
    destruct (fsm_entry_masks s x i) as [He Ha].
    unfold arrive_entry.
    destruct (classify s x) as [|k|k|] eqn:Hc; try exact Hf.
    + destruct (Nat.eqb_spec i k) as [->|_]; [|exact Hf].
      apply classify_existing in Hc as (_ & _ & Hfind).
      apply find_barrier_active in Hfind.
      destruct (Hs k) as [[Hex Hr]|(_ & _ & Hact)]; [|congruence].
      left. cbn. split; [congruence|].
      apply set_warp_bit_range. rewrite Ha. exact Hr.
    + destruct (Nat.eqb_spec i k) as [->|_]; [|exact Hf].
      left. cbn. split; [reflexivity|].
      apply set_warp_bit_range. unfold WARPS_PER_BLOCK. lia.
  - unfold reset, entry at 1. cbn [barrier_table].
    destruct (Nat.lt_ge_cases i MAX_BARRIERS) as [Hi|Hi].
    + rewrite nth_tabulate by exact Hi. right. cbn. auto.
    + rewrite nth_tabulate_out by exact Hi. right. cbn. auto.
Qed.

Lemma reset_entry_shape s i : entry_shape (entry (reset s) i).
Proof.
  unfold reset, entry at 1. cbn [barrier_table].
  destruct (Nat.lt_ge_cases i MAX_BARRIERS) as [Hi|Hi].
  - rewrite nth_tabulate by exact Hi. right. cbn. auto.
  - rewrite nth_tabulate_out by exact Hi. right. cbn. auto.
Qed.

Lemma run_entry_shape xs : forall s,
  (forall i, entry_shape (entry s i)) ->
  forall i, entry_shape (entry (run s xs) i).
Proof.
  induction xs as [|x xs IH]; intros s Hs; [exact Hs|].
  cbn. apply IH. apply step_entry_shape. exact Hs.
Qed.

Lemma last_below_never p n :
  (forall k, (k < n)%nat -> p k = false) -> last_below p n = None.
Proof.
  induction n as [|n IH]; intros Hp; simpl; [reflexivity|].
  rewrite (Hp n) by lia. apply IH. intros k Hk. apply Hp. lia.
Qed.

Lemma state_of_settled s i :
  Forall (fun st => st = IDLE \/ st = RELEASING) (barrier_states s) ->
  state_of s i = IDLE \/ state_of s i = RELEASING.
Proof.
  intros Hs. unfold state_of.
  destruct (Nat.lt_ge_cases i (length (barrier_states s))) as [Hi|Hi].
  - apply Forall_nth; assumption.
  - rewrite nth_overflow by exact Hi. left. reflexivity.
Qed.

(** With no entry COLLECTING and no arrival, the edge latches no release
    and an entry that is RELEASING stays so until the output names it. *)
Lemma release_lost_quiet s r : release_lost s -> release_lost (step s (quiet r)).
Proof.
  intros (Hb & Hbn & Hst & Hf & Ha & Hid & Hblk & Harr & Hexp & H0).
  assert (Hsrc : release_source s (quiet r) = None).
  { unfold release_source, classify. cbn [quiet arrive_valid andb arrival_releases].
    apply last_below_never. intros k _. unfold completes, collecting.
    destruct (state_of_settled s k Hst) as [-> | ->]; rewrite andb_false_r; reflexivity. }
  assert (Hack : acked s (quiet r) 0 = false).
  { unfold acked, release_acknowledged. rewrite Hb, Hblk. cbn [Z.eqb].
    rewrite !andb_false_r. reflexivity. }
  assert (Hc : collecting s 0 = false)
    by (unfold collecting; rewrite H0; apply andb_false_r).
  assert (He : errored s 0 = false)
    by (unfold errored; rewrite H0; apply andb_false_r).
  assert (Hentry : entry (step s (quiet r)) 0 = entry s 0).
  { unfold step. cbn [quiet rst_n negb]. unfold entry at 1. cbn [barrier_table].
    rewrite nth_tabulate by (unfold MAX_BARRIERS; lia).
    unfold classify. cbn [arrive_valid andb arrive_entry].
    unfold fsm_entry. fold (quiet r). rewrite Hc, Hack, He. reflexivity. }
  unfold release_lost. rewrite Hentry.
  unfold step. cbn [quiet rst_n negb]. fold (quiet r). rewrite Hsrc.
  cbn [release_block_id release_block_id_next barrier_states].
  split; [exact Hbn|]. split; [exact Hbn|].
  split.
  { unfold tabulate. apply Forall_map, Forall_forall. intros i _.
    unfold classify. cbn [quiet arrive_valid andb]. unfold fsm_state.
    destruct (tracked s i); [|apply state_of_settled; exact Hst].
    destruct (state_of_settled s i Hst) as [-> | ->]; [left; reflexivity|].
    destruct (release_acknowledged _ _ _); [left|right]; reflexivity. }
  split.
  { unfold free at 1. cbn [barrier_free].
    rewrite nth_tabulate by (unfold MAX_BARRIERS; lia).
    unfold classify. cbn [quiet arrive_valid andb]. unfold fsm_free.
    fold (quiet r). rewrite Hack, He. exact Hf. }
  split; [exact Ha|]. split; [exact Hid|]. split; [exact Hblk|].
  split; [exact Harr|]. split; [exact Hexp|].
  unfold state_of at 1. cbn [barrier_states].
  rewrite nth_tabulate by (unfold MAX_BARRIERS; lia).
  unfold classify. cbn [quiet arrive_valid andb]. unfold fsm_state, tracked.
  rewrite Hf, Ha, H0. cbn [negb andb]. unfold release_acknowledged.
  rewrite Hb, Hblk. cbn [Z.eqb]. rewrite !andb_false_r. reflexivity.
Qed.

Lemma release_lost_run rs : forall s,
  release_lost s -> release_lost (run s (map quiet rs)).
Proof.
  induction rs as [|r rs IH]; intros s Hs; [exact Hs|].
  cbn. apply IH, release_lost_quiet. exact Hs.
Qed.

Lemma barrier_run_app s xs ys : run s (xs ++ ys) = run (run s xs) ys.
Proof. apply fold_left_app. Qed.

Lemma second_arrival_release_lost : release_lost (run (reset power_on) second_arrival).
Proof.
  unfold release_lost.
  split; [vm_compute; reflexivity|]. split; [vm_compute; reflexivity|].
  split.
  { vm_compute.
    repeat (constructor; [first [left; reflexivity|right; reflexivity]|]).
    constructor. }
  repeat (split; [vm_compute; reflexivity|]). vm_compute. reflexivity.
Qed.

(** C2: a barrier whose every warp has arrived and which gets no release.
    The warps of block 1 and of block 0 arrive at their barriers 0, the
    last warp of block 1 one clock edge after the last warp of block 0,
    and on the next edge warp 0 of block 0 arrives once more.  At that
    edge the loop over the entries finds the entry of block 1 complete
    and writes its identity to the release registers; the arrival branch
    finds the entry of block 0 complete and writes to the same registers
    after it.  Block 0 is named by two release events in a row.  The
    entry of block 1 is allocated, active and has its arrived mask equal
    to its non-zero expected mask, and at no point of the execution,
    however long the controller is left alone afterwards and whether the
    scheduler takes releases or not, does a release event name block 1. *)
Theorem barrier_release_lost (rs : list bool) :
  let xs := second_arrival ++ map quiet rs in
  (forall n, let s := run (reset power_on) (firstn n xs) in
             release_valid s = true -> release_block_id s = 0)
  /\ (let s := run (reset power_on) xs in
      free s 0 = false /\ active (entry s 0) = true
      /\ barrier_id (entry s 0) = 0 /\ block_id (entry s 0) = 1
      /\ arrived_warps (entry s 0) = expected_warps (entry s 0)
      /\ expected_warps (entry s 0) <> 0)
  /\ (let s := run (reset power_on) second_arrival in
      release_valid s = true /\ release_valid_next s = true
      /\ release_block_id s = 0 /\ release_block_id_next s = 0).
Proof.
  intros xs. split; [|split].
  - intros n s Hv.
    destruct (Nat.le_gt_cases (length second_arrival) n) as [Hn|Hn].
    + unfold s, xs. rewrite firstn_app, firstn_all2 by exact Hn.
      rewrite firstn_map, barrier_run_app.
      apply (release_lost_run _ _ second_arrival_release_lost).
    + unfold s, xs in *. rewrite firstn_app in *.
      replace (n - length second_arrival)%nat with 0%nat in * by lia.
      cbn [firstn] in *. rewrite app_nil_r in *.
      assert (Hall : forallb (fun k =>
                implb (release_valid (run (reset power_on) (firstn k second_arrival)))
                      (release_block_id (run (reset power_on) (firstn k second_arrival))
                       =? 0))
                (seq 0 (length second_arrival)) = true) by (vm_compute; reflexivity).
      rewrite forallb_forall in Hall.
      specialize (Hall n ltac:(apply in_seq; lia)).
      rewrite Hv in Hall. apply Z.eqb_eq. exact Hall.
  - intros s. unfold s, xs. rewrite barrier_run_app.
    destruct (release_lost_run rs _ second_arrival_release_lost)
      as (_ & _ & _ & Hf & Ha & Hid & Hblk & Harr & Hexp & _).
    split; [exact Hf|]. split; [exact Ha|]. split; [exact Hid|].
    split; [exact Hblk|]. split; [congruence|].
    rewrite Hexp. vm_compute. discriminate.
  - vm_compute. repeat split; reflexivity.
Qed.

(** X24: at every point of an execution after reset, the arrived mask of
    every entry is a subset of its expected mask. *)
Theorem arrived_subset_of_expected (s0 : state) (xs : list inputs) (k : nat) :
  let s := run (reset s0) xs in
  mask_subset (arrived_warps (entry s k)) (expected_warps (entry s k)).
Proof.
  intros s. apply entry_shape_subset.
  apply run_entry_shape. apply reset_entry_shape.
Qed.

End BarrierControllerProperties.

Section RegisterFileProperties.
Import RegisterFile.

Lemma rs_data_zero s w : rs_data s 0 w = repeat (Some 0) THREADS_PER_WARP.
Proof. reflexivity. Qed.

(** A write to register [r] leaves every other register's storage alone. *)
Lemma stored_write_other s x w r t :
  rst_n x = true -> r <> rd_addr x ->
  stored (step s x) w r t = stored s w r t.
Proof.
  intros Hr Hne. unfold step. rewrite Hr. cbn [negb].
  unfold stored. cbn [register_file].
  destruct (rd_write_en x); [|reflexivity].
  destruct (decide (w = rd_warp_id x)) as [->|Hw].
  - rewrite list_lookup_alter_eq.
    destruct (register_file s !! rd_warp_id x) as [regs|]; [|reflexivity].
    cbn. rewrite list_lookup_alter_ne by congruence. reflexivity.
  - rewrite list_lookup_alter_ne by congruence. reflexivity.
Qed.

(** C3 (as the register file behaves): a read of register 0 returns 0 on
    every lane in every state; a write naming register 0 changes nothing
    that either read port can return, but it does set the busy bit of
    register 0 of the written warp, as a write to any register does. *)
Theorem zero_register_read_and_write (s : state) (x : inputs) :
  (forall w, rs_data s 0 w = repeat (Some 0) THREADS_PER_WARP)
  /\ (rst_n x = true -> rd_addr x = 0%nat ->
      forall addr w, rs_data (step s x) addr w = rs_data s addr w)
  /\ (rst_n x = true -> rd_addr x = 0%nat -> rd_write_en x = true ->
      clear_busy_en x = false ->
      register_busy (step s x)
      = alter (fun v => Z.setbit v 0) (rd_warp_id x) (register_busy s)).
Proof.
  split; [intros w; apply rs_data_zero|]. split.
  - intros Hr H0 addr w. unfold rs_data.
    apply map_ext. intros t.
    destruct (Nat.eqb_spec addr 0) as [_|Hne]; [reflexivity|].
    rewrite stored_write_other by (assumption || congruence). reflexivity.
  - intros Hr H0 Hw Hc. unfold step. rewrite Hr, Hw, Hc, H0. reflexivity.
Qed.

Lemma zero_register_read_and_write_witness :
  let x := write 3 0 (repeat 7 32) in
  rs_data (step reset_state x) 0 3 = repeat (Some 0) THREADS_PER_WARP
  /\ rs_data (step reset_state x) 5 3 = rs_data reset_state 5 3
  /\ busy (step reset_state x) 3 0 = Some true.
Proof.
  intros x.
  destruct (zero_register_read_and_write reset_state x) as (_ & H2 & H3).
  destruct (zero_register_read_and_write (step reset_state x) x) as (H1 & _).
  split; [apply H1|]. split; [apply H2; reflexivity|].
  unfold busy. rewrite H3 by reflexivity. reflexivity.
Defined.

(** C3 as stated fails: after reset, a write naming register 0 of warp 0 is
    not discarded by the scoreboard; the busy bit of (warp 0, register 0)
    goes from clear to set. *)
Lemma zero_register_write_counterexample :
  let x := write 0 0 (repeat 7 32) in
  rd_addr x = 0%nat
  /\ busy reset_state 0 0 = Some false
  /\ busy (step reset_state x) 0 0 = Some true
  /\ register_busy (step reset_state x) <> register_busy reset_state.
Proof.
  intros x. repeat split; try reflexivity.
  vm_compute. discriminate.
Qed.

End RegisterFileProperties.

Section MemoryModelProperties.
Context `{Target}.
Import MemoryModel.

(** *** Victim selection *)

Lemma first_invalid_some ws k i :
  first_invalid ws k = Some i ->
  exists j l, i = (k + j)%nat /\ ws !! j = Some l /\ valid l = false
              /\ forall j' l', (j' < j)%nat -> ws !! j' = Some l' -> valid l' = true.
Proof.
  revert k. induction ws as [|w ws IH]; intros k; simpl; [discriminate|].
  destruct (valid w) eqn:Hv; simpl.
  - intros Hf. destruct (IH _ Hf) as (j & l & -> & Hl & Hlv & Hbefore).
    exists (S j), l. repeat split; [lia|exact Hl|exact Hlv|].
    intros [|j'] l' Hj' Hl'; simpl in Hl'.
    + congruence.
    + apply (Hbefore j'); [lia|exact Hl'].
  - intros [= <-]. exists 0%nat, w. repeat split; [lia|exact Hv|].
    intros j' l' Hj'. lia.
Qed.

Lemma first_invalid_none ws k :
  first_invalid ws k = None -> forall j l, ws !! j = Some l -> valid l = true.
Proof.
  revert k. induction ws as [|w ws IH]; intros k; simpl.
  - intros _ j l Hl. destruct j; discriminate.
  - destruct (valid w) eqn:Hv; simpl; [|discriminate].
    intros Hf [|j] l Hl; simpl in Hl; [congruence|]. eapply IH; eassumption.
Qed.

(** The scan keeps the earliest way of least [last_access] seen so far. *)
Lemma lru_scan_spec ws : forall pre lw lt,
  (exists l, pre !! lw = Some l /\ last_access l = lt) ->
  (forall j l', pre !! j = Some l' -> lt <= last_access l') ->
  (forall j l', (j < lw)%nat -> pre !! j = Some l' -> lt < last_access l') ->
  exists l, (pre ++ ws) !! lru_scan ws (length pre) lw lt = Some l
    /\ (forall j l', (pre ++ ws) !! j = Some l' -> last_access l <= last_access l')
    /\ (forall j l', (j < lru_scan ws (length pre) lw lt)%nat ->
                     (pre ++ ws) !! j = Some l' -> last_access l < last_access l').
Proof.
  induction ws as [|w ws IH]; intros pre lw lt (l & Hl & Hlt) Hmin Hfirst.
  - simpl. rewrite app_nil_r. exists l. subst lt. auto.
  - simpl.
    replace (pre ++ w :: ws) with ((pre ++ [w]) ++ ws)
      by (rewrite <- app_assoc; reflexivity).
    replace (S (length pre)) with (length (pre ++ [w]))
      by (rewrite length_app; simpl; lia).
    destruct (Z.ltb_spec (last_access w) lt) as [Hlt'|Hge].
    + apply IH.
      * exists w. split; [|reflexivity].
        rewrite lookup_app_r by lia. rewrite Nat.sub_diag. reflexivity.
      * intros j l' Hj.
        destruct (Nat.lt_ge_cases j (length pre)) as [Hin|Hout].
        -- rewrite lookup_app_l in Hj by exact Hin. specialize (Hmin _ _ Hj). lia.
        -- rewrite lookup_app_r in Hj by exact Hout.
           destruct (j - length pre)%nat; simpl in Hj; [|destruct n; discriminate].
           injection Hj as <-. lia.
      * intros j l' Hj Hl'. rewrite lookup_app_l in Hl' by exact Hj.
        specialize (Hmin _ _ Hl'). lia.
    + apply IH.
      * exists l. split; [|exact Hlt].
        rewrite lookup_app_l; [exact Hl|]. apply lookup_lt_Some in Hl. exact Hl.
      * intros j l' Hj.
        destruct (Nat.lt_ge_cases j (length pre)) as [Hin|Hout].
        -- rewrite lookup_app_l in Hj by exact Hin. eapply Hmin; eassumption.
        -- rewrite lookup_app_r in Hj by exact Hout.
           destruct (j - length pre)%nat; simpl in Hj; [|destruct n; discriminate].
           injection Hj as <-. lia.
      * intros j l' Hj Hl'.
        assert (j < length pre)%nat
          by (apply lookup_lt_Some in Hl; lia).
        rewrite lookup_app_l in Hl' by assumption. eapply Hfirst; eassumption.
Qed.

Lemma select_victim_spec (st : CacheSet) :
  ways st <> [] ->
  exists v l,
    select_victim st = Ok v /\ ways st !! v = Some l
    /\ ((valid l = false
         /\ forall j l', (j < v)%nat -> ways st !! j = Some l' -> valid l' = true)
        \/ ((forall j l', ways st !! j = Some l' -> valid l' = true)
            /\ (forall j l', ways st !! j = Some l' -> last_access l <= last_access l')
            /\ (forall j l', (j < v)%nat -> ways st !! j = Some l' ->
                             last_access l < last_access l'))).
Proof.
  intros Hne. unfold select_victim.
  destruct (first_invalid (ways st) 0) as [i|] eqn:Hf.
  - destruct (first_invalid_some _ _ _ Hf) as (j & l & -> & Hl & Hv & Hbefore).
    exists j, l. simpl. split; [reflexivity|]. split; [exact Hl|]. left. auto.
  - pose proof (first_invalid_none _ _ Hf) as Hall.
    destruct (ways st) as [|w0 ws] eqn:Hw; [congruence|].
    destruct (lru_scan_spec ws [w0] 0%nat (last_access w0)) as (l & Hl & Hmin & Hfirst).
    + exists w0. auto.
    + intros [|j] l' Hj; simpl in Hj; [|destruct j; discriminate].
      injection Hj as <-. lia.
    + intros j l' Hj. lia.
    + exists (lru_scan ws 1 0 (last_access w0)), l.
      split; [reflexivity|]. split; [exact Hl|]. right. auto.
Qed.

(** C4: the victim is the first way that is not valid; when every way is
    valid it is a way of least [last_access], and the lowest-numbered such
    way. *)
Theorem select_victim_policy (st : CacheSet) :
  ways st <> [] ->
  exists v l,
    select_victim st = Ok v /\ ways st !! v = Some l
    /\ ((valid l = false
         /\ forall j l', (j < v)%nat -> ways st !! j = Some l' -> valid l' = true)
        \/ ((forall j l', ways st !! j = Some l' -> valid l' = true)
            /\ (forall j l', ways st !! j = Some l' -> last_access l <= last_access l')
            /\ (forall j l', (j < v)%nat -> ways st !! j = Some l' ->
                             last_access l < last_access l'))).
Proof.
  intros Hne. destruct (select_victim_spec st Hne) as (v & l & Hv & Hl & Hcases).
  exists v, l. split; [exact Hv|]. split; [exact Hl|]. exact Hcases.
Qed.

Lemma select_victim_policy_witness :
  let line := fun v t => {| tag := 0; data := []; valid := v; dirty := false;
                            last_access := t |} in
  let st := {| ways := [line true 7; line true 3; line true 9; line true 3] |} in
  select_victim st = Ok 1%nat
  /\ exists v l,
       select_victim st = Ok v /\ ways st !! v = Some l
       /\ ((valid l = false
            /\ forall j l', (j < v)%nat -> ways st !! j = Some l' -> valid l' = true)
           \/ ((forall j l', ways st !! j = Some l' -> valid l' = true)
               /\ (forall j l', ways st !! j = Some l' ->
                                last_access l <= last_access l')
               /\ (forall j l', (j < v)%nat -> ways st !! j = Some l' ->
                                last_access l < last_access l'))).
Proof.
  intros line st. split; [reflexivity|].
  apply (select_victim_policy st). discriminate.
Defined.

(** *** The result monad *)

Lemma bind_ok {A B} (r : result A) (k : A -> result B) y :
  bind r k = Ok y -> exists x, r = Ok x /\ k x = Ok y.
Proof. destruct r; simpl; [eauto|discriminate]. Qed.

Lemma of_option_ok {A} (o : option A) x : of_option o = Ok x -> o = Some x.
Proof. destruct o; simpl; congruence. Qed.

Lemma bind_fails {A B} (r : result A) (k : A -> result B) :
  fails_only_out_of_range r -> (forall x, fails_only_out_of_range (k x)) ->
  fails_only_out_of_range (bind r k).
Proof.
  unfold fails_only_out_of_range. intros Hr Hk f.
  destruct r as [x|f0]; simpl; [apply Hk|].
  intros [= <-]. apply Hr. reflexivity.
Qed.

Lemma of_option_fails {A} (o : option A) : fails_only_out_of_range (of_option o).
Proof. destruct o; intros f; simpl; congruence. Qed.

Lemma ok_fails {A} (a : A) : fails_only_out_of_range (Ok a).
Proof. intros f. discriminate. Qed.

Lemma out_of_range_fails {A} : fails_only_out_of_range (@Fail A Out_of_range).
Proof. intros f. congruence. Qed.

#[local] Hint Resolve bind_fails of_option_fails ok_fails out_of_range_fails : fails.

Lemma select_victim_fails st : fails_only_out_of_range (select_victim st).
Proof.
  unfold select_victim. destruct (first_invalid _ _); [auto with fails|].
  destruct (ways st); auto with fails.
Qed.

Lemma refill_fails n : forall mm base ds i,
  fails_only_out_of_range (refill mm base ds i n).
Proof.
  induction n as [|n IH]; intros mm base ds i; simpl; [auto with fails|].
  destruct (mem_read _ _) as [v mm'].
  destruct (i <? length ds)%nat; auto with fails.
Qed.

Lemma hit_line_fails l now word d w :
  fails_only_out_of_range (hit_line l now word d w).
Proof. unfold hit_line. destruct (_ <? _)%nat; auto with fails. Qed.

#[local] Hint Resolve select_victim_fails refill_fails hit_line_fails : fails.

(** *** Lines *)

Lemma find_hit_some ws tg k i :
  find_hit ws tg k = Some i ->
  exists j l, i = (k + j)%nat /\ ws !! j = Some l /\ valid l = true /\ tag l = tg.
Proof.
  revert k. induction ws as [|w ws IH]; intros k; simpl; [discriminate|].
  destruct (valid w && (tag w =? tg)) eqn:Hw.
  - intros [= <-]. apply andb_true_iff in Hw as [Hv Ht]. apply Z.eqb_eq in Ht.
    exists 0%nat, w. repeat split; auto; lia.
  - intros Hf. destruct (IH _ Hf) as (j & l & -> & Hl & Hv & Ht).
    exists (S j), l. repeat split; auto; lia.
Qed.

Lemma set_way_consistent sets si wi l :
  Forall (fun st => Forall line_consistent (ways st)) sets ->
  line_consistent l ->
  Forall (fun st => Forall line_consistent (ways st)) (set_way sets si wi l).
Proof.
  intros Hs Hl. unfold set_way. apply Forall_alter; [exact Hs|].
  intros st _ Hst. simpl. apply Forall_insert; assumption.
Qed.

Lemma mark_dirty_consistent tg l : line_consistent l -> line_consistent (mark_dirty tg l).
Proof.
  unfold mark_dirty, line_consistent.
  destruct (valid l && (tag l =? tg)) eqn:Hv; [|tauto].
  apply andb_true_iff in Hv as [Hv _]. simpl. auto.
Qed.

Lemma handle_coherence_consistent c sets a :
  Forall (fun st => Forall line_consistent (ways st)) sets ->
  Forall (fun st => Forall line_consistent (ways st)) (handle_coherence c sets a).
Proof.
  intros Hs. unfold handle_coherence. apply Forall_fmap.
  eapply Forall_impl; [exact Hs|]. intros st Hst. simpl.
  apply Forall_fmap. eapply Forall_impl; [exact Hst|].
  intros l. apply mark_dirty_consistent.
Qed.

(** *** [process_request] *)

Lemma process_request_ok m a d w m' now :
  process_request m a d w = Ok (m', now) ->
  a mod 4 = 0
  /\ one_access (stats_ m) (stats_ m')
  /\ (lines_consistent m -> lines_consistent m').
Proof.
  unfold process_request.
  destruct (check_alignment a 4) eqn:Hal; simpl; [|discriminate].
  apply Z.eqb_eq in Hal. intros Hr.
  apply bind_ok in Hr as (st & Hst & Hr). apply of_option_ok in Hst.
  apply bind_ok in Hr as ([[sets' mm'] stats3] & Hbranch & Hr).
  injection Hr as <- <-. simpl.
  split; [exact Hal|].
  set (stats2 := count_lookup (count_access (stats_ m) w) _) in *.
  assert (Hb : same_counts stats2 stats3
               /\ (lines_consistent m ->
                   Forall (fun st => Forall line_consistent (ways st)) sets')).
  { destruct (find_hit (ways st) _ 0) as [hit_way|] eqn:Hhit.
    - apply bind_ok in Hbranch as (line & Hline & Hbranch).
      apply of_option_ok in Hline.
      apply bind_ok in Hbranch as (line' & Hline' & Hbranch).
      injection Hbranch as <- <- <-.
      split; [repeat split|].
      intros Hc. apply set_way_consistent; [exact Hc|].
      destruct (find_hit_some _ _ _ _ Hhit) as (j & l & -> & Hl & Hv & _).
      simpl in Hline. rewrite Hl in Hline. injection Hline as <-.
      unfold hit_line in Hline'.
      destruct (_ <? _)%nat; [|discriminate]. injection Hline' as <-.
      left. exact Hv.
    - apply bind_ok in Hbranch as (victim_way & _ & Hbranch).
      apply bind_ok in Hbranch as (victim & _ & Hbranch).
      apply bind_ok in Hbranch as ([ds mm2] & _ & Hbranch).
      destruct (_ <? length ds)%nat; [|discriminate].
      injection Hbranch as <- <- <-.
      split.
      + destruct (valid victim && dirty victim); repeat split.
      + intros Hc. apply set_way_consistent; [exact Hc|]. left. reflexivity. }
  destruct Hb as [(Hr1 & Hr2 & Hr3 & Hr4) Hlines].
  split.
  - exists w, (bool_decide (is_Some (find_hit (ways st) (get_tag (config_ m)
                                                      (translate_address a)) 0))).
    rewrite Hr1, Hr2, Hr3, Hr4. subst stats2. simpl.
    destruct w; auto.
  - intros Hc. unfold lines_consistent. simpl.
    apply handle_coherence_consistent. apply Hlines. exact Hc.
Qed.

Lemma process_request_fail m a d w f :
  process_request m a d w = Fail f ->
  (f = Assert_aligned /\ a mod 4 <> 0) \/ (f = Out_of_range /\ a mod 4 = 0).
Proof.
  unfold process_request.
  destruct (check_alignment a 4) eqn:Hal; simpl.
  - apply Z.eqb_eq in Hal. intros Hf. right. split; [|exact Hal].
    revert f Hf.
    match goal with
    | |- forall f, ?r = Fail f -> _ => change (fails_only_out_of_range r)
    end.
    apply bind_fails; [auto with fails|]. intros st.
    apply bind_fails.
    + destruct (find_hit _ _ _).
      * auto 6 with fails.
      * apply bind_fails; [auto with fails|]. intros vw.
        apply bind_fails; [auto with fails|]. intros v.
        apply bind_fails; [auto with fails|]. intros [ds mm2].
        destruct (_ <? _)%nat; auto with fails.
    + intros [[? ?] ?]. auto with fails.
  - apply Z.eqb_neq in Hal. intros [= <-]. left. auto.
Qed.

(** *** The other operations *)

Lemma Forall_repeat {A} (P : A -> Prop) x n : P x -> Forall P (repeat x n).
Proof. intros Hx. induction n; simpl; constructor; assumption. Qed.

Lemma construct_consistent cs ls lat : lines_consistent (construct cs ls lat).
Proof.
  unfold lines_consistent, construct. cbn [sets_].
  apply Forall_repeat. unfold new_set. cbn [ways].
  apply Forall_repeat. right. reflexivity.
Qed.

Lemma initialize_consistent m : lines_consistent (initialize m).
Proof.
  unfold lines_consistent, initialize. simpl.
  apply Forall_fmap, Forall_forall. intros st _. simpl.
  apply Forall_fmap, Forall_forall. intros l _. right. reflexivity.
Qed.

Lemma update_ways_consistent tg word d now ws : forall ws',
  Forall line_consistent ws ->
  update_ways ws tg word d now = Ok (Some ws') ->
  Forall line_consistent ws'.
Proof.
  induction ws as [|w ws IH]; intros ws' Hc; simpl; [discriminate|].
  apply Forall_cons in Hc as [Hw Hc].
  destruct (valid w && (tag w =? tg)) eqn:Hv.
  - destruct (_ <? _)%nat; [|discriminate]. intros [= <-].
    apply andb_true_iff in Hv as [Hv _].
    constructor; [left; exact Hv|exact Hc].
  - intros Hr. apply bind_ok in Hr as ([ws1|] & Hr1 & Hr2); [|discriminate].
    injection Hr2 as <-. constructor; [exact Hw|]. apply IH; assumption.
Qed.

Lemma invalidate_ways_consistent c si tg ws : forall mm,
  Forall line_consistent ws ->
  Forall line_consistent (invalidate_ways c si tg ws mm).1.
Proof.
  induction ws as [|w ws IH]; intros mm Hc; simpl; [constructor|].
  apply Forall_cons in Hc as [Hw Hc].
  destruct (valid w && (tag w =? tg)).
  - match goal with
    | |- context [invalidate_ways c si tg ws ?mm1] =>
        specialize (IH mm1 Hc); destruct (invalidate_ways c si tg ws mm1)
    end.
    simpl in *. constructor; [right; reflexivity|exact IH].
  - specialize (IH mm Hc). destruct (invalidate_ways c si tg ws mm).
    simpl in *. constructor; assumption.
Qed.

Lemma sets_lookup_consistent m i st :
  lines_consistent m -> sets_ m !! i = Some st -> Forall line_consistent (ways st).
Proof.
  intros Hc Hl. exact (Forall_lookup_1 _ _ _ _ Hc Hl).
Qed.

(** What one operation does to the counters and to the lines. *)
Lemma apply_ok m o m' :
  apply m o = Ok m' ->
  (same_counts (stats_ m) (stats_ m') \/ one_access (stats_ m) (stats_ m')
   \/ stats_ m' = no_stats)
  /\ (lines_consistent m -> lines_consistent m').
Proof.
  destruct o as [|a d w|a|a|a d|a|si wi]; simpl; intros Hr.
  - injection Hr as <-. split; [auto|]. intros _. apply initialize_consistent.
  - apply bind_ok in Hr as ([m1 now] & Hp & Hr). injection Hr as <-.
    apply process_request_ok in Hp as (_ & Hs & Hl). simpl. auto.
  - apply bind_ok in Hr as ([m1 v] & Hp & Hr). injection Hr as <-. simpl.
    unfold read_instruction in Hp.
    apply bind_ok in Hp as (r & _ & Hp).
    destruct r as [v0|].
    + injection Hp as <- <-. split; [left; repeat split|auto].
    + apply bind_ok in Hp as ([m2 now] & Hp & Hq).
      apply bind_ok in Hq as (r' & _ & Hq). injection Hq as <- <-.
      apply process_request_ok in Hp as (_ & Hs & Hl). simpl. auto.
  - apply bind_ok in Hr as (r & _ & Hr). injection Hr as <-.
    split; [left; repeat split|auto].
  - unfold update_cache in Hr.
    apply bind_ok in Hr as (st & Hst & Hr). apply of_option_ok in Hst.
    apply bind_ok in Hr as (r & Hu & Hr).
    destruct r as [ws|].
    + injection Hr as <-. simpl. split; [left; repeat split|].
      intros Hc. unfold lines_consistent. simpl.
      apply Forall_insert; [exact Hc|]. simpl.
      eapply update_ways_consistent; [|exact Hu].
      eapply sets_lookup_consistent; eassumption.
    + apply bind_ok in Hr as ([m2 now] & Hp & Hr). injection Hr as <-.
      apply process_request_ok in Hp as (_ & Hs & Hl). simpl. auto.
  - unfold invalidate_cache_line in Hr.
    apply bind_ok in Hr as (st & Hst & Hr). apply of_option_ok in Hst.
    pose proof (invalidate_ways_consistent (config_ m)
                  (get_set_index (config_ m) a) (get_tag (config_ m) a)
                  (ways st) (main_memory_ m)) as Hi.
    destruct (invalidate_ways _ _ _ _ _) as [ws mm].
    injection Hr as <-. simpl. split; [left; repeat split|].
    intros Hc. unfold lines_consistent. simpl.
    apply Forall_insert; [exact Hc|]. simpl. apply Hi.
    eapply sets_lookup_consistent; eassumption.
  - unfold evict_cache_line in Hr.
    destruct (si <? _); simpl in Hr; [|discriminate].
    destruct (wi <? _); simpl in Hr; [|discriminate].
    apply bind_ok in Hr as (st & _ & Hr).
    apply bind_ok in Hr as (line & _ & Hr).
    injection Hr as <-. simpl. split; [left; repeat split|].
    intros Hc. apply set_way_consistent; [exact Hc|]. right. reflexivity.
Qed.

(** *** Counters *)

Lemma wrap64_incr_l a b : wrap64 (incr a + b) = wrap64 (wrap64 (a + b) + 1).
Proof.
  unfold incr, wrap64, wrap.
  rewrite Zplus_mod_idemp_l, (Zplus_mod_idemp_l (a + b)). f_equal. lia.
Qed.

Lemma wrap64_incr_r a b : wrap64 (a + incr b) = wrap64 (wrap64 (a + b) + 1).
Proof. rewrite Z.add_comm, wrap64_incr_l, (Z.add_comm b a). reflexivity. Qed.

Lemma stats_consistent_step s s' :
  stats_consistent s ->
  same_counts s s' \/ one_access s s' \/ s' = no_stats ->
  stats_consistent s'.
Proof.
  unfold stats_consistent.
  intros Hs [(-> & -> & -> & ->)|[(w & hit & -> & -> & -> & ->)| ->]];
    [exact Hs| |reflexivity].
  destruct w, hit; rewrite ?wrap64_incr_l, ?wrap64_incr_r, Hs; reflexivity.
Qed.

Lemma counts_exact_step s s' k :
  counts_exact s k -> k + 1 < 2 ^ 64 ->
  same_counts s s' \/ one_access s s' \/ s' = no_stats ->
  counts_exact s' (k + 1).
Proof.
  unfold counts_exact.
  intros (Hr & Hw & Hh & Hm & He & Hk) Hlt
         [(-> & -> & -> & ->)|[(w & hit & -> & -> & -> & ->)| ->]].
  - lia.
  - assert (Hi : forall x, 0 <= x <= k -> incr x = x + 1).
    { intros x Hx. unfold incr, wrap64, wrap. apply Z.mod_small. lia. }
    destruct w, hit; rewrite ?Hi by lia; lia.
  - simpl. lia.
Qed.

Lemma apply_all_stats os : forall m m',
  stats_consistent (stats_ m) ->
  apply_all m os = Ok m' -> stats_consistent (stats_ m').
Proof.
  induction os as [|o os IH]; intros m m' Hs; simpl.
  - intros [= <-]. exact Hs.
  - intros Hr. apply bind_ok in Hr as (m1 & Ho & Hr).
    apply (IH m1); [|exact Hr].
    eapply stats_consistent_step; [exact Hs|]. apply (apply_ok _ _ _ Ho).
Qed.

Lemma apply_all_exact os : forall m m' k,
  counts_exact (stats_ m) k -> k + Z.of_nat (length os) < 2 ^ 64 ->
  apply_all m os = Ok m' ->
  counts_exact (stats_ m') (k + Z.of_nat (length os)).
Proof.
  induction os as [|o os IH]; intros m m' k Hs Hk; simpl.
  - intros [= <-]. rewrite Z.add_0_r. exact Hs.
  - intros Hr. apply bind_ok in Hr as (m1 & Ho & Hr).
    simpl length in Hk.
    replace (k + Z.of_nat (S (length os))) with ((k + 1) + Z.of_nat (length os)) by lia.
    apply (IH m1); [|lia|exact Hr].
    eapply counts_exact_step; [exact Hs|lia|]. apply (apply_ok _ _ _ Ho).
Qed.

Lemma apply_all_consistent os : forall m m',
  lines_consistent m -> apply_all m os = Ok m' -> lines_consistent m'.
Proof.
  induction os as [|o os IH]; intros m m' Hc; simpl.
  - intros [= <-]. exact Hc.
  - intros Hr. apply bind_ok in Hr as (m1 & Ho & Hr).
    apply (IH m1); [|exact Hr]. apply (apply_ok _ _ _ Ho). exact Hc.
Qed.

(** C5: after every sequence of operations on a cache, hits + misses =
    reads + writes: in the 64-bit arithmetic in which [verify_state]
    checks it, and exactly as long as fewer than 2^64 operations were
    made. *)
Theorem stats_hits_plus_misses (cs ls lat : Z) (os : list operation) (m' : t) :
  apply_all (construct cs ls lat) os = Ok m' ->
  stats_consistent (stats_ m')
  /\ (Z.of_nat (length os) < 2 ^ 64 ->
      hits (stats_ m') + misses (stats_ m') = reads (stats_ m') + writes (stats_ m')).
Proof.
  intros Hr. split.
  - eapply apply_all_stats; [|exact Hr]. reflexivity.
  - intros Hlen.
    assert (H0 : counts_exact (stats_ (construct cs ls lat)) 0)
      by (unfold counts_exact; simpl; lia).
    pose proof (apply_all_exact os _ _ 0 H0 Hlen Hr) as (_ & _ & _ & _ & He & _).
    exact He.
Qed.

(** C6: after construction and every sequence of operations
    (initialisation, hit, miss and refill, invalidation, eviction), every
    line of every set is valid or not dirty. *)
Theorem invalid_line_not_dirty (cs ls lat : Z) (os : list operation) (m' : t) :
  apply_all (construct cs ls lat) os = Ok m' ->
  forall st l, st ∈ sets_ m' -> l ∈ ways st -> valid l = true \/ dirty l = false.
Proof.
  intros Hr st l Hst Hl.
  assert (Hc : lines_consistent m').
  { eapply apply_all_consistent; [|exact Hr]. apply construct_consistent. }
  unfold lines_consistent in Hc.
  rewrite Forall_forall in Hc. specialize (Hc st Hst).
  rewrite Forall_forall in Hc. exact (Hc l Hl).
Qed.

(** *** Completion on a well-formed model *)

Lemma set_index_in_range m a :
  well_formed m -> 0 <= a ->
  (Z.to_nat (get_set_index (config_ m) a) < length (sets_ m))%nat.
Proof.
  intros (Hls & Hpow & Hm4 & Hns & Has & Hlen & _) Ha.
  rewrite Hlen. unfold get_set_index.
  assert (Hsb : 0 <= set_bits (config_ m)) by apply Z.log2_nonneg.
  rewrite Z.shiftl_1_l.
  replace (2 ^ set_bits (config_ m) - 1) with (Z.ones (set_bits (config_ m)))
    by (rewrite Z.ones_equiv; lia).
  rewrite Z.land_ones by exact Hsb.
  pose proof (Z.mod_pos_bound (Z.shiftr a (offset_bits (config_ m)))
                (2 ^ set_bits (config_ m)) ltac:(apply Z.pow_pos_nonneg; lia)) as Hb.
  pose proof (Z.log2_spec (num_sets (config_ m)) ltac:(lia)) as [Hlo _].
  unfold set_bits in *. lia.
Qed.

Lemma word_in_range m a :
  well_formed m -> 0 <= a ->
  (Z.to_nat (get_offset (config_ m) a / 4)
   < Z.to_nat (line_size (config_ m) / 4))%nat.
Proof.
  intros (Hls & Hpow & Hm4 & _) Ha. unfold get_offset.
  assert (Hob : 0 <= offset_bits (config_ m)) by apply Z.log2_nonneg.
  replace (wrap32 (line_size (config_ m) - 1)) with (Z.ones (offset_bits (config_ m))).
  2:{ rewrite Z.ones_equiv, <- Hpow. unfold wrap32, wrap. rewrite Z.mod_small; lia. }
  rewrite Z.land_ones by exact Hob. rewrite <- Hpow.
  pose proof (Z.mod_pos_bound a (line_size (config_ m)) ltac:(lia)) as Hb.
  pose proof (Z.div_mod (line_size (config_ m)) 4 ltac:(lia)) as Hd.
  assert ((a mod line_size (config_ m)) / 4 < line_size (config_ m) / 4)
    by (apply Z.div_lt_upper_bound; lia).
  assert (0 <= (a mod line_size (config_ m)) / 4) by (apply Z.div_pos; lia).
  lia.
Qed.

Lemma refill_total n : forall mm base ds i,
  (i + n <= length ds)%nat ->
  exists ds' mm', refill mm base ds i n = Ok (ds', mm') /\ length ds' = length ds.
Proof.
  induction n as [|n IH]; intros mm base ds i Hl; simpl; [eauto|].
  destruct (mem_read mm _) as [v mm'].
  destruct (Nat.ltb_spec i (length ds)); [|lia].
  destruct (IH mm' base (<[i := v]> ds) (S i)) as (ds' & mm2 & Hr & Hlen).
  { rewrite length_insert. lia. }
  exists ds', mm2. split; [exact Hr|]. rewrite Hlen. apply length_insert.
Qed.

Lemma set_way_shape c sets si wi l :
  Forall (set_shape c) sets -> line_shape c l ->
  Forall (set_shape c) (set_way sets si wi l).
Proof.
  intros Hs Hl. unfold set_way. apply Forall_alter; [exact Hs|].
  intros st _ [Hn Hst]. split; simpl.
  - rewrite length_insert. exact Hn.
  - apply Forall_insert; assumption.
Qed.

Lemma handle_coherence_shape c c' sets a :
  Forall (set_shape c) sets -> Forall (set_shape c) (handle_coherence c' sets a).
Proof.
  intros Hs. unfold handle_coherence. apply Forall_fmap.
  eapply Forall_impl; [exact Hs|]. intros st [Hn Hst]. split; simpl.
  - rewrite length_map. exact Hn.
  - apply Forall_fmap. eapply Forall_impl; [exact Hst|].
    intros l Hl. unfold line_shape, mark_dirty in *. simpl.
    destruct (valid l && _); exact Hl.
Qed.

Lemma process_request_total m a d w :
  well_formed m -> 0 <= a -> a mod 4 = 0 ->
  exists m' now,
    process_request m a d w = Ok (m', now)
    /\ well_formed m' /\ config_ m' = config_ m.
Proof.
  intros Hwf Ha Hal.
  pose proof (set_index_in_range m a Hwf Ha) as Hsi.
  pose proof (word_in_range m a Hwf Ha) as Hword.
  destruct Hwf as (Hls & Hpow & Hm4 & Hns & Has & Hlen & Hsets).
  unfold process_request, check_alignment, translate_address.
  rewrite Hal. cbn [Z.eqb negb].
  destruct (lookup_lt_is_Some_2 _ _ Hsi) as [st Hst]. rewrite Hst.
  cbn [of_option bind].
  pose proof (Forall_lookup_1 _ _ _ _ Hsets Hst) as [Hways Hlines].
  assert (Hwf' : forall sets' mm' st' now' hist',
             length sets' = length (sets_ m) -> Forall (set_shape (config_ m)) sets' ->
             well_formed {| config_ := config_ m;
                            sets_ := handle_coherence (config_ m) sets' a;
                            main_memory_ := mm'; stats_ := st';
                            current_cycle_ := now'; access_history_ := hist' |}).
  { intros sets' mm' st' now' hist' Hl' Hs'. unfold well_formed. cbn [config_ sets_].
    repeat split; try assumption; try lia.
    - unfold handle_coherence. rewrite length_map. congruence.
    - apply handle_coherence_shape. exact Hs'. }
  destruct (find_hit (ways st) _ 0) as [hw|] eqn:Hhit.
  - destruct (find_hit_some _ _ _ _ Hhit) as (j & l & -> & Hl & Hv & Ht).
    cbn [Nat.add]. rewrite Hl. cbn [of_option bind].
    pose proof (Forall_lookup_1 _ _ _ _ Hlines Hl) as Hdl. unfold line_shape in Hdl.
    unfold hit_line. rewrite <- Hdl in Hword. apply Nat.ltb_lt in Hword.
    rewrite Hword. cbn [bind].
    eexists _, _. split; [reflexivity|]. split; [|reflexivity].
    apply Hwf'.
    + unfold set_way. apply length_alter.
    + apply set_way_shape; [exact Hsets|]. unfold line_shape. cbn [data].
      destruct w; [rewrite length_insert|]; exact Hdl.
  - destruct (select_victim_spec st) as (v & l & Hv & Hl & _).
    { intros Hnil. rewrite Hnil in Hways. simpl in Hways. lia. }
    rewrite Hv. cbn [bind]. rewrite Hl. cbn [of_option bind].
    pose proof (Forall_lookup_1 _ _ _ _ Hlines Hl) as Hdl. unfold line_shape in Hdl.
    match goal with
    | |- context [refill ?mm ?base (data l) 0 ?n] =>
        destruct (refill_total n mm base (data l) 0) as (ds & mm2 & Hr & Hlds);
          [rewrite Hdl; lia|rewrite Hr]
    end.
    cbn [bind]. rewrite <- Hdl, <- Hlds in Hword. apply Nat.ltb_lt in Hword.
    rewrite Hword.
    eexists _, _. split; [reflexivity|]. split; [|reflexivity].
    apply Hwf'.
    + unfold set_way. apply length_alter.
    + apply set_way_shape; [exact Hsets|]. unfold line_shape. cbn [data].
      destruct w; [rewrite length_insert|]; congruence.
Qed.

Lemma lookup_ways_total c ws tg word :
  Forall (line_shape c) ws -> (word < Z.to_nat (line_size c / 4))%nat ->
  exists r, lookup_ways ws tg word = Ok r.
Proof.
  intros Hs Hw. induction Hs as [|l ws Hl Hs IH]; simpl; [eauto|].
  destruct (valid l && (tag l =? tg)); [|exact IH].
  unfold line_shape in Hl. rewrite <- Hl in Hw.
  destruct (lookup_lt_is_Some_2 _ _ Hw) as [v Hv]. rewrite Hv. simpl. eauto.
Qed.

Lemma lookup_cache_total m a :
  well_formed m -> 0 <= a -> exists r, lookup_cache m a = Ok r.
Proof.
  intros Hwf Ha.
  pose proof (set_index_in_range m a Hwf Ha) as Hsi.
  pose proof (word_in_range m a Hwf Ha) as Hword.
  destruct Hwf as (_ & _ & _ & _ & _ & _ & Hsets).
  unfold lookup_cache.
  destruct (lookup_lt_is_Some_2 _ _ Hsi) as [st Hst]. rewrite Hst.
  cbn [of_option bind].
  pose proof (Forall_lookup_1 _ _ _ _ Hsets Hst) as [_ Hlines].
  eapply lookup_ways_total; eassumption.
Qed.

Lemma read_instruction_total m a :
  well_formed m -> 0 <= a -> a mod 4 = 0 ->
  exists m' v, read_instruction m a = Ok (m', v)
               /\ well_formed m' /\ config_ m' = config_ m.
Proof.
  intros Hwf Ha Hal. unfold read_instruction.
  destruct (lookup_cache_total m a Hwf Ha) as [[v|] Hr]; rewrite Hr; cbn [bind].
  - eauto.
  - destruct (process_request_total m a 0 false Hwf Ha Hal)
      as (m1 & now & Hp & Hwf1 & Hc1).
    rewrite Hp. cbn [bind fst].
    destruct (lookup_cache_total m1 a Hwf1 Ha) as [r' Hr'].
    rewrite Hr'. cbn [bind]. eauto.
Qed.

Lemma update_ways_total c ws tg word d now :
  Forall (line_shape c) ws -> (word < Z.to_nat (line_size c / 4))%nat ->
  exists r, update_ways ws tg word d now = Ok r
            /\ forall ws', r = Some ws' ->
                           length ws' = length ws /\ Forall (line_shape c) ws'.
Proof.
  intros Hs Hw. induction Hs as [|l ws Hl Hs IH]; simpl.
  - eexists; split; [reflexivity|]. discriminate.
  - destruct (valid l && (tag l =? tg)).
    + unfold line_shape in Hl. rewrite <- Hl in Hw.
      pose proof Hw as Hw'. apply Nat.ltb_lt in Hw'. rewrite Hw'.
      eexists; split; [reflexivity|]. intros ws' [= <-]. split; [reflexivity|].
      constructor; [|exact Hs]. unfold line_shape. simpl.
      rewrite length_insert. exact Hl.
    + destruct IH as (r & Hr & Hshape). rewrite Hr. cbn [bind].
      eexists; split; [reflexivity|].
      destruct r as [ws1|]; simpl; [|discriminate].
      intros ws' [= <-]. destruct (Hshape ws1 eq_refl) as [Hlen Hf].
      split; [simpl; congruence|]. constructor; assumption.
Qed.

Lemma update_cache_total m a d :
  well_formed m -> 0 <= a -> a mod 4 = 0 ->
  exists m', update_cache m a d = Ok m' /\ well_formed m' /\ config_ m' = config_ m.
Proof.
  intros Hwf Ha Hal.
  pose proof (set_index_in_range m a Hwf Ha) as Hsi.
  pose proof (word_in_range m a Hwf Ha) as Hword.
  pose proof Hwf as (Hls & Hpow & Hm4 & Hns & Has & Hlen & Hsets).
  unfold update_cache.
  destruct (lookup_lt_is_Some_2 _ _ Hsi) as [st Hst]. rewrite Hst.
  cbn [of_option bind].
  pose proof (Forall_lookup_1 _ _ _ _ Hsets Hst) as [Hways Hlines].
  destruct (update_ways_total (config_ m) (ways st) (get_tag (config_ m) a)
              _ d (current_cycle_ m) Hlines Hword) as (r & Hr & Hshape).
  rewrite Hr. cbn [bind]. destruct r as [ws|].
  - destruct (Hshape ws eq_refl) as [Hl Hf].
    eexists. split; [reflexivity|]. split; [|reflexivity].
    unfold well_formed, set_sets. cbn [config_ sets_].
    repeat split; try assumption; try lia.
    + rewrite length_insert. exact Hlen.
    + apply Forall_insert; [exact Hsets|]. split; [cbn; congruence|exact Hf].
  - destruct (process_request_total m a d true Hwf Ha Hal)
      as (m1 & now & Hp & Hwf1 & Hc1).
    rewrite Hp. cbn [bind fst]. eauto.
Qed.

Lemma invalidate_ways_shape c c' si tg ws : forall mm,
  Forall (line_shape c) ws ->
  length (invalidate_ways c' si tg ws mm).1 = length ws
  /\ Forall (line_shape c) (invalidate_ways c' si tg ws mm).1.
Proof.
  induction ws as [|w ws IH]; intros mm Hs; simpl; [auto|].
  apply Forall_cons in Hs as [Hw Hs].
  destruct (valid w && (tag w =? tg)).
  - match goal with
    | |- context [invalidate_ways c' si tg ws ?mm1] =>
        specialize (IH mm1 Hs); destruct (invalidate_ways c' si tg ws mm1)
    end.
    simpl in *. destruct IH as [Hl Hf]. split; [congruence|].
    constructor; [exact Hw|exact Hf].
  - specialize (IH mm Hs). destruct (invalidate_ways c' si tg ws mm).
    simpl in *. destruct IH as [Hl Hf]. split; [congruence|].
    constructor; assumption.
Qed.

Lemma invalidate_cache_line_total m a :
  well_formed m -> 0 <= a ->
  exists m', invalidate_cache_line m a = Ok m'
             /\ well_formed m' /\ config_ m' = config_ m.
Proof.
  intros Hwf Ha.
  pose proof (set_index_in_range m a Hwf Ha) as Hsi.
  pose proof Hwf as (Hls & Hpow & Hm4 & Hns & Has & Hlen & Hsets).
  unfold invalidate_cache_line.
  destruct (lookup_lt_is_Some_2 _ _ Hsi) as [st Hst]. rewrite Hst.
  cbn [of_option bind].
  pose proof (Forall_lookup_1 _ _ _ _ Hsets Hst) as [Hways Hlines].
  pose proof (invalidate_ways_shape (config_ m) (config_ m)
                (get_set_index (config_ m) a) (get_tag (config_ m) a) (ways st)
                (main_memory_ m) Hlines) as [Hl Hf].
  destruct (invalidate_ways _ _ _ _ _) as [ws mm]. cbn [fst] in Hl, Hf.
  eexists. split; [reflexivity|]. split; [|reflexivity].
  unfold well_formed. cbn [config_ sets_].
  repeat split; try assumption; try lia.
  - rewrite length_insert. exact Hlen.
  - apply Forall_insert; [exact Hsets|]. split; [cbn; congruence|exact Hf].
Qed.

Lemma evict_cache_line_total m si wi :
  well_formed m ->
  0 <= si < num_sets (config_ m) -> 0 <= wi < associativity (config_ m) ->
  exists m', evict_cache_line m si wi = Ok m'
             /\ well_formed m' /\ config_ m' = config_ m.
Proof.
  intros Hwf Hsi Hwi.
  pose proof Hwf as (Hls & Hpow & Hm4 & Hns & Has & Hlen & Hsets).
  unfold evict_cache_line.
  assert (H1 : (si <? Z.of_nat (length (sets_ m))) = true)
    by (apply Z.ltb_lt; rewrite Hlen; lia).
  assert (H2 : (wi <? associativity (config_ m)) = true) by (apply Z.ltb_lt; lia).
  rewrite H1, H2. cbn [negb].
  destruct (lookup_lt_is_Some_2 (sets_ m) (Z.to_nat si)) as [st Hst]; [lia|].
  rewrite Hst. cbn [of_option bind].
  pose proof (Forall_lookup_1 _ _ _ _ Hsets Hst) as [Hways Hlines].
  destruct (lookup_lt_is_Some_2 (ways st) (Z.to_nat wi)) as [l Hl]; [lia|].
  rewrite Hl. cbn [of_option bind].
  pose proof (Forall_lookup_1 _ _ _ _ Hlines Hl) as Hdl.
  eexists. split; [reflexivity|]. split; [|reflexivity].
  unfold well_formed. cbn [config_ sets_].
  repeat split; try assumption; try lia.
  - unfold set_way. rewrite length_alter. exact Hlen.
  - apply set_way_shape; [exact Hsets|]. exact Hdl.
Qed.

Lemma initialize_well_formed m : well_formed m -> well_formed (initialize m).
Proof.
  intros (Hls & Hpow & Hm4 & Hns & Has & Hlen & Hsets).
  unfold well_formed, initialize. cbn [config_ sets_].
  repeat split; try assumption; try lia.
  - rewrite length_map. exact Hlen.
  - apply Forall_fmap. eapply Forall_impl; [exact Hsets|].
    intros st [Hn Hst]. split; simpl.
    + rewrite length_map. exact Hn.
    + apply Forall_fmap. eapply Forall_impl; [exact Hst|].
      intros l Hl. unfold line_shape in *. simpl. rewrite length_map. exact Hl.
Qed.

Lemma construct_well_formed cs ls lat :
  4 <= ls < 2 ^ 32 -> ls = 2 ^ Z.log2 ls -> ls mod 4 = 0 ->
  1 <= cs / wrap32 (ls * 8) ->
  well_formed (construct cs ls lat).
Proof.
  intros Hls Hpow Hm4 Hns. unfold well_formed, construct, num_sets, offset_bits.
  cbn [config_ sets_ line_size total_size associativity].
  repeat split; try assumption; try lia.
  - apply repeat_length.
  - apply Forall_repeat. split.
    + unfold new_set. cbn [ways]. apply repeat_length.
    + unfold new_set. cbn [ways]. apply Forall_repeat.
      unfold line_shape, new_line. cbn [data line_size]. apply repeat_length.
Qed.

(** Every admissible operation on a well-formed model completes and leaves
    a well-formed model. *)
Lemma apply_total m o :
  well_formed m -> admissible (config_ m) o ->
  exists m', apply m o = Ok m' /\ well_formed m' /\ config_ m' = config_ m.
Proof.
  intros Hwf Had. destruct o as [|a d w|a|a|a d|a|si wi]; simpl in *.
  - eexists. split; [reflexivity|]. split; [|reflexivity].
    apply initialize_well_formed. exact Hwf.
  - destruct Had as [Ha Hal].
    destruct (process_request_total m a d w Hwf Ha Hal) as (m1 & now & Hp & H1 & H2).
    rewrite Hp. cbn [bind fst]. eauto.
  - destruct Had as [Ha Hal].
    destruct (read_instruction_total m a Hwf Ha Hal) as (m1 & v & Hp & H1 & H2).
    rewrite Hp. cbn [bind fst]. eauto.
  - destruct (lookup_cache_total m a Hwf Had) as [r Hr]. rewrite Hr.
    cbn [bind]. eauto.
  - destruct Had as [Ha Hal]. apply update_cache_total; assumption.
  - apply invalidate_cache_line_total; assumption.
  - destruct Had as [Hsi Hwi]. apply evict_cache_line_total; assumption.
Qed.

Lemma apply_all_total os : forall m,
  well_formed m -> Forall (admissible (config_ m)) os ->
  exists m', apply_all m os = Ok m' /\ well_formed m'.
Proof.
  induction os as [|o os IH]; intros m Hwf Had; simpl; [eauto|].
  apply Forall_cons in Had as [Ho Hos].
  destruct (apply_total m o Hwf Ho) as (m1 & Hm1 & Hwf1 & Hc1).
  rewrite Hm1. cbn [bind]. apply IH; [exact Hwf1|]. rewrite Hc1. exact Hos.
Qed.

(** On a cache built for a sane configuration, every sequence of admissible
    operations runs to completion, and the two assertions of [verify_state]
    hold of what it leaves. *)
Lemma admissible_operations_complete cs ls lat os :
  4 <= ls < 2 ^ 32 -> ls = 2 ^ Z.log2 ls -> ls mod 4 = 0 ->
  1 <= cs / wrap32 (ls * 8) ->
  Forall (admissible (config_ (construct cs ls lat))) os ->
  exists m',
    apply_all (construct cs ls lat) os = Ok m'
    /\ stats_consistent (stats_ m') /\ lines_consistent m'.
Proof.
  intros Hls Hpow Hm4 Hns Had.
  destruct (apply_all_total os (construct cs ls lat)) as (m' & Hr & _);
    [apply construct_well_formed; assumption|exact Had|].
  exists m'. split; [exact Hr|]. split.
  - eapply apply_all_stats; [|exact Hr]. reflexivity.
  - eapply apply_all_consistent; [|exact Hr]. apply construct_consistent.
Qed.

End MemoryModelProperties.

Section MemoryModelWitnesses.
Import MemoryModel.

Lemma stats_hits_plus_misses_witness :
  let os := [ProcessRequest 0 5 true; ProcessRequest 0 0 false; ReadInstruction 64;
             UpdateCache 4 9; ProcessRequest 256 1 true; EvictCacheLine 0 0;
             LookupCache 0] in
  exists m',
    @apply_all masking_target (construct 256 16 10) os = Ok m'
    /\ hits (stats_ m') + misses (stats_ m') = reads (stats_ m') + writes (stats_ m')
    /\ reads (stats_ m') + writes (stats_ m') = 4.
Proof.
  intros os.
  destruct (@apply_all masking_target (construct 256 16 10) os) as [m'|f] eqn:E.
  - exists m'. split; [reflexivity|].
    destruct (@stats_hits_plus_misses masking_target 256 16 10 os m' E) as [_ Hx].
    split; [apply Hx; vm_compute; reflexivity|].
    vm_compute in E. injection E as <-. reflexivity.
  - vm_compute in E. discriminate E.
Defined.

Lemma invalid_line_not_dirty_witness :
  let os := [ProcessRequest 0 5 true; ProcessRequest 128 7 true;
             InvalidateCacheLine 0; EvictCacheLine 0 1; UpdateCache 128 3] in
  exists m',
    @apply_all masking_target (construct 256 16 10) os = Ok m'
    /\ forall st l, st ∈ sets_ m' -> l ∈ ways st -> valid l = true \/ dirty l = false.
Proof.
  intros os.
  destruct (@apply_all masking_target (construct 256 16 10) os) as [m'|f] eqn:E.
  - exists m'. split; [reflexivity|].
    exact (@invalid_line_not_dirty masking_target 256 16 10 os m' E).
  - vm_compute in E. discriminate E.
Defined.

End MemoryModelWitnesses.

Section AlignmentProperties.
Context `{Target}.

Lemma mod4_of_size (a sz : Z) :
  sz = 1 \/ sz = 2 \/ sz = 4 -> a mod sz <> 0 -> a mod 4 <> 0.
Proof.
  intros [ -> | [ -> | -> ] ] Hn.
  - rewrite Z.mod_1_r in Hn. congruence.
  - intros H4. apply Hn.
    rewrite (Z.div_mod a 4) by lia. rewrite H4, Z.add_0_r.
    replace (4 * (a / 4)) with ((2 * (a / 4)) * 2) by lia.
    apply Z.mod_mul. lia.
  - exact Hn.
Qed.

(** C7 (as the simulator checks alignment): every access is checked as a
    4-byte access, whatever its size.  An address that is not a multiple of
    4 fails the assertion of [process_request], makes [validate_address]
    throw and [DPIWrapper::process_memory_request] report MEMORY_ERROR
    without touching the wrapper; an address that is a multiple of 4 does
    neither.  In particular an access not aligned to its own size (1, 2 or
    4 bytes) is always refused. *)
Theorem alignment_is_word_alignment
    (m : MemoryModel.t) (w : DPIWrapper.t) (tr : DPIWrapper.MemoryTransactionDPI)
    (a d : Z) (wr : bool) :
  (MemoryModel.process_request m a d wr = Fail Assert_aligned <-> a mod 4 <> 0)
  /\ (DPIWrapper.validate_address a = Some DPIWrapper.invalid_argument_alignment
      <-> a mod 4 <> 0)
  /\ (DPIWrapper.validate_address a = None <-> a mod 4 = 0)
  /\ (DPIWrapper.initialized_ w = true -> DPIWrapper.address tr mod 4 <> 0 ->
      DPIWrapper.process_memory_request w tr = Ok (w, DPIWrapper.MEMORY_ERROR))
  /\ (forall sz, sz = 1 \/ sz = 2 \/ sz = 4 ->
                 ~ DPIWrapper.naturally_aligned a sz -> a mod 4 <> 0)
  /\ (MemoryModel.well_formed m -> 0 <= a -> a mod 4 = 0 ->
      exists r, MemoryModel.process_request m a d wr = Ok r).
Proof.
  split; [|split; [|split; [|split; [|split]]]].
  - split.
    + intros Hf. apply process_request_fail in Hf as [[_ Hn]|[Hc _]];
        [exact Hn|discriminate].
    + intros Hn. unfold MemoryModel.process_request, MemoryModel.check_alignment.
      apply Z.eqb_neq in Hn. rewrite Hn. reflexivity.
  - unfold DPIWrapper.validate_address.
    destruct (Z.eqb_spec (a mod 4) 0); simpl; split; congruence.
  - unfold DPIWrapper.validate_address.
    destruct (Z.eqb_spec (a mod 4) 0); simpl; split; congruence.
  - intros Hi Hn. unfold DPIWrapper.process_memory_request, DPIWrapper.validate_address.
    rewrite Hi. apply Z.eqb_neq in Hn. rewrite Hn. reflexivity.
  - intros sz Hsz Hn. eapply mod4_of_size; eassumption.
  - intros Hwf Ha Hal.
    destruct (process_request_total m a d wr Hwf Ha Hal) as (m' & now & Hp & _).
    eauto.
Qed.

End AlignmentProperties.

Section AlignmentWitnesses.

Lemma alignment_is_word_alignment_witness :
  let m := @MemoryModel.construct 256 16 10 in
  let cfg := {| DPIWrapper.num_warps := 4; DPIWrapper.threads_per_warp := 32;
                DPIWrapper.cache_size := 256; DPIWrapper.cache_line_size := 16;
                DPIWrapper.memory_latency := 10 |} in
  let w := DPIWrapper.initialize cfg in
  let tr := {| DPIWrapper.address := 6; DPIWrapper.data := 0;
               DPIWrapper.is_write := false; DPIWrapper.size := 4;
               DPIWrapper.warp_id := 0; DPIWrapper.thread_mask := 1 |} in
  @MemoryModel.process_request masking_target m 6 0 false = Fail Assert_aligned
  /\ @DPIWrapper.process_memory_request masking_target w tr
     = Ok (w, DPIWrapper.MEMORY_ERROR)
  /\ DPIWrapper.validate_address 8 = None.
Proof.
  intros m cfg w tr.
  destruct (@alignment_is_word_alignment masking_target m w tr 6 0 false)
    as (H1 & _ & _ & H4 & _ & _).
  destruct (@alignment_is_word_alignment masking_target m w tr 8 0 false)
    as (_ & _ & H3 & _).
  split; [apply H1; vm_compute; discriminate|].
  split; [apply H4; [reflexivity|vm_compute; discriminate]|].
  apply H3. reflexivity.
Defined.

(** C7 as stated fails: a halfword access at address 2 is naturally
    aligned, yet [validate_address] throws, the wrapper reports
    MEMORY_ERROR, and [process_request] fails its alignment assertion. *)
Lemma aligned_halfword_counterexample :
  let m := @MemoryModel.construct 256 16 10 in
  let cfg := {| DPIWrapper.num_warps := 4; DPIWrapper.threads_per_warp := 32;
                DPIWrapper.cache_size := 256; DPIWrapper.cache_line_size := 16;
                DPIWrapper.memory_latency := 10 |} in
  let w := DPIWrapper.initialize cfg in
  let tr := {| DPIWrapper.address := 2; DPIWrapper.data := 0;
               DPIWrapper.is_write := false; DPIWrapper.size := 2;
               DPIWrapper.warp_id := 0; DPIWrapper.thread_mask := 1 |} in
  DPIWrapper.naturally_aligned (DPIWrapper.address tr) (DPIWrapper.size tr)
  /\ DPIWrapper.validate_address (DPIWrapper.address tr)
     = Some DPIWrapper.invalid_argument_alignment
  /\ @DPIWrapper.process_memory_request masking_target w tr
     = Ok (w, DPIWrapper.MEMORY_ERROR)
  /\ @MemoryModel.process_request masking_target m (DPIWrapper.address tr) 0 false
     = Fail Assert_aligned.
Proof.
  intros m cfg w tr. repeat split; vm_compute; reflexivity.
Qed.

End AlignmentWitnesses.

Section SimulationEngineProperties.
Context `{Target}.
Import SimulationEngine.

(** *** The callbacks and their statics *)

Lemma memory_request_callback_statics st e addr d w wid mask :
  (memory_request_callback st e addr d w wid mask).1 = st.
Proof.
  unfold memory_request_callback.
  destruct (memory_request_callback_instance st); reflexivity.
Qed.

Lemma instruction_complete_callback_statics st e wid pc_ ins r :
  instruction_complete_callback st e wid pc_ ins = Ok r -> r.1 = st.
Proof.
  unfold instruction_complete_callback.
  destruct (instruction_complete_callback_instance st).
  - intros Hr. apply bind_ok in Hr as (warp & _ & Hr).
    destruct (_ =? 115); injection Hr as <-; reflexivity.
  - intros [= <-]. reflexivity.
Qed.

Lemma process_event_statics st e ev r :
  process_event st e ev = Ok r -> r.1 = st.
Proof.
  unfold process_event.
  destruct (type ev), (ev_data ev) as [tr|w|]; try discriminate; intros Hr.
  - apply bind_ok in Hr as (e2 & _ & Hr). injection Hr as <-. reflexivity.
  - injection Hr as <-. apply memory_request_callback_statics.
  - unfold process_instruction_fetch in Hr.
    apply bind_ok in Hr as (warp & _ & Hr).
    destruct (active warp); cbn [negb] in Hr; [|injection Hr as <-; reflexivity].
    apply bind_ok in Hr as (p & _ & Hr). apply bind_ok in Hr as (r3 & Hc & Hr).
    apply bind_ok in Hr as (warp3 & _ & Hr). injection Hr as <-.
    apply instruction_complete_callback_statics in Hc. exact Hc.
  - unfold process_instruction_fetch in Hr.
    apply bind_ok in Hr as (warp & _ & Hr).
    destruct (active warp); cbn [negb] in Hr; [|injection Hr as <-; reflexivity].
    apply bind_ok in Hr as (p & _ & Hr). apply bind_ok in Hr as (r3 & Hc & Hr).
    apply bind_ok in Hr as (warp3 & _ & Hr). injection Hr as <-.
    apply instruction_complete_callback_statics in Hc. exact Hc.
  - apply bind_ok in Hr as (e2 & _ & Hr). injection Hr as <-. reflexivity.
  - apply bind_ok in Hr as (e2 & _ & Hr). injection Hr as <-. reflexivity.
  - injection Hr as <-. reflexivity.
  - injection Hr as <-. reflexivity.
  - injection Hr as <-. reflexivity.
Qed.

Lemma iteration_statics st e ev q r :
  iteration st e ev q = Ok r -> r.1 = st.
Proof.
  unfold iteration. intros Hr. apply bind_ok in Hr as (r2 & Hp & Hr).
  apply process_event_statics in Hp.
  destruct (_ || _); injection Hr as <-; exact Hp.
Qed.

Lemma run_loop_statics fuel : forall st e r,
  run_loop fuel st e = Some (Ok r) -> r.1 = st.
Proof.
  induction fuel as [|fuel IH]; intros st e r; simpl; [discriminate|].
  destruct (running_ e); [|intros [= <-]; reflexivity].
  destruct (event_queue_ e) as [|ev q]; [intros [= <-]; reflexivity|].
  destruct (iteration st e ev q) as [r1|f] eqn:Hi; [|discriminate].
  intros Hr. apply IH in Hr. apply iteration_statics in Hi. congruence.
Qed.

Lemma do_call_statics st e c r : do_call st e c = Some (Ok r) -> r.1 = st.
Proof.
  destruct c; simpl.
  - intros [= <-]. reflexivity.
  - intros [= <-]. reflexivity.
  - apply run_loop_statics.
  - intros [= <-]. reflexivity.
  - intros [= <-]. apply memory_request_callback_statics.
  - intros [= Hr]. eapply instruction_complete_callback_statics. exact Hr.
Qed.

Lemma do_calls_statics cs : forall st e r,
  do_calls st e cs = Some (Ok r) -> r.1 = st.
Proof.
  induction cs as [|c cs IH]; intros st e r; simpl.
  - intros [= <-]. reflexivity.
  - destruct (do_call st e c) as [[r1|f]|] eqn:Hc; try discriminate.
    intros Hr. apply IH in Hr. apply do_call_statics in Hc. congruence.
Qed.

(** C10: in every state the program reaches from its start by calls on the
    engine (initialize, schedule_event, run, stop, the two callbacks), the
    static instance pointer of both callbacks is still null; a call of
    either callback then schedules no event and returns the engine, with
    its event queue, warp states and statistics, as it was, so that a
    memory response only schedules the next instruction fetch. *)
Theorem callbacks_are_inert (e0 : t) (cs : list call) (st : statics) (e : t)
    (tr : MemoryTransaction) (addr d : Z) (wr : bool) (wid mask pc_ instruction : Z) :
  do_calls program_start e0 cs = Some (Ok (st, e)) ->
  memory_request_callback_instance st = None
  /\ instruction_complete_callback_instance st = None
  /\ memory_request_callback st e addr d wr wid mask = (st, e)
  /\ instruction_complete_callback st e wid pc_ instruction = Ok (st, e)
  /\ event_queue_ (memory_request_callback st e addr d wr wid mask).2 = event_queue_ e
  /\ warp_states_ (memory_request_callback st e addr d wr wid mask).2 = warp_states_ e
  /\ stats_ (memory_request_callback st e addr d wr wid mask).2 = stats_ e
  /\ process_memory_response st e tr
     = (st, schedule_event e INSTRUCTION_FETCH 1 (Warp (warp_id tr))).
Proof.
  intros Hr. apply do_calls_statics in Hr. cbn in Hr. subst st.
  repeat split; reflexivity.
Qed.

(** *** Termination of the event loop *)

Lemma queue_weight_enqueue ev q :
  queue_weight (enqueue ev q) = (weight ev + queue_weight q)%nat.
Proof.
  induction q as [|x q IH]; simpl; [reflexivity|].
  destruct (time ev <? time x); simpl; [reflexivity|]. rewrite IH. lia.
Qed.

Lemma weight_positive ev : (1 <= weight ev)%nat.
Proof.
  unfold weight. destruct (CYCLE_LIMIT <=? time ev); [lia|].
  destruct (type ev); lia.
Qed.

Lemma wrap64_later t dl :
  0 <= dl < 2 ^ 32 -> t < CYCLE_LIMIT ->
  0 <= wrap64 (t + dl) /\ (0 <= t -> wrap64 (t + dl) = t + dl).
Proof.
  intros Hd Ht. unfold wrap64, wrap. split.
  - apply Z.mod_pos_bound. lia.
  - intros H0. apply Z.mod_small. unfold CYCLE_LIMIT in Ht. lia.
Qed.

Lemma weight_fetch_later t dl p :
  1 <= dl <= 4 -> t < CYCLE_LIMIT ->
  (weight {| type := INSTRUCTION_FETCH; time := wrap64 (t + dl); ev_data := p |}
   <= Z.to_nat (CYCLE_LIMIT - t))%nat.
Proof.
  intros Hd Ht. unfold weight. cbn [type time].
  destruct (wrap64_later t dl) as [H0 Heq]; [lia|exact Ht|].
  destruct (Z.leb_spec CYCLE_LIMIT (wrap64 (t + dl))); [lia|].
  destruct (Z.le_gt_cases 0 t) as [Hpos|Hneg].
  - rewrite Heq by exact Hpos. lia.
  - unfold CYCLE_LIMIT in *. lia.
Qed.

Lemma weight_response_bound t p :
  (weight {| type := MEMORY_RESPONSE; time := wrap64 t; ev_data := p |}
   <= Z.to_nat CYCLE_LIMIT + 3)%nat.
Proof.
  unfold weight. cbn [type time].
  assert (0 <= wrap64 t) by (apply Z.mod_pos_bound; lia).
  destruct (CYCLE_LIMIT <=? wrap64 t); lia.
Qed.

Lemma weight_end t p :
  weight {| type := SIMULATION_END; time := t; ev_data := p |} = 1%nat.
Proof. unfold weight. cbn [type time]. destruct (CYCLE_LIMIT <=? t); reflexivity. Qed.

Lemma log_event_frame e ev :
  current_time_ (log_event e ev) = current_time_ e
  /\ running_ (log_event e ev) = running_ e
  /\ event_queue_ (log_event e ev) = event_queue_ e
  /\ warp_states_ (log_event e ev) = warp_states_ e.
Proof. unfold log_event. destruct (_ <? _)%nat; auto. Qed.

(** A fetch leaves the time and the running flag alone, whatever the
    statics. *)
Lemma process_instruction_fetch_frame st e w r :
  process_instruction_fetch st e w = Ok r ->
  current_time_ r.2 = current_time_ e /\ running_ r.2 = running_ e.
Proof.
  unfold process_instruction_fetch. intros Hp.
  apply bind_ok in Hp as (warp & _ & Hp).
  destruct (active warp); cbn [negb] in Hp; [|injection Hp as <-; auto].
  apply bind_ok in Hp as (p & _ & Hp). apply bind_ok in Hp as (r3 & Hc & Hp).
  apply bind_ok in Hp as (warp3 & _ & Hp). injection Hp as <-.
  unfold instruction_complete_callback in Hc.
  destruct (instruction_complete_callback_instance st).
  - apply bind_ok in Hc as (wp & _ & Hc).
    destruct (_ =? 115); injection Hc as <-; auto.
  - injection Hc as <-. auto.
Qed.

(** A fetch of an active or inactive warp, the statics being null. *)
Lemma process_instruction_fetch_ok e w r :
  process_instruction_fetch program_start e w = Ok r ->
  current_time_ r.2 = current_time_ e /\ running_ r.2 = running_ e
  /\ (current_time_ e < CYCLE_LIMIT ->
      (queue_weight (event_queue_ r.2)
       <= Z.to_nat (CYCLE_LIMIT - current_time_ e) + queue_weight (event_queue_ e))%nat).
Proof.
  unfold process_instruction_fetch. intros Hp.
  apply bind_ok in Hp as (warp & _ & Hp).
  destruct (active warp); cbn [negb] in Hp.
  - apply bind_ok in Hp as ([m1 ins] & _ & Hp). cbn [fst snd] in Hp.
    apply bind_ok in Hp as (r3 & He3 & Hp). injection He3 as <-.
    apply bind_ok in Hp as (warp3 & _ & Hp). injection Hp as <-.
    cbn -[queue_weight enqueue wrap64 Z.to_nat]. repeat split. intros Hlt.
    rewrite queue_weight_enqueue.
    pose proof (weight_fetch_later (current_time_ e) 4 (Warp w)
                  ltac:(lia) Hlt) as Hw.
    lia.
  - injection Hp as <-. cbn [snd]. repeat split. intros _. lia.
Qed.

Lemma process_warp_complete_ok e w e2 :
  process_warp_complete e w = Ok e2 ->
  current_time_ e2 = current_time_ e /\ running_ e2 = running_ e
  /\ (queue_weight (event_queue_ e2) <= 1 + queue_weight (event_queue_ e))%nat.
Proof.
  unfold process_warp_complete. intros Hp.
  apply bind_ok in Hp as (warp & _ & Hp).
  destruct (all_inactive _); injection Hp as <-;
    cbn -[queue_weight enqueue wrap64 Z.to_nat]; repeat split.
  - rewrite queue_weight_enqueue, weight_end. lia.
  - lia.
Qed.

(** What processing one event does to the time, the running flag and the
    weight of the queue. *)
Lemma process_event_ok st e ev r :
  process_event st e ev = Ok r ->
  current_time_ r.2 = current_time_ e
  /\ (running_ r.2 = if match type ev with SIMULATION_END => true | _ => false end
                     then false else running_ e)
  /\ (st = program_start -> current_time_ e = time ev -> time ev < CYCLE_LIMIT ->
      (queue_weight (event_queue_ r.2) < weight ev + queue_weight (event_queue_ e))%nat).
Proof.
  unfold process_event.
  destruct (log_event_frame e ev) as (Ht & Hr & Hq & _).
  set (e1 := log_event e ev) in *. clearbody e1.
  rewrite <- Ht, <- Hr, <- Hq. clear Ht Hr Hq e.
  unfold weight.
  destruct (type ev) eqn:Hty, (ev_data ev) as [tr|w|] eqn:Hd; try discriminate.
  - (* MEMORY_REQUEST *)
    intros Hp. apply bind_ok in Hp as (e2 & Hp & Hx). injection Hx as <-.
    unfold process_memory_request in Hp.
    apply bind_ok in Hp as ([m1 now] & _ & Hp). cbn [fst snd] in Hp.
    apply bind_ok in Hp as (warp & _ & Hp). injection Hp as <-.
    destruct (is_write tr); cbn -[queue_weight enqueue wrap64 Z.to_nat].
    + repeat split. intros _ _ Hlt. apply Z.leb_gt in Hlt. rewrite Hlt. lia.
    + repeat split. intros _ _ Hlt. apply Z.leb_gt in Hlt. rewrite Hlt.
      rewrite queue_weight_enqueue.
      pose proof (weight_response_bound (current_time_ e1 + now) (Transaction tr)).
      lia.
  - (* MEMORY_RESPONSE *)
    intros [= <-]. unfold process_memory_response.
    rewrite memory_request_callback_statics.
    cbn -[queue_weight enqueue wrap64 Z.to_nat].
    split; [|split].
    + unfold memory_request_callback.
      destruct (memory_request_callback_instance st); reflexivity.
    + unfold memory_request_callback.
      destruct (memory_request_callback_instance st); reflexivity.
    + intros -> Hnow Hlt. cbn -[queue_weight enqueue wrap64 Z.to_nat].
      rewrite queue_weight_enqueue.
      pose proof (weight_fetch_later (current_time_ e1) 1 (Warp (warp_id tr))
                    ltac:(lia) ltac:(lia)) as Hw.
      rewrite Hnow in *. apply Z.leb_gt in Hlt. rewrite Hlt.
      unfold CYCLE_LIMIT in *. lia.
  - (* INSTRUCTION_FETCH, a warp number *)
    intros Hp. destruct (process_instruction_fetch_frame _ _ _ _ Hp) as [Ht Hr].
    split; [exact Ht|]. split; [exact Hr|].
    intros -> Hnow Hlt.
    apply process_instruction_fetch_ok in Hp as (_ & _ & Hw).
    rewrite Hnow in Hw. specialize (Hw Hlt).
    apply Z.leb_gt in Hlt. rewrite Hlt. lia.
  - (* INSTRUCTION_FETCH, warp 0 as a null pointer *)
    intros Hp. destruct (process_instruction_fetch_frame _ _ _ _ Hp) as [Ht Hr].
    split; [exact Ht|]. split; [exact Hr|].
    intros -> Hnow Hlt.
    apply process_instruction_fetch_ok in Hp as (_ & _ & Hw).
    rewrite Hnow in Hw. specialize (Hw Hlt).
    apply Z.leb_gt in Hlt. rewrite Hlt. lia.
  - (* WARP_COMPLETE *)
    intros Hp. apply bind_ok in Hp as (e2 & Hp & Hx). injection Hx as <-.
    apply process_warp_complete_ok in Hp as (Ht & Hr & Hw). cbn [snd].
    repeat split; try assumption.
    intros _ _ Hlt. apply Z.leb_gt in Hlt. rewrite Hlt. lia.
  - intros Hp. apply bind_ok in Hp as (e2 & Hp & Hx). injection Hx as <-.
    apply process_warp_complete_ok in Hp as (Ht & Hr & Hw). cbn [snd].
    repeat split; try assumption.
    intros _ _ Hlt. apply Z.leb_gt in Hlt. rewrite Hlt. lia.
  - intros [= <-]. cbn -[queue_weight]. repeat split. intros _ _ Hlt.
    apply Z.leb_gt in Hlt. rewrite Hlt. lia.
  - intros [= <-]. cbn -[queue_weight]. repeat split. intros _ _ Hlt.
    apply Z.leb_gt in Hlt. rewrite Hlt. lia.
  - intros [= <-]. cbn -[queue_weight]. repeat split. intros _ _ Hlt.
    apply Z.leb_gt in Hlt. rewrite Hlt. lia.
Qed.

Lemma iteration_ok st e ev q r :
  iteration st e ev q = Ok r ->
  current_time_ r.2 = time ev
  /\ (running_ r.2 = true <->
      running_ e = true /\ type ev <> SIMULATION_END
      /\ time ev < CYCLE_LIMIT /\ all_inactive r.2 = false)
  /\ (st = program_start -> running_ r.2 = true ->
      (queue_weight (event_queue_ r.2) < weight ev + queue_weight q)%nat).
Proof.
  unfold iteration. intros Hi.
  apply bind_ok in Hi as (r2 & Hp & Hi).
  apply process_event_ok in Hp as (Ht & Hr & Hw). cbn in Ht, Hr, Hw.
  set (e2 := r2.2) in *.
  set (e3 := if current_time_ e2 mod 1000 =? 0 then update_statistics e2 else e2) in *.
  assert (H3 : current_time_ e3 = time ev /\ running_ e3 = running_ e2
               /\ event_queue_ e3 = event_queue_ e2).
  { subst e3. destruct (_ =? 0); cbn; auto. }
  destruct H3 as (Ht3 & Hr3 & Hq3).
  destruct (Z.leb_spec CYCLE_LIMIT (current_time_ e3)) as [Hcap|Hcap]; cbn [orb] in Hi.
  - injection Hi as <-. cbn. split; [exact Ht3|]. split.
    + split; [discriminate|]. intros (_ & _ & Hlt & _). lia.
    + discriminate.
  - destruct (all_inactive e3) eqn:Hall; injection Hi as <-; cbn [snd].
    + cbn. split; [exact Ht3|]. split.
      * split; [discriminate|]. unfold all_inactive in *. cbn.
        intros (_ & _ & _ & Hx). congruence.
      * discriminate.
    + split; [exact Ht3|]. rewrite Hr3, Hq3, Hr. split.
      * destruct (type ev); split;
          try (intros Hx; repeat split; (assumption || discriminate || lia));
          try (intros (Hx & Hy & _); (assumption || congruence)).
      * intros Hst Hrun. apply Hw; [exact Hst|reflexivity|lia].
Qed.

Lemma run_loop_terminates n : forall e,
  (queue_weight (event_queue_ e) < n)%nat ->
  exists r, run_loop n program_start e = Some r.
Proof.
  induction n as [|n IH]; intros e Hw; [lia|]. simpl.
  destruct (running_ e); [|eauto].
  destruct (event_queue_ e) as [|ev q] eqn:Hq; [eauto|].
  destruct (iteration program_start e ev q) as [r|f] eqn:Hi; [|eauto].
  pose proof (iteration_statics _ _ _ _ _ Hi) as Hst. rewrite Hst.
  apply iteration_ok in Hi as (_ & _ & Hdec).
  change (queue_weight (ev :: q)) with (weight ev + queue_weight q)%nat in Hw.
  pose proof (weight_positive ev).
  destruct (running_ r.2) eqn:Hr.
  - apply IH. specialize (Hdec eq_refl eq_refl). lia.
  - destruct n as [|n]; [lia|]. simpl. rewrite Hr. eauto.
Qed.

Lemma run_loop_exit n : forall st e r,
  run_loop n st e = Some (Ok r) -> running_ r.2 = false \/ event_queue_ r.2 = [].
Proof.
  induction n as [|n IH]; intros st e r; simpl; [discriminate|].
  destruct (running_ e) eqn:Hr; [|intros [= <-]; auto].
  destruct (event_queue_ e) as [|ev q] eqn:Hq; [intros [= <-]; auto|].
  destruct (iteration st e ev q) as [r1|f]; [apply IH|discriminate].
Qed.

(** C8 (as [run] behaves): [run] always returns; it leaves the loop with
    the running flag cleared or the queue empty.  A pass of the loop clears
    the flag exactly when it processed SIMULATION_END, or the time reached
    1,000,000 cycles, or no warp is active any more; reaching the cycle
    limit is an ordinary exit, not a failure. *)
Theorem run_returns_at_cycle_limit (e : t) :
  (exists fuel r, run fuel program_start e = Some r)
  /\ (forall fuel st r, run fuel st e = Some (Ok r) ->
                        running_ r.2 = false \/ event_queue_ r.2 = [])
  /\ (forall st ev q r,
        iteration st e ev q = Ok r ->
        (running_ r.2 = false <->
         running_ e = false \/ type ev = SIMULATION_END
         \/ CYCLE_LIMIT <= time ev \/ all_inactive r.2 = true))
  /\ (forall st ev q r2,
        process_event st (set_time (set_queue e q) (time ev)) ev = Ok r2 ->
        CYCLE_LIMIT <= time ev ->
        exists r, iteration st e ev q = Ok r /\ running_ r.2 = false).
Proof.
  split; [|split; [|split]].
  - exists (S (queue_weight (event_queue_ e))).
    unfold run. apply run_loop_terminates. cbn [event_queue_ set_running]. lia.
  - intros fuel st r. apply run_loop_exit.
  - intros st ev q r Hi. apply iteration_ok in Hi as (_ & Hiff & _).
    destruct (running_ r.2), (running_ e);
      destruct (Z.le_gt_cases CYCLE_LIMIT (time ev));
      destruct (all_inactive r.2);
      destruct (type ev); split; intros Hx; try reflexivity; try discriminate;
      try tauto; try lia; exfalso.
    all: try (destruct Hx as [Hx|[Hx|[Hx|Hx]]]; (discriminate || lia)).
    all: try (assert (Hf : false = true) by (apply Hiff; repeat split;
                (reflexivity || discriminate || lia)); discriminate).
    all: try (destruct Hiff as [Hiff _]; destruct (Hiff eq_refl) as (? & ? & ? & ?);
                (discriminate || congruence || lia)).
  - intros st ev q r2 Hp Hcap.
    pose proof (process_event_ok _ _ _ _ Hp) as (Ht & _). cbn in Ht.
    unfold iteration. rewrite Hp. cbn [bind].
    set (e3 := if current_time_ r2.2 mod 1000 =? 0
               then update_statistics r2.2 else r2.2).
    assert (Ht3 : current_time_ e3 = time ev).
    { subst e3. destruct (_ =? 0); cbn; exact Ht. }
    rewrite Ht3. apply Z.leb_le in Hcap. rewrite Hcap. cbn [orb].
    eexists. split; reflexivity.
Qed.

End SimulationEngineProperties.

Section SimulationEngineWitnesses.
Import SimulationEngine.

Lemma callbacks_are_inert_witness :
  let cfg := {| num_warps := 1; threads_per_warp := 32; cache_size := 1024;
                cache_line_size := 128; memory_latency := 100 |} in
  let cs := [Call_schedule_event WARP_COMPLETE 1 (Warp 0); Call_run 3;
             Call_instruction_complete_callback 0 0 115;
             Call_memory_request_callback 64 0 false 0 1] in
  exists st e,
    @do_calls masking_target program_start (construct cfg) cs = Some (Ok (st, e))
    /\ memory_request_callback st e 64 0 true 0 1 = (st, e)
    /\ instruction_complete_callback st e 0 0 115 = Ok (st, e).
Proof.
  intros cfg cs.
  destruct (@do_calls masking_target program_start (construct cfg) cs)
    as [[[st e]|f]|] eqn:E.
  - exists st, e. split; [reflexivity|].
    destruct (@callbacks_are_inert masking_target (construct cfg) cs st e
                {| address := 0; data := 0; is_write := false; size := 4;
                   warp_id := 0; thread_mask := 0 |} 64 0 true 0 1 0 115 E)
      as (_ & _ & H3 & H4 & _).
    split; assumption.
  - vm_compute in E. discriminate E.
  - vm_compute in E. discriminate E.
Defined.

Lemma run_returns_at_cycle_limit_witness :
  let cfg := {| num_warps := 1; threads_per_warp := 32; cache_size := 1024;
                cache_line_size := 128; memory_latency := 100 |} in
  let e := construct cfg in
  let ev := {| type := INSTRUCTION_FETCH; time := 2000000; ev_data := Warp 0 |} in
  exists r, @iteration masking_target program_start e ev [] = Ok r
            /\ running_ r.2 = false.
Proof.
  intros cfg e ev.
  destruct (@run_returns_at_cycle_limit masking_target e) as (_ & _ & _ & H4).
  destruct (@process_event masking_target program_start
              (set_time (set_queue e []) (time ev)) ev) as [r2|f] eqn:E.
  - apply (H4 program_start ev [] r2 E). vm_compute. discriminate.
  - vm_compute in E. discriminate E.
Defined.

(** C8 as stated fails: an engine with one warp whose only event lies at
    cycle 2,000,000 runs past the limit of 1,000,000 cycles, and [run]
    returns normally with the running flag cleared; no failure is
    reported. *)
Lemma run_past_cycle_limit_counterexample :
  let cfg := {| num_warps := 1; threads_per_warp := 32; cache_size := 1024;
                cache_line_size := 128; memory_latency := 100 |} in
  let e := schedule_event (construct cfg) INSTRUCTION_FETCH 2000000 (Warp 0) in
  exists r,
    @run masking_target 2 program_start e = Some (Ok r)
    /\ current_time_ r.2 = 2000000 /\ CYCLE_LIMIT < current_time_ r.2
    /\ running_ r.2 = false.
Proof.
  intros cfg e.
  destruct (@run masking_target 2 program_start e) as [[r|f]|] eqn:E.
  - exists r. split; [reflexivity|].
    vm_compute in E. injection E as <-. repeat split.
  - vm_compute in E. discriminate E.
  - vm_compute in E. discriminate E.
Qed.

End SimulationEngineWitnesses.

Section MemoryModelOperations.
Context `{Target}.
Import MemoryModel.

(** *** Address fields *)

(** X1: the tag, the set index and the offset of an address are its
    three bit fields.  For a cache built by the constructor with a line
    size that is a power of two and at least one set, they give the
    address back, the offset is inside the line, the set index is the
    index of a set, and the two shift counts stay below 32. *)
Theorem address_fields (cs ls lat a : Z) :
  let c := config_ (construct cs ls lat) in
  0 <= a < 2 ^ 32 -> cs < 2 ^ 32 -> 1 <= ls < 2 ^ 32 -> ls = 2 ^ Z.log2 ls ->
  1 <= num_sets c ->
  a = Z.shiftl (get_tag c a) (offset_bits c + set_bits c)
      + Z.shiftl (get_set_index c a) (offset_bits c) + get_offset c a
  /\ 0 <= get_offset c a < ls
  /\ 0 <= get_set_index c a < num_sets c
  /\ 0 <= get_tag c a
  /\ offset_bits c + set_bits c < 32.
Proof.
  intros c Ha Hcs Hls Hpow Hns.
  assert (Hob : 0 <= offset_bits c) by apply Z.log2_nonneg.
  assert (Hsb : 0 <= set_bits c) by apply Z.log2_nonneg.
  assert (Hlsc : line_size c = ls) by reflexivity.
  assert (Hobc : offset_bits c = Z.log2 ls) by reflexivity.
  assert (Hoff : get_offset c a = a mod 2 ^ offset_bits c).
  { unfold get_offset, wrap32, wrap. rewrite Hlsc, Z.mod_small by lia.
    rewrite Hpow, <- Hobc.
    replace (2 ^ offset_bits c - 1) with (Z.ones (offset_bits c))
      by (rewrite Z.ones_equiv; lia).
    apply Z.land_ones. exact Hob. }
  assert (Hidx : get_set_index c a
                 = (a / 2 ^ offset_bits c) mod 2 ^ set_bits c).
  { unfold get_set_index. rewrite Z.shiftl_1_l.
    replace (2 ^ set_bits c - 1) with (Z.ones (set_bits c))
      by (rewrite Z.ones_equiv; lia).
    rewrite Z.land_ones by exact Hsb. rewrite Z.shiftr_div_pow2 by exact Hob.
    reflexivity. }
  assert (Htag : get_tag c a
                 = (a / 2 ^ offset_bits c) / 2 ^ set_bits c).
  { unfold get_tag. rewrite Z.shiftr_div_pow2 by lia.
    rewrite Z.pow_add_r by assumption. rewrite Zdiv_Zdiv by lia. reflexivity. }
  assert (Hpo : 0 < 2 ^ offset_bits c) by (apply Z.pow_pos_nonneg; lia).
  assert (Hps : 0 < 2 ^ set_bits c) by (apply Z.pow_pos_nonneg; lia).
  assert (Hlog : 2 ^ set_bits c <= num_sets c)
    by (apply Z.log2_spec; lia).
  assert (Hshift : offset_bits c + set_bits c < 32).
  { assert (Hdiv : 0 < wrap32 (ls * 8)).
    { assert (0 <= wrap32 (ls * 8))
        by (unfold wrap32, wrap; apply Z.mod_pos_bound; lia).
      destruct (Z.eq_dec (wrap32 (ls * 8)) 0) as [E|]; [|lia].
      unfold num_sets in Hns. cbn [c construct config_ total_size line_size
                                    associativity] in Hns.
      rewrite E, Z.div_0_r in Hns. lia. }
    assert (Hle : wrap32 (ls * 8) <= ls * 8)
      by (unfold wrap32, wrap; apply Z.mod_le; lia).
    assert (Hcs8 : num_sets c * wrap32 (ls * 8) <= cs).
    { unfold num_sets. cbn [c construct config_ total_size line_size associativity].
      rewrite Z.mul_comm. apply Z.mul_div_le. exact Hdiv. }
    assert (Hnowrap : ls * 8 < 2 ^ 32).
    { destruct (Z.lt_ge_cases (ls * 8) (2 ^ 32)) as [|Hge]; [assumption|].
      exfalso.
      assert (Hob29 : 29 <= offset_bits c).
      { apply Z.log2_le_pow2; lia. }
      assert (Hob31 : offset_bits c <= 31).
      { rewrite Hobc. apply Z.lt_succ_r, Z.log2_lt_pow2; lia. }
      assert (E : wrap32 (ls * 8) = 0).
      { unfold wrap32, wrap. rewrite Hpow, <- Hobc.
        replace 8 with (2 ^ 3) by reflexivity.
        rewrite <- Z.pow_add_r by lia.
        replace (offset_bits c + 3) with (32 + (offset_bits c - 29)) by lia.
        rewrite Z.pow_add_r by lia. rewrite Z.mul_comm. apply Z.mod_mul. lia. }
      lia. }
    assert (Hw : wrap32 (ls * 8) = ls * 8)
      by (unfold wrap32, wrap; apply Z.mod_small; lia).
    rewrite Hw in Hcs8.
    assert (Hprod : 2 ^ (offset_bits c + set_bits c) * 8 < 2 ^ 32).
    { rewrite Z.pow_add_r by assumption. rewrite <- Hobc in Hpow.
      rewrite <- Hpow. nia. }
    destruct (Z.lt_ge_cases (offset_bits c + set_bits c) 32) as [|Hge]; [assumption|].
    exfalso.
    assert (2 ^ 32 <= 2 ^ (offset_bits c + set_bits c))
      by (apply Z.pow_le_mono_r; lia).
    lia. }
  rewrite Hoff, Hidx, Htag.
  rewrite !Z.shiftl_mul_pow2 by lia. rewrite Z.pow_add_r by assumption.
  pose proof (Z.div_mod a (2 ^ offset_bits c) ltac:(lia)) as Ea.
  pose proof (Z.div_mod (a / 2 ^ offset_bits c) (2 ^ set_bits c) ltac:(lia)) as Eq.
  pose proof (Z.mod_pos_bound a (2 ^ offset_bits c) Hpo) as Bo.
  pose proof (Z.mod_pos_bound (a / 2 ^ offset_bits c) (2 ^ set_bits c) Hps) as Bs.
  assert (Hq : 0 <= a / 2 ^ offset_bits c) by (apply Z.div_pos; lia).
  assert (Ht : 0 <= a / 2 ^ offset_bits c / 2 ^ set_bits c) by (apply Z.div_pos; lia).
  assert (Hls2 : ls = 2 ^ offset_bits c) by (rewrite Hobc; exact Hpow).
  repeat split; lia.
Qed.

(** *** What a lookup finds *)

Lemma mark_dirty_valid tg l : valid (mark_dirty tg l) = valid l.
Proof. unfold mark_dirty. destruct (valid l && (tag l =? tg)); reflexivity. Qed.

Lemma mark_dirty_tag tg l : tag (mark_dirty tg l) = tag l.
Proof. unfold mark_dirty. destruct (valid l && (tag l =? tg)); reflexivity. Qed.

Lemma mark_dirty_data tg l : data (mark_dirty tg l) = data l.
Proof. unfold mark_dirty. destruct (valid l && (tag l =? tg)); reflexivity. Qed.

Lemma lookup_ways_mark_dirty tg' ws tg word :
  lookup_ways (map (mark_dirty tg') ws) tg word = lookup_ways ws tg word.
Proof.
  induction ws as [|w ws IH]; simpl; [reflexivity|].
  rewrite mark_dirty_valid, mark_dirty_tag, mark_dirty_data, IH. reflexivity.
Qed.

(** The lookup returns the word of the first valid way carrying the tag. *)
Lemma lookup_ways_first ws tg word : forall k l v,
  ws !! k = Some l -> valid l = true -> tag l = tg -> data l !! word = Some v ->
  (forall j l', (j < k)%nat -> ws !! j = Some l' ->
                valid l' && (tag l' =? tg) = false) ->
  lookup_ways ws tg word = Ok (Some v).
Proof.
  induction ws as [|w ws IH]; intros k l v Hl Hv Ht Hd Hbefore; [discriminate|].
  simpl. destruct k as [|k].
  - injection Hl as ->. rewrite Hv, Ht, Z.eqb_refl, Hd. reflexivity.
  - rewrite (Hbefore 0%nat w ltac:(lia) eq_refl).
    apply (IH k l v); try assumption.
    intros j l' Hj Hl'. apply (Hbefore (S j)); [lia|exact Hl'].
Qed.

Lemma lookup_ways_none ws tg word :
  (forall j l', ws !! j = Some l' -> valid l' && (tag l' =? tg) = false) ->
  lookup_ways ws tg word = Ok None.
Proof.
  induction ws as [|w ws IH]; intros Hno; [reflexivity|].
  simpl. rewrite (Hno 0%nat w eq_refl).
  apply IH. intros j l' Hl'. apply (Hno (S j)). exact Hl'.
Qed.

Lemma find_hit_first ws tg : forall k i,
  find_hit ws tg k = Some i ->
  exists j l, i = (k + j)%nat /\ ws !! j = Some l /\ valid l = true /\ tag l = tg
    /\ forall j' l', (j' < j)%nat -> ws !! j' = Some l' ->
                     valid l' && (tag l' =? tg) = false.
Proof.
  induction ws as [|w ws IH]; intros k i; simpl; [discriminate|].
  destruct (valid w && (tag w =? tg)) eqn:Hw.
  - intros [= <-]. apply andb_true_iff in Hw as [Hv Ht]. apply Z.eqb_eq in Ht.
    exists 0%nat, w. repeat split; auto; lia.
  - intros Hf. destruct (IH _ _ Hf) as (j & l & -> & Hl & Hv & Ht & Hb).
    exists (S j), l.
    split; [lia|]. split; [exact Hl|]. split; [exact Hv|]. split; [exact Ht|].
    intros [|j'] l' Hj' Hl'; simpl in Hl'; [congruence|].
    apply (Hb j'); [lia|exact Hl'].
Qed.

Lemma find_hit_none ws tg : forall k,
  find_hit ws tg k = None ->
  forall j l', ws !! j = Some l' -> valid l' && (tag l' =? tg) = false.
Proof.
  induction ws as [|w ws IH]; intros k; simpl.
  - intros _ j l' Hl'. destruct j; discriminate.
  - destruct (valid w && (tag w =? tg)) eqn:Hw; [discriminate|].
    intros Hf [|j] l' Hl'; simpl in Hl'; [congruence|]. eapply IH; eassumption.
Qed.

Lemma refill_length n : forall mm base ds i ds' mm',
  refill mm base ds i n = Ok (ds', mm') -> length ds' = length ds.
Proof.
  induction n as [|n IH]; intros mm base ds i ds' mm'; simpl.
  - intros [= <- _]. reflexivity.
  - destruct (mem_read _ _) as [v mm1].
    destruct (i <? length ds)%nat; [|discriminate].
    intros Hr. apply IH in Hr. rewrite length_insert in Hr. exact Hr.
Qed.

(** What [process_request] leaves in the set of the address: the line of
    the address in a way [k], valid and first for its tag, the other ways
    as they were; every set then passes through [handle_coherence]. *)
Lemma process_request_line m a d w m' now :
  process_request m a d w = Ok (m', now) ->
  let c := config_ m in
  let si := Z.to_nat (get_set_index c a) in
  let word := Z.to_nat (get_offset c a / 4) in
  exists st k line' v,
    config_ m' = c
    /\ sets_ m !! si = Some st
    /\ sets_ m' = handle_coherence c (set_way (sets_ m) si k line') a
    /\ (k < length (ways st))%nat
    /\ valid line' = true /\ tag line' = get_tag c a
    /\ data line' !! word = Some v /\ (w = true -> v = d)
    /\ (forall j l', (j < k)%nat -> ways st !! j = Some l' ->
                     valid l' && (tag l' =? get_tag c a) = false)
    /\ (exists l0, ways st !! k = Some l0 /\ length (data line') = length (data l0))
    /\ ((length (access_history_ m) <= MAX_HISTORY_SIZE)%nat ->
        (length (access_history_ m') <= MAX_HISTORY_SIZE)%nat)
    /\ (find_hit (ways st) (get_tag c a) 0 = Some k
        /\ (exists l, ways st !! k = Some l /\ valid l = true /\ tag l = get_tag c a
                      /\ (word < length (data l))%nat
                      /\ (w = false -> data line' = data l))
        \/ find_hit (ways st) (get_tag c a) 0 = None).
Proof.
  unfold process_request, translate_address.
  destruct (check_alignment a 4); simpl; [|discriminate].
  intros Hr.
  apply bind_ok in Hr as (st & Hst & Hr). apply of_option_ok in Hst.
  apply bind_ok in Hr as ([[sets' mm'] stats3] & Hbranch & Hr).
  injection Hr as <- <-. cbn [config_ sets_ access_history_].
  assert (Hhist : (length (access_history_ m) <= MAX_HISTORY_SIZE)%nat ->
                  (length (if (length (access_history_ m) <? MAX_HISTORY_SIZE)%nat
                           then access_history_ m
                                ++ [{| acc_address := a; acc_data := d;
                                       acc_is_write := w;
                                       acc_cycle := current_cycle_ m |}]
                           else access_history_ m) <= MAX_HISTORY_SIZE)%nat).
  { intros Hle. destruct (Nat.ltb_spec (length (access_history_ m)) MAX_HISTORY_SIZE);
      [|exact Hle]. rewrite length_app. simpl. lia. }
  destruct (find_hit (ways st) _ 0) as [hit_way|] eqn:Hhit.
  - apply bind_ok in Hbranch as (line & Hline & Hbranch).
    apply of_option_ok in Hline.
    apply bind_ok in Hbranch as (line' & Hline' & Hbranch).
    injection Hbranch as <- <- <-.
    destruct (find_hit_first _ _ _ _ Hhit) as (j & l & -> & Hl & Hv & Ht & Hb).
    simpl in Hline. rewrite Hl in Hline. injection Hline as <-.
    unfold hit_line in Hline'.
    destruct (Nat.ltb_spec (Z.to_nat (get_offset (config_ m) a / 4)) (length (data l)))
      as [Hlt|]; [|discriminate].
    injection Hline' as <-.
    eexists st, j, _, (if w then d else default 0 (data l !! Z.to_nat (get_offset (config_ m) a / 4))).
    cbn [valid tag data]. simpl in Hhit.
    split; [reflexivity|]. split; [exact Hst|]. split; [reflexivity|].
    split; [eapply lookup_lt_Some; eassumption|].
    split; [exact Hv|]. split; [exact Ht|].
    split.
    { destruct w; cbn [data].
      - apply list_lookup_insert_eq. exact Hlt.
      - destruct (lookup_lt_is_Some_2 _ _ Hlt) as [x Hx]. rewrite Hx. reflexivity. }
    split; [intros ->; reflexivity|].
    split; [exact Hb|].
    split.
    { exists l. split; [exact Hl|]. destruct w; cbn [data];
        [apply length_insert|reflexivity]. }
    split; [exact Hhist|].
    left. split; [exact Hhit|]. exists l.
    split; [exact Hl|]. split; [exact Hv|]. split; [exact Ht|].
    split; [exact Hlt|]. intros ->. reflexivity.
  - apply bind_ok in Hbranch as (victim_way & _ & Hbranch).
    apply bind_ok in Hbranch as (victim & Hvictim & Hbranch).
    apply of_option_ok in Hvictim.
    apply bind_ok in Hbranch as ([ds mm2] & Hfill & Hbranch).
    destruct (Nat.ltb_spec (Z.to_nat (get_offset (config_ m) a / 4)) (length ds))
      as [Hlt|]; [|discriminate].
    injection Hbranch as <- <- <-.
    eexists st, victim_way, _, (if w then d else default 0 (ds !! Z.to_nat (get_offset (config_ m) a / 4))).
    cbn [valid tag data].
    split; [reflexivity|]. split; [exact Hst|]. split; [reflexivity|].
    split; [eapply lookup_lt_Some; eassumption|].
    split; [reflexivity|]. split; [reflexivity|].
    split.
    { destruct w; cbn [data].
      - apply list_lookup_insert_eq. exact Hlt.
      - destruct (lookup_lt_is_Some_2 _ _ Hlt) as [x Hx]. rewrite Hx. reflexivity. }
    split; [intros ->; reflexivity|].
    split; [intros j l' _ Hl'; eapply find_hit_none; eassumption|].
    split.
    { exists victim. split; [exact Hvictim|].
      apply refill_length in Hfill. rewrite <- Hfill.
      destruct w; cbn [data]; [apply length_insert|reflexivity]. }
    split; [exact Hhist|].
    right. exact Hhit.
Qed.

Lemma handle_coherence_lookup c sets a si st :
  sets !! si = Some st ->
  handle_coherence c sets a !! si
  = Some {| ways := map (mark_dirty (get_tag c a)) (ways st) |}.
Proof.
  intros Hst. unfold handle_coherence.
  change (map ?f sets) with (f <$> sets).
  rewrite list_lookup_fmap, Hst. reflexivity.
Qed.

Lemma set_way_lookup sets si k l st :
  sets !! si = Some st ->
  set_way sets si k l !! si = Some {| ways := <[k := l]> (ways st) |}.
Proof.
  intros Hst. unfold set_way. rewrite list_lookup_alter_eq, Hst. reflexivity.
Qed.

(** After a request the line of its address is in the cache. *)
Lemma process_request_lookup m a d w m' now :
  process_request m a d w = Ok (m', now) ->
  exists v, lookup_cache m' a = Ok (Some v) /\ (w = true -> v = d).
Proof.
  intros Hr.
  destruct (process_request_line _ _ _ _ _ _ Hr)
    as (st & k & line' & v & Hc & Hst & Hsets & Hk & Hv & Ht & Hd & Hw & Hb & _).
  exists v. split; [|exact Hw].
  unfold lookup_cache. rewrite Hc, Hsets.
  rewrite (handle_coherence_lookup _ _ _ _ _ (set_way_lookup _ _ k line' _ Hst)).
  cbn [bind of_option ways]. rewrite lookup_ways_mark_dirty.
  apply (lookup_ways_first _ _ _ k line' v); try assumption.
  - apply list_lookup_insert_eq. exact Hk.
  - intros j l' Hj Hl'. rewrite list_lookup_insert_ne in Hl' by lia.
    apply (Hb j); assumption.
Qed.

Lemma update_ways_lookup tg word d now ws : forall ws',
  update_ways ws tg word d now = Ok (Some ws') ->
  lookup_ways ws' tg word = Ok (Some d).
Proof.
  induction ws as [|w ws IH]; intros ws'; simpl; [discriminate|].
  destruct (valid w && (tag w =? tg)) eqn:Hv.
  - destruct (Nat.ltb_spec word (length (data w))) as [Hlt|]; [|discriminate].
    intros [= <-]. simpl. rewrite Hv.
    rewrite list_lookup_insert_eq by exact Hlt. reflexivity.
  - intros Hr. apply bind_ok in Hr as ([ws1|] & Hr1 & Hr2); [|discriminate].
    injection Hr2 as <-. simpl. rewrite Hv. apply IH. exact Hr1.
Qed.

(** X2: a word written through [process_request] or [update_cache] is what
    a lookup of its address then returns. *)
Theorem write_then_lookup (m : t) (o : operation) (a d : Z) (m' : t) :
  o = ProcessRequest a d true \/ o = UpdateCache a d ->
  apply m o = Ok m' ->
  lookup_cache m' a = Ok (Some d).
Proof.
  intros [-> | ->]; simpl; intros Hr.
  - apply bind_ok in Hr as ([m1 now] & Hp & Hr). injection Hr as <-.
    destruct (process_request_lookup _ _ _ _ _ _ Hp) as (v & Hl & Hv).
    rewrite (Hv eq_refl) in Hl. exact Hl.
  - unfold update_cache in Hr.
    apply bind_ok in Hr as (st & Hst & Hr). apply of_option_ok in Hst.
    apply bind_ok in Hr as (r & Hu & Hr).
    destruct r as [ws|].
    + injection Hr as <-. unfold lookup_cache, set_sets. cbn [config_ sets_].
      rewrite list_lookup_insert_eq by (eapply lookup_lt_Some; eassumption).
      cbn [bind of_option ways]. eapply update_ways_lookup. exact Hu.
    + apply bind_ok in Hr as ([m2 now] & Hp & Hr). injection Hr as <-.
      destruct (process_request_lookup _ _ _ _ _ _ Hp) as (v & Hl & Hv).
      rewrite (Hv eq_refl) in Hl. exact Hl.
Qed.

(** X3: an instruction fetch leaves the line of its address in the cache,
    so that the same fetch made again returns the same word and changes
    nothing, counters and access times included. *)
Theorem read_instruction_repeat (m : t) (a : Z) (m' : t) (v : Z) :
  read_instruction m a = Ok (m', v) ->
  lookup_cache m' a = Ok (Some v) /\ read_instruction m' a = Ok (m', v).
Proof.
  intros Hr.
  assert (Hl : lookup_cache m' a = Ok (Some v)).
  { unfold read_instruction in Hr.
    apply bind_ok in Hr as (r & Hl & Hr).
    destruct r as [v0|].
    - injection Hr as <- <-. exact Hl.
    - apply bind_ok in Hr as ([m1 now] & Hp & Hr).
      apply bind_ok in Hr as (r' & Hl' & Hr). injection Hr as <- <-.
      destruct (process_request_lookup _ _ _ _ _ _ Hp) as (v1 & Hl1 & _).
      cbn [fst] in *. rewrite Hl1 in Hl'. injection Hl' as <-.
      exact Hl1. }
  split; [exact Hl|].
  unfold read_instruction. rewrite Hl. reflexivity.
Qed.

(** *** Invalidation *)

Lemma invalidate_ways_lookup c si tg word ws : forall mm,
  lookup_ways (invalidate_ways c si tg ws mm).1 tg word = Ok None.
Proof.
  induction ws as [|w ws IH]; intros mm; simpl; [reflexivity|].
  destruct (valid w && (tag w =? tg)) eqn:Hv.
  - match goal with
    | |- context [invalidate_ways c si tg ws ?mm1] =>
        specialize (IH mm1); destruct (invalidate_ways c si tg ws mm1)
    end.
    simpl in *. exact IH.
  - specialize (IH mm). destruct (invalidate_ways c si tg ws mm).
    simpl in *. rewrite Hv. exact IH.
Qed.

Lemma invalidate_ways_other c si tg tg' word ws : forall mm,
  tg' <> tg ->
  lookup_ways (invalidate_ways c si tg ws mm).1 tg' word = lookup_ways ws tg' word.
Proof.
  induction ws as [|w ws IH]; intros mm Hne; simpl; [reflexivity|].
  destruct (valid w && (tag w =? tg)) eqn:Hv.
  - apply andb_true_iff in Hv as [Hv Ht]. apply Z.eqb_eq in Ht.
    match goal with
    | |- context [invalidate_ways c si tg ws ?mm1] =>
        specialize (IH mm1 Hne); destruct (invalidate_ways c si tg ws mm1)
    end.
    simpl in *. rewrite Hv. simpl.
    destruct (Z.eqb_spec (tag w) tg'); [congruence|]. exact IH.
  - specialize (IH mm Hne). destruct (invalidate_ways c si tg ws mm).
    simpl in *. rewrite IH. reflexivity.
Qed.

Lemma get_set_index_nonneg c a : 0 <= get_set_index c a.
Proof.
  unfold get_set_index. apply Z.land_nonneg. right.
  rewrite Z.shiftl_1_l.
  assert (0 < 2 ^ set_bits c) by (apply Z.pow_pos_nonneg; [lia|apply Z.log2_nonneg]).
  lia.
Qed.

(** X4: after [invalidate_cache_line] a lookup of the address misses, and a
    lookup of an address of another set or another tag finds what it found
    before. *)
Theorem invalidate_then_lookup (m : t) (a : Z) (m' : t) :
  invalidate_cache_line m a = Ok m' ->
  lookup_cache m' a = Ok None
  /\ forall b,
       get_set_index (config_ m) b <> get_set_index (config_ m) a
       \/ get_tag (config_ m) b <> get_tag (config_ m) a ->
       lookup_cache m' b = lookup_cache m b.
Proof.
  unfold invalidate_cache_line. intros Hr.
  apply bind_ok in Hr as (st & Hst & Hr). apply of_option_ok in Hst.
  pose proof (invalidate_ways_lookup (config_ m) (get_set_index (config_ m) a)
                (get_tag (config_ m) a) (Z.to_nat (get_offset (config_ m) a / 4))
                (ways st) (main_memory_ m)) as Hmiss.
  pose proof (fun b => invalidate_ways_other (config_ m) (get_set_index (config_ m) a)
                (get_tag (config_ m) a) (get_tag (config_ m) b)
                (Z.to_nat (get_offset (config_ m) b / 4))
                (ways st) (main_memory_ m)) as Hother.
  destruct (invalidate_ways _ _ _ _ _) as [ws mm].
  injection Hr as <-. unfold lookup_cache. cbn [config_ sets_ fst] in *.
  split.
  - rewrite list_lookup_insert_eq by (eapply lookup_lt_Some; eassumption).
    exact Hmiss.
  - intros b Hb.
    destruct (decide (Z.to_nat (get_set_index (config_ m) b)
                      = Z.to_nat (get_set_index (config_ m) a))) as [He|Hne].
    + rewrite He, Hst.
      rewrite list_lookup_insert_eq by (eapply lookup_lt_Some; eassumption).
      cbn [bind of_option ways]. apply Hother.
      destruct Hb as [Hb|Hb]; [|exact Hb].
      pose proof (get_set_index_nonneg (config_ m) a).
      pose proof (get_set_index_nonneg (config_ m) b). lia.
    + rewrite list_lookup_insert_ne by congruence. reflexivity.
Qed.

(** *** Hits, misses and the cycle count *)

(** X5: a request is a hit exactly when a lookup of its address would have
    found the line; a hit takes one cycle, a miss the memory latency and
    one cycle for each 16 bytes of the line; the request returns the cycle
    count it leaves and counts once as a hit or as a miss. *)
Theorem request_latency (m : t) (a d : Z) (w : bool) (m' : t) (now : Z) :
  process_request m a d w = Ok (m', now) ->
  let c := config_ m in
  exists hit : bool,
    (hit = true <-> exists v, lookup_cache m a = Ok (Some v))
    /\ now = wrap64 (current_cycle_ m
                     + (if hit then 1 else wrap32 (memory_latency c + line_size c / 16)))
    /\ current_cycle_ m' = now
    /\ hits (stats_ m') = (if hit then incr (hits (stats_ m)) else hits (stats_ m))
    /\ misses (stats_ m') = (if hit then misses (stats_ m) else incr (misses (stats_ m))).
Proof.
  intros Hr c.
  destruct (process_request_line _ _ _ _ _ _ Hr)
    as (st & k & line' & v & _ & Hst & _ & _ & _ & _ & _ & _ & _ & _ & _ & Hcase).
  fold c in Hst, Hcase.
  assert (Hlook : lookup_cache m a
                  = lookup_ways (ways st) (get_tag c a) (Z.to_nat (get_offset c a / 4))).
  { unfold lookup_cache. fold c. rewrite Hst. reflexivity. }
  revert Hr. unfold process_request, translate_address.
  destruct (check_alignment a 4); simpl; [|discriminate].
  fold c. rewrite Hst. cbn [bind of_option].
  intros Hr.
  apply bind_ok in Hr as ([[sets' mm'] stats3] & Hbranch & Hr).
  injection Hr as <- <-. cbn [current_cycle_ stats_].
  destruct Hcase as [(Hhit & l & Hl & Hv & Ht & Hlt & _)|Hhit];
    rewrite Hhit in Hbranch |- *.
  - exists true.
    apply bind_ok in Hbranch as (line & _ & Hbranch).
    apply bind_ok in Hbranch as (line2 & _ & Hbranch).
    injection Hbranch as _ _ <-.
    split; [|repeat split].
    split; [intros _|reflexivity].
    destruct (lookup_lt_is_Some_2 _ _ Hlt) as [x Hx].
    exists x. rewrite Hlook.
    destruct (find_hit_first _ _ _ _ Hhit) as (j & l0 & Hj & Hl0 & Hv0 & Ht0 & Hb).
    simpl in Hj. subst j. rewrite Hl in Hl0. injection Hl0 as <-.
    eapply lookup_ways_first; eassumption.
  - exists false.
    apply bind_ok in Hbranch as (victim_way & _ & Hbranch).
    apply bind_ok in Hbranch as (victim & _ & Hbranch).
    apply bind_ok in Hbranch as ([ds mm2] & _ & Hbranch).
    destruct (_ <? length ds)%nat; [|discriminate].
    injection Hbranch as _ _ <-.
    split; [|split; [|split; [reflexivity|]]].
    + split; [discriminate|]. intros [x Hx]. rewrite Hlook in Hx.
      rewrite (lookup_ways_none _ _ _ (find_hit_none _ _ _ Hhit)) in Hx. discriminate.
    + simpl. unfold calculate_access_latency, check_bank_conflicts.
      rewrite Z.add_0_r. unfold wrap32, wrap. rewrite Z.mod_mod by lia. reflexivity.
    + destruct (valid victim && dirty victim); split; reflexivity.
Qed.

(** *** One valid way for a tag *)

Lemma Forall2_refl {A} (P : A -> A -> Prop) (l : list A) :
  (forall x, P x x) -> Forall2 P l l.
Proof. intros HP. induction l; constructor; auto. Qed.

Lemma keeps_tag_refl l : keeps_tag l l.
Proof. intros Hv. auto. Qed.

Lemma distinct_tags_keeps ws ws' :
  distinct_tags ws -> Forall2 keeps_tag ws ws' -> distinct_tags ws'.
Proof.
  intros Hd Hk i j li lj Hi Hj Hvi Hvj Ht.
  destruct (Forall2_lookup_r _ _ _ _ _ Hk Hi) as (xi & Hxi & Hki).
  destruct (Forall2_lookup_r _ _ _ _ _ Hk Hj) as (xj & Hxj & Hkj).
  destruct (Hki Hvi) as [Hvxi Hti]. destruct (Hkj Hvj) as [Hvxj Htj].
  apply (Hd i j xi xj); try assumption. congruence.
Qed.

Lemma keeps_tag_insert ws k l l' :
  ws !! k = Some l -> keeps_tag l l' -> Forall2 keeps_tag ws (<[k := l']> ws).
Proof.
  intros Hl Hk. rewrite <- (list_insert_id ws k l Hl) at 1.
  apply Forall2_insert; [|exact Hk].
  apply Forall2_refl, keeps_tag_refl.
Qed.

Lemma keeps_tag_mark_dirty tg ws : Forall2 keeps_tag ws (map (mark_dirty tg) ws).
Proof.
  induction ws as [|w ws IH]; simpl; constructor; [|exact IH].
  intros Hv. rewrite mark_dirty_valid in Hv. rewrite mark_dirty_tag. auto.
Qed.

(** A way filled for a tag that no valid way carried. *)
Lemma distinct_tags_fill ws k l :
  distinct_tags ws ->
  (forall j l', ws !! j = Some l' -> valid l' && (tag l' =? tag l) = false) ->
  distinct_tags (<[k := l]> ws).
Proof.
  intros Hd Hno i j li lj Hi Hj Hvi Hvj Ht.
  apply list_lookup_insert_Some in Hi as [(<- & <- & Hik)|[Hik Hi]];
    apply list_lookup_insert_Some in Hj as [(<- & <- & Hjk)|[Hjk Hj]].
  - reflexivity.
  - specialize (Hno _ _ Hj). rewrite Hvj, <- Ht, Z.eqb_refl in Hno. discriminate.
  - specialize (Hno _ _ Hi). rewrite Hvi, Ht, Z.eqb_refl in Hno. discriminate.
  - eapply Hd; eassumption.
Qed.

Lemma update_ways_keeps tg word d now ws : forall ws',
  update_ways ws tg word d now = Ok (Some ws') -> Forall2 keeps_tag ws ws'.
Proof.
  induction ws as [|w ws IH]; intros ws'; simpl; [discriminate|].
  destruct (valid w && (tag w =? tg)) eqn:Hv.
  - destruct (_ <? _)%nat; [|discriminate]. intros [= <-].
    constructor; [|apply Forall2_refl, keeps_tag_refl].
    intros Hv'. simpl in *. auto.
  - intros Hr. apply bind_ok in Hr as ([ws1|] & Hr1 & Hr2); [|discriminate].
    injection Hr2 as <-. constructor; [apply keeps_tag_refl|]. apply IH. exact Hr1.
Qed.

Lemma invalidate_ways_keeps c si tg ws : forall mm,
  Forall2 keeps_tag ws (invalidate_ways c si tg ws mm).1.
Proof.
  induction ws as [|w ws IH]; intros mm; simpl; [constructor|].
  destruct (valid w && (tag w =? tg)).
  - match goal with
    | |- context [invalidate_ways c si tg ws ?mm1] =>
        specialize (IH mm1); destruct (invalidate_ways c si tg ws mm1)
    end.
    simpl in *. constructor; [|exact IH]. intros Hv. discriminate.
  - specialize (IH mm). destruct (invalidate_ways c si tg ws mm).
    simpl in *. constructor; [apply keeps_tag_refl|exact IH].
Qed.

Lemma handle_coherence_distinct c sets a :
  sets_distinct sets -> sets_distinct (handle_coherence c sets a).
Proof.
  intros Hs. unfold handle_coherence, sets_distinct. apply Forall_fmap.
  eapply Forall_impl; [exact Hs|]. intros st Hst. simpl.
  eapply distinct_tags_keeps; [exact Hst|]. apply keeps_tag_mark_dirty.
Qed.

Lemma process_request_distinct m a d w m' now :
  process_request m a d w = Ok (m', now) ->
  sets_distinct (sets_ m) -> sets_distinct (sets_ m').
Proof.
  intros Hr Hs.
  destruct (process_request_line _ _ _ _ _ _ Hr)
    as (st & k & line' & v & _ & Hst & -> & Hk & Hv & Ht & _ & _ & _ & _ & _ & Hcase).
  apply handle_coherence_distinct. unfold set_way, sets_distinct.
  apply Forall_alter; [exact Hs|].
  intros st' Hst' Hd. rewrite Hst in Hst'. injection Hst' as <-. cbn [ways].
  destruct Hcase as [(_ & l & Hl & Hvl & Htl & _)|Hmiss].
  - eapply distinct_tags_keeps; [exact Hd|].
    eapply keeps_tag_insert; [exact Hl|]. intros _. split; congruence.
  - apply distinct_tags_fill; [exact Hd|]. rewrite Ht.
    eapply find_hit_none. exact Hmiss.
Qed.

Lemma apply_distinct m o m' :
  apply m o = Ok m' -> sets_distinct (sets_ m) -> sets_distinct (sets_ m').
Proof.
  destruct o as [|a d w|a|a|a d|a|si wi]; simpl; intros Hr Hs.
  - injection Hr as <-. unfold sets_distinct, initialize. cbn [sets_].
    apply Forall_fmap, Forall_forall. intros st _. simpl.
    intros i j li lj Hi Hj Hvi.
    change (map clear_line (ways st)) with (clear_line <$> ways st) in Hi.
    rewrite list_lookup_fmap in Hi.
    destruct (ways st !! i); simpl in Hi; [|discriminate].
    injection Hi as <-. discriminate.
  - apply bind_ok in Hr as ([m1 now] & Hp & Hr). injection Hr as <-.
    eapply process_request_distinct; eassumption.
  - apply bind_ok in Hr as ([m1 v] & Hp & Hr). injection Hr as <-. simpl.
    unfold read_instruction in Hp.
    apply bind_ok in Hp as (r & _ & Hp).
    destruct r as [v0|].
    + injection Hp as <- <-. exact Hs.
    + apply bind_ok in Hp as ([m2 now] & Hp & Hq).
      apply bind_ok in Hq as (r' & _ & Hq). injection Hq as <- <-.
      eapply process_request_distinct; eassumption.
  - apply bind_ok in Hr as (r & _ & Hr). injection Hr as <-. exact Hs.
  - unfold update_cache in Hr.
    apply bind_ok in Hr as (st & Hst & Hr). apply of_option_ok in Hst.
    apply bind_ok in Hr as (r & Hu & Hr).
    destruct r as [ws|].
    + injection Hr as <-. unfold sets_distinct. cbn [set_sets sets_].
      apply Forall_insert; [exact Hs|]. cbn [ways].
      eapply distinct_tags_keeps; [|eapply update_ways_keeps; exact Hu].
      exact (Forall_lookup_1 _ _ _ _ Hs Hst).
    + apply bind_ok in Hr as ([m2 now] & Hp & Hr). injection Hr as <-.
      eapply process_request_distinct; eassumption.
  - unfold invalidate_cache_line in Hr.
    apply bind_ok in Hr as (st & Hst & Hr). apply of_option_ok in Hst.
    pose proof (invalidate_ways_keeps (config_ m)
                  (get_set_index (config_ m) a) (get_tag (config_ m) a)
                  (ways st) (main_memory_ m)) as Hi.
    destruct (invalidate_ways _ _ _ _ _) as [ws mm].
    injection Hr as <-. unfold sets_distinct. cbn [sets_].
    apply Forall_insert; [exact Hs|]. cbn [ways].
    eapply distinct_tags_keeps; [|exact Hi].
    exact (Forall_lookup_1 _ _ _ _ Hs Hst).
  - unfold evict_cache_line in Hr.
    destruct (si <? _); simpl in Hr; [|discriminate].
    destruct (wi <? _); simpl in Hr; [|discriminate].
    apply bind_ok in Hr as (st & Hst & Hr). apply of_option_ok in Hst.
    apply bind_ok in Hr as (line & Hline & Hr). apply of_option_ok in Hline.
    injection Hr as <-. unfold sets_distinct, set_way. cbn [sets_].
    apply Forall_alter; [exact Hs|].
    intros st' Hst' Hd. rewrite Hst in Hst'. injection Hst' as <-. cbn [ways].
    eapply distinct_tags_keeps; [exact Hd|].
    eapply keeps_tag_insert; [exact Hline|]. intros Hv. discriminate.
Qed.

(** X6: in a cache built by the constructor, whatever operations were made
    on it, no two valid ways of a set carry the same tag. *)
Theorem valid_tags_distinct (cs ls lat : Z) (os : list operation) (m' : t) :
  apply_all (construct cs ls lat) os = Ok m' ->
  forall st, st ∈ sets_ m' -> distinct_tags (ways st).
Proof.
  intros Hr.
  assert (Hd : sets_distinct (sets_ m')).
  { assert (H0 : sets_distinct (sets_ (construct cs ls lat))).
    { unfold sets_distinct, construct. cbn [sets_].
      apply Forall_repeat. unfold new_set. cbn [ways].
      intros i j li lj Hi _ Hvi.
      match type of Hi with
      | repeat ?x ?n !! _ = _ =>
          pose proof (Forall_repeat (fun l => valid l = false) x n eq_refl) as Hall
      end.
      rewrite (Forall_lookup_1 _ _ _ _ Hall Hi) in Hvi. discriminate. }
    revert Hr H0. generalize (construct cs ls lat).
    induction os as [|o os IH]; intros m; simpl.
    - intros [= <-] H0. exact H0.
    - intros Hr H0. apply bind_ok in Hr as (m1 & Ho & Hr).
      apply (IH m1 Hr). eapply apply_distinct; eassumption. }
  intros st Hst. unfold sets_distinct in Hd. rewrite Forall_forall in Hd.
  exact (Hd st Hst).
Qed.

(** *** [verify_state] *)

Lemma process_request_structured m a d w m' now :
  process_request m a d w = Ok (m', now) ->
  config_ m' = config_ m /\ length (sets_ m') = length (sets_ m)
  /\ (structured m -> structured m').
Proof.
  intros Hr.
  destruct (process_request_line _ _ _ _ _ _ Hr)
    as (st & k & line' & v & Hc & Hst & Hsets & _ & _ & _ & _ & _ & _
        & (l0 & Hl0 & Hlen) & Hhist & _).
  split; [exact Hc|]. split.
  - rewrite Hsets. unfold handle_coherence, set_way.
    rewrite length_map, length_alter. reflexivity.
  - intros [Hshape Hh]. split; [|apply Hhist; exact Hh].
    rewrite Hc, Hsets. apply handle_coherence_shape, set_way_shape; [exact Hshape|].
    pose proof (Forall_lookup_1 _ _ _ _ Hshape Hst) as [_ Hlines].
    unfold line_shape. rewrite Hlen.
    exact (Forall_lookup_1 _ _ _ _ Hlines Hl0).
Qed.

Lemma update_ways_structured c tg word d now ws : forall ws',
  update_ways ws tg word d now = Ok (Some ws') ->
  length ws' = length ws /\ (Forall (line_shape c) ws -> Forall (line_shape c) ws').
Proof.
  induction ws as [|w ws IH]; intros ws'; simpl; [discriminate|].
  destruct (valid w && (tag w =? tg)).
  - destruct (_ <? _)%nat; [|discriminate]. intros [= <-].
    split; [reflexivity|]. intros Hs. apply Forall_cons in Hs as [Hw Hs].
    constructor; [|exact Hs]. unfold line_shape in *. simpl.
    rewrite length_insert. exact Hw.
  - intros Hr. apply bind_ok in Hr as ([ws1|] & Hr1 & Hr2); [|discriminate].
    injection Hr2 as <-. destruct (IH _ Hr1) as [Hlen Hsh].
    split; [simpl; congruence|]. intros Hs. apply Forall_cons in Hs as [Hw Hs].
    constructor; auto.
Qed.

Lemma apply_structured m o m' :
  apply m o = Ok m' ->
  config_ m' = config_ m /\ length (sets_ m') = length (sets_ m)
  /\ (structured m -> structured m').
Proof.
  destruct o as [|a d w|a|a|a d|a|si wi]; simpl; intros Hr.
  - injection Hr as <-. unfold initialize, structured. cbn [config_ sets_ access_history_].
    split; [reflexivity|]. split; [apply length_map|].
    intros [Hs _]. split; [|simpl; lia].
    apply Forall_fmap. eapply Forall_impl; [exact Hs|].
    intros st [Hlen Hlines]. split; [simpl; rewrite length_map; exact Hlen|].
    simpl. apply Forall_fmap. eapply Forall_impl; [exact Hlines|].
    intros l Hl. unfold line_shape in *. simpl. rewrite length_map. exact Hl.
  - apply bind_ok in Hr as ([m1 now] & Hp & Hr). injection Hr as <-.
    eapply process_request_structured; eassumption.
  - apply bind_ok in Hr as ([m1 v] & Hp & Hr). injection Hr as <-. simpl.
    unfold read_instruction in Hp.
    apply bind_ok in Hp as (r & _ & Hp).
    destruct r as [v0|].
    + injection Hp as <- <-. auto.
    + apply bind_ok in Hp as ([m2 now] & Hp & Hq).
      apply bind_ok in Hq as (r' & _ & Hq). injection Hq as <- <-.
      eapply process_request_structured; eassumption.
  - apply bind_ok in Hr as (r & _ & Hr). injection Hr as <-. auto.
  - unfold update_cache in Hr.
    apply bind_ok in Hr as (st & Hst & Hr). apply of_option_ok in Hst.
    apply bind_ok in Hr as (r & Hu & Hr).
    destruct r as [ws|].
    + injection Hr as <-. unfold structured. cbn [set_sets config_ sets_ access_history_].
      split; [reflexivity|]. split; [apply length_insert|].
      intros [Hs Hh]. split; [|exact Hh].
      apply Forall_insert; [exact Hs|].
      pose proof (Forall_lookup_1 _ _ _ _ Hs Hst) as [Hlen Hlines].
      destruct (update_ways_structured (config_ m) _ _ _ _ _ _ Hu) as [Hlen' Hsh].
      split; [simpl; congruence|simpl; auto].
    + apply bind_ok in Hr as ([m2 now] & Hp & Hr). injection Hr as <-.
      eapply process_request_structured; eassumption.
  - unfold invalidate_cache_line in Hr.
    apply bind_ok in Hr as (st & Hst & Hr). apply of_option_ok in Hst.
    pose proof (invalidate_ways_shape (config_ m) (config_ m)
                  (get_set_index (config_ m) a) (get_tag (config_ m) a)
                  (ways st) (main_memory_ m)) as Hi.
    destruct (invalidate_ways _ _ _ _ _) as [ws mm].
    injection Hr as <-. unfold structured. cbn [config_ sets_ access_history_].
    split; [reflexivity|]. split; [apply length_insert|].
    intros [Hs Hh]. split; [|exact Hh].
    apply Forall_insert; [exact Hs|].
    pose proof (Forall_lookup_1 _ _ _ _ Hs Hst) as [Hlen Hlines].
    destruct (Hi Hlines) as [Hlen' Hsh]. simpl in Hlen', Hsh.
    split; [simpl; congruence|exact Hsh].
  - unfold evict_cache_line in Hr.
    destruct (si <? _); simpl in Hr; [|discriminate].
    destruct (wi <? _); simpl in Hr; [|discriminate].
    apply bind_ok in Hr as (st & Hst & Hr). apply of_option_ok in Hst.
    apply bind_ok in Hr as (line & Hline & Hr). apply of_option_ok in Hline.
    injection Hr as <-. unfold structured. cbn [config_ sets_ access_history_].
    split; [reflexivity|]. split; [unfold set_way; apply length_alter|].
    intros [Hs Hh]. split; [|exact Hh].
    apply set_way_shape; [exact Hs|].
    pose proof (Forall_lookup_1 _ _ _ _ Hs Hst) as [_ Hlines].
    exact (Forall_lookup_1 _ _ _ _ Hlines Hline).
Qed.

Lemma apply_all_structured os : forall m m',
  apply_all m os = Ok m' ->
  config_ m' = config_ m /\ length (sets_ m') = length (sets_ m)
  /\ (structured m -> structured m').
Proof.
  induction os as [|o os IH]; intros m m'; simpl.
  - intros [= <-]. auto.
  - intros Hr. apply bind_ok in Hr as (m1 & Ho & Hr).
    destruct (apply_structured _ _ _ Ho) as (Hc1 & Hl1 & Hs1).
    destruct (IH _ _ Hr) as (Hc & Hl & Hs).
    split; [congruence|]. split; [congruence|]. auto.
Qed.

Lemma first_failure_none {A} (check : A -> option assertion) (xs : list A) :
  Forall (fun x => check x = None) xs -> first_failure check xs = None.
Proof.
  induction 1 as [|x xs Hx _ IH]; simpl; [reflexivity|]. rewrite Hx. exact IH.
Qed.

Lemma sound_verify_state m : sound m -> verify_state m = None.
Proof.
  intros (Hts & Hls & Has & Hnb & Hla & Hlen & [Hshape Hhist] & Hlines & Hstats).
  assert (Hw : wrap32 (line_size (config_ m) * associativity (config_ m))
               = line_size (config_ m) * associativity (config_ m))
    by (unfold wrap32, wrap; apply Z.mod_small; lia).
  assert (Hns : 0 <= num_sets (config_ m))
    by (unfold num_sets; rewrite Hw; apply Z.div_pos; lia).
  unfold verify_state.
  destruct (Z.ltb_spec 0 (total_size (config_ m))); [|lia].
  destruct (Z.ltb_spec 0 (line_size (config_ m))); [|lia].
  destruct (Z.ltb_spec 0 (associativity (config_ m))); [|lia].
  destruct (Z.ltb_spec 0 (num_banks (config_ m))); [|lia].
  cbn [negb]. rewrite Hlen, Z2Nat.id, Z.eqb_refl by exact Hns. cbn [negb].
  rewrite first_failure_none.
  - destruct (Nat.leb_spec (length (access_history_ m)) MAX_HISTORY_SIZE); [|lia].
    cbn [negb]. unfold stats_consistent in Hstats. rewrite Hstats, Z.eqb_refl.
    reflexivity.
  - unfold lines_consistent in Hlines.
    rewrite Forall_forall in Hshape, Hlines |- *.
    intros st Hst. destruct (Hshape st Hst) as [Hways Hdata].
    specialize (Hlines st Hst). unfold verify_set.
    rewrite Hways, Z2Nat.id, Z.eqb_refl by lia. cbn [negb].
    apply first_failure_none.
    rewrite Forall_forall in Hdata, Hlines |- *.
    intros l Hl. specialize (Hdata l Hl). specialize (Hlines l Hl).
    unfold verify_line, line_shape in *.
    rewrite Hdata, Z2Nat.id, Z.eqb_refl by (apply Z.div_pos; lia). cbn [negb].
    destruct Hlines as [-> | ->]; [reflexivity|].
    rewrite andb_false_r. reflexivity.
Qed.

Lemma apply_sound m o m' : apply m o = Ok m' -> sound m -> sound m'.
Proof.
  intros Ho (Hts & Hls & Has & Hnb & Hla & Hlen & Hst & Hlines & Hstats).
  destruct (apply_structured _ _ _ Ho) as (Hc & Hl & Hs).
  destruct (apply_ok _ _ _ Ho) as (Hcount & Hcons).
  unfold sound. rewrite Hc, Hl.
  split; [exact Hts|]. split; [exact Hls|]. split; [exact Has|]. split; [exact Hnb|].
  split; [exact Hla|]. split; [exact Hlen|]. split; [apply Hs; exact Hst|].
  split; [apply Hcons; exact Hlines|].
  eapply stats_consistent_step; eassumption.
Qed.

Lemma construct_sound cs ls lat :
  0 < cs -> 0 < ls -> ls * 8 < 2 ^ 32 -> sound (construct cs ls lat).
Proof.
  intros Hcs Hls Hl8. unfold sound, construct.
  cbn [config_ sets_ total_size line_size associativity num_banks stats_].
  repeat split; try lia.
  - apply repeat_length.
  - cbn [structured config_ sets_].
    apply Forall_repeat. unfold set_shape, new_set. cbn [ways associativity line_size].
    split; [apply repeat_length|].
    apply Forall_repeat. unfold line_shape, new_line. cbn [data line_size].
    apply repeat_length.
  - simpl. lia.
  - apply (construct_consistent cs ls lat).
Qed.

(** X7: on a cache built by the constructor with positive sizes, every
    assertion of [verify_state] holds after any operations that were made
    on it. *)
Theorem verify_state_passes (cs ls lat : Z) (os : list operation) (m' : t) :
  0 < cs -> 0 < ls -> ls * 8 < 2 ^ 32 ->
  apply_all (construct cs ls lat) os = Ok m' ->
  verify_state m' = None.
Proof.
  intros Hcs Hls Hl8 Hr. apply sound_verify_state.
  pose proof (construct_sound cs ls lat Hcs Hls Hl8) as H0.
  revert Hr H0. generalize (construct cs ls lat).
  induction os as [|o os IH]; intros m; simpl.
  - intros [= <-] H0. exact H0.
  - intros Hr H0. apply bind_ok in Hr as (m1 & Ho & Hr).
    apply (IH m1 Hr). eapply apply_sound; eassumption.
Qed.

(** *** Eviction *)

(** X8: [evict_cache_line] stops on its first assertion for a set index
    past the sets and on its second for a way past the associativity.
    When it returns it has counted one eviction, whether or not the line
    was valid, and no access; and when the way held the line of an address,
    a lookup of that address now misses. *)
Theorem evict_cache_line_outcome (m : t) (si wi : Z) :
  0 <= si -> 0 <= wi ->
  match evict_cache_line m si wi with
  | Ok m' =>
      si < Z.of_nat (length (sets_ m)) /\ wi < associativity (config_ m)
      /\ evictions (stats_ m') = incr (evictions (stats_ m))
      /\ same_counts (stats_ m) (stats_ m')
      /\ forall a st l,
           sets_distinct (sets_ m) ->
           get_set_index (config_ m) a = si ->
           sets_ m !! Z.to_nat si = Some st -> ways st !! Z.to_nat wi = Some l ->
           valid l = true -> tag l = get_tag (config_ m) a ->
           lookup_cache m' a = Ok None
  | Fail f =>
      (f = Assert_set_index /\ Z.of_nat (length (sets_ m)) <= si)
      \/ (f = Assert_way_index /\ si < Z.of_nat (length (sets_ m))
          /\ associativity (config_ m) <= wi)
      \/ (f = Out_of_range /\ si < Z.of_nat (length (sets_ m))
          /\ wi < associativity (config_ m)
          /\ exists st, sets_ m !! Z.to_nat si = Some st
                        /\ (length (ways st) <= Z.to_nat wi)%nat)
  end.
Proof.
  intros Hsi Hwi. unfold evict_cache_line.
  destruct (Z.ltb_spec si (Z.of_nat (length (sets_ m)))) as [Hs|Hs]; cbn [negb];
    [|left; auto].
  destruct (Z.ltb_spec wi (associativity (config_ m))) as [Hw|Hw]; cbn [negb];
    [|right; left; auto].
  destruct (lookup_lt_is_Some_2 (sets_ m) (Z.to_nat si) ltac:(lia)) as [st Hst].
  rewrite Hst. cbn [bind of_option].
  destruct (ways st !! Z.to_nat wi) as [line|] eqn:Hline; cbn [bind of_option].
  - split; [exact Hs|]. split; [exact Hw|]. cbn [stats_ count_eviction evictions].
    split; [reflexivity|]. split; [repeat split|].
    intros a st0 l Hd Ha Hst0 Hl Hv Ht.
    injection Hst0 as <-.
    unfold lookup_cache. cbn [config_ sets_]. rewrite Ha.
    rewrite (set_way_lookup _ _ _ _ _ Hst). cbn [bind of_option ways].
    apply lookup_ways_none. intros j l' Hl'.
    apply list_lookup_insert_Some in Hl' as [(<- & <- & _)|[Hne Hl']];
      [reflexivity|].
    destruct (valid l') eqn:Hv'; [|reflexivity].
    destruct (Z.eqb_spec (tag l') (get_tag (config_ m) a)) as [Ht'|]; [|reflexivity].
    exfalso. apply Hne.
    eapply (Forall_lookup_1 _ _ _ _ Hd Hst); try eassumption. congruence.
  - right; right. split; [reflexivity|]. split; [exact Hs|]. split; [exact Hw|].
    exists st. split; [reflexivity|]. apply lookup_ge_None_1. exact Hline.
Qed.

(** *** Where the words come from *)

Lemma write_back_words P ds : forall mm base i,
  Forall P ds -> map_Forall (fun _ v => P v) mm ->
  map_Forall (fun _ v => P v) (write_back mm base i ds).
Proof.
  induction ds as [|x ds IH]; intros mm base i Hds Hmm; simpl; [exact Hmm|].
  apply Forall_cons in Hds as [Hx Hds].
  apply IH; [exact Hds|]. apply map_Forall_insert_2; assumption.
Qed.

Lemma mem_read_words P mm a :
  P 0 -> map_Forall (fun _ v => P v) mm ->
  P (mem_read mm a).1 /\ map_Forall (fun _ v => P v) (mem_read mm a).2.
Proof.
  intros H0 Hmm. unfold mem_read.
  destruct (mm !! a) as [v|] eqn:Hv; simpl.
  - split; [|exact Hmm]. exact (map_Forall_lookup_1 _ _ _ _ Hmm Hv).
  - split; [exact H0|]. apply map_Forall_insert_2; assumption.
Qed.

Lemma refill_words P n : forall mm base ds i ds' mm',
  P 0 -> Forall P ds -> map_Forall (fun _ v => P v) mm ->
  refill mm base ds i n = Ok (ds', mm') ->
  Forall P ds' /\ map_Forall (fun _ v => P v) mm'.
Proof.
  induction n as [|n IH]; intros mm base ds i ds' mm' H0 Hds Hmm; simpl.
  - intros [= <- <-]. auto.
  - pose proof (mem_read_words P mm (wrap32 (base + Z.of_nat i * 4)) H0 Hmm) as [Hv Hmm1].
    destruct (mem_read _ _) as [v mm1]. simpl in Hv, Hmm1.
    destruct (i <? length ds)%nat; [|discriminate].
    apply IH; [exact H0| |exact Hmm1]. apply Forall_insert; assumption.
Qed.

Lemma handle_coherence_words P c sets a :
  lines_hold P sets -> lines_hold P (handle_coherence c sets a).
Proof.
  intros Hs. unfold handle_coherence, lines_hold. apply Forall_fmap.
  eapply Forall_impl; [exact Hs|]. intros st Hst. simpl.
  apply Forall_fmap. eapply Forall_impl; [exact Hst|].
  intros l Hl. simpl. rewrite mark_dirty_data. exact Hl.
Qed.

Lemma set_way_words P sets si wi l :
  lines_hold P sets -> Forall P (data l) -> lines_hold P (set_way sets si wi l).
Proof.
  intros Hs Hl. unfold set_way, lines_hold. apply Forall_alter; [exact Hs|].
  intros st _ Hst. simpl. apply Forall_insert; assumption.
Qed.

Lemma process_request_words P m a d w m' now :
  P 0 -> (w = true -> P d) ->
  process_request m a d w = Ok (m', now) ->
  all_words P m -> all_words P m'.
Proof.
  intros H0 Hd. unfold process_request, translate_address, all_words.
  destruct (check_alignment a 4); simpl; [|discriminate].
  intros Hr [Hs Hmm].
  apply bind_ok in Hr as (st & Hst & Hr). apply of_option_ok in Hst.
  apply bind_ok in Hr as ([[sets' mm'] stats3] & Hbranch & Hr).
  injection Hr as <- <-. cbn [sets_ main_memory_].
  pose proof (Forall_lookup_1 _ _ _ _ Hs Hst) as Hways.
  assert (Hb : lines_hold P sets' /\ map_Forall (fun _ v => P v) mm').
  { destruct (find_hit (ways st) _ 0) as [hit_way|].
    - apply bind_ok in Hbranch as (line & Hline & Hbranch).
      apply of_option_ok in Hline.
      apply bind_ok in Hbranch as (line' & Hline' & Hbranch).
      injection Hbranch as <- <- <-. split; [|exact Hmm].
      apply set_way_words; [exact Hs|].
      pose proof (Forall_lookup_1 _ _ _ _ Hways Hline) as Hdata.
      unfold hit_line in Hline'. destruct (_ <? _)%nat; [|discriminate].
      injection Hline' as <-. cbn [data].
      destruct w; [apply Forall_insert; auto|exact Hdata].
    - apply bind_ok in Hbranch as (victim_way & _ & Hbranch).
      apply bind_ok in Hbranch as (victim & Hvictim & Hbranch).
      apply of_option_ok in Hvictim.
      apply bind_ok in Hbranch as ([ds mm2] & Hfill & Hbranch).
      destruct (_ <? length ds)%nat; [|discriminate].
      injection Hbranch as <- <- <-.
      pose proof (Forall_lookup_1 _ _ _ _ Hways Hvictim) as Hdata.
      apply (refill_words P) in Hfill as [Hds Hmm2]; try assumption.
      + split; [|exact Hmm2]. apply set_way_words; [exact Hs|]. cbn [data].
        destruct w; [apply Forall_insert; auto|exact Hds].
      + destruct (valid victim && dirty victim); [|exact Hmm].
        apply write_back_words; assumption. }
  destruct Hb as [Hs' Hmm']. split; [|exact Hmm'].
  apply handle_coherence_words. exact Hs'.
Qed.

Lemma update_ways_words P tg word d now ws : forall ws',
  P d -> Forall (fun l => Forall P (data l)) ws ->
  update_ways ws tg word d now = Ok (Some ws') ->
  Forall (fun l => Forall P (data l)) ws'.
Proof.
  induction ws as [|w ws IH]; intros ws' Hd Hs; simpl; [discriminate|].
  apply Forall_cons in Hs as [Hw Hs].
  destruct (valid w && (tag w =? tg)).
  - destruct (_ <? _)%nat; [|discriminate]. intros [= <-].
    constructor; [|exact Hs]. simpl. apply Forall_insert; assumption.
  - intros Hr. apply bind_ok in Hr as ([ws1|] & Hr1 & Hr2); [|discriminate].
    injection Hr2 as <-. constructor; [exact Hw|]. apply IH; assumption.
Qed.

Lemma invalidate_ways_words P c si tg ws : forall mm,
  Forall (fun l => Forall P (data l)) ws -> map_Forall (fun _ v => P v) mm ->
  Forall (fun l => Forall P (data l)) (invalidate_ways c si tg ws mm).1
  /\ map_Forall (fun _ v => P v) (invalidate_ways c si tg ws mm).2.
Proof.
  induction ws as [|w ws IH]; intros mm Hs Hmm; simpl; [auto|].
  apply Forall_cons in Hs as [Hw Hs].
  destruct (valid w && (tag w =? tg)).
  - match goal with
    | |- context [invalidate_ways c si tg ws ?mm1] =>
        assert (Hmm1 : map_Forall (fun _ v => P v) mm1)
          by (destruct (dirty w); [apply write_back_words; assumption|exact Hmm]);
        specialize (IH mm1 Hs Hmm1); destruct (invalidate_ways c si tg ws mm1)
    end.
    simpl in *. destruct IH as [IH1 IH2]. split; [|exact IH2].
    constructor; [exact Hw|exact IH1].
  - specialize (IH mm Hs Hmm). destruct (invalidate_ways c si tg ws mm).
    simpl in *. destruct IH as [IH1 IH2]. split; [|exact IH2].
    constructor; assumption.
Qed.

Lemma apply_words P m o m' :
  P 0 -> (forall d, d ∈ written o -> P d) ->
  apply m o = Ok m' -> all_words P m -> all_words P m'.
Proof.
  intros H0 Hd.
  destruct o as [|a d w|a|a|a d|a|si wi]; simpl; intros Hr Hw.
  - injection Hr as <-. unfold initialize, all_words. cbn [sets_ main_memory_].
    split; [|apply map_Forall_empty].
    apply Forall_fmap, Forall_forall. intros st _. simpl.
    apply Forall_fmap, Forall_forall. intros l _. simpl.
    apply Forall_fmap, Forall_forall. intros x _. exact H0.
  - apply bind_ok in Hr as ([m1 now] & Hp & Hr). injection Hr as <-.
    eapply process_request_words; [exact H0| |exact Hp|exact Hw].
    intros ->. apply Hd. simpl. apply list_elem_of_here.
  - apply bind_ok in Hr as ([m1 v] & Hp & Hr). injection Hr as <-. simpl.
    unfold read_instruction in Hp.
    apply bind_ok in Hp as (r & _ & Hp).
    destruct r as [v0|].
    + injection Hp as <- <-. exact Hw.
    + apply bind_ok in Hp as ([m2 now] & Hp & Hq).
      apply bind_ok in Hq as (r' & _ & Hq). injection Hq as <- <-.
      eapply process_request_words; [exact H0| |exact Hp|exact Hw]. discriminate.
  - apply bind_ok in Hr as (r & _ & Hr). injection Hr as <-. exact Hw.
  - assert (Pd : P d) by (apply Hd; simpl; apply list_elem_of_here).
    unfold update_cache in Hr.
    apply bind_ok in Hr as (st & Hst & Hr). apply of_option_ok in Hst.
    apply bind_ok in Hr as (r & Hu & Hr).
    destruct r as [ws|].
    + injection Hr as <-. destruct Hw as [Hs Hmm]. split; [|exact Hmm].
      cbn [set_sets sets_]. apply Forall_insert; [exact Hs|]. cbn [ways].
      eapply update_ways_words; [exact Pd| |exact Hu].
      exact (Forall_lookup_1 _ _ _ _ Hs Hst).
    + apply bind_ok in Hr as ([m2 now] & Hp & Hr). injection Hr as <-.
      eapply process_request_words; [exact H0| |exact Hp|exact Hw]. auto.
  - unfold invalidate_cache_line in Hr.
    apply bind_ok in Hr as (st & Hst & Hr). apply of_option_ok in Hst.
    destruct Hw as [Hs Hmm].
    pose proof (invalidate_ways_words P (config_ m)
                  (get_set_index (config_ m) a) (get_tag (config_ m) a)
                  (ways st) (main_memory_ m)
                  (Forall_lookup_1 _ _ _ _ Hs Hst) Hmm) as Hi.
    destruct (invalidate_ways _ _ _ _ _) as [ws mm].
    injection Hr as <-. destruct Hi as [Hi1 Hi2]. split; [|exact Hi2].
    cbn [sets_]. apply Forall_insert; [exact Hs|]. exact Hi1.
  - unfold evict_cache_line in Hr.
    destruct (si <? _); simpl in Hr; [|discriminate].
    destruct (wi <? _); simpl in Hr; [|discriminate].
    apply bind_ok in Hr as (st & Hst & Hr). apply of_option_ok in Hst.
    apply bind_ok in Hr as (line & Hline & Hr). apply of_option_ok in Hline.
    injection Hr as <-. destruct Hw as [Hs Hmm].
    pose proof (Forall_lookup_1 _ _ _ _ (Forall_lookup_1 _ _ _ _ Hs Hst) Hline) as Hdata.
    split; cbn [sets_ main_memory_].
    + apply set_way_words; [exact Hs|exact Hdata].
    + destruct (valid line && dirty line); [|exact Hmm].
      apply write_back_words; assumption.
Qed.

Lemma apply_all_words P os : forall m m',
  P 0 -> (forall o d, o ∈ os -> d ∈ written o -> P d) ->
  apply_all m os = Ok m' -> all_words P m -> all_words P m'.
Proof.
  induction os as [|o os IH]; intros m m' H0 Hd; simpl.
  - intros [= <-]. auto.
  - intros Hr Hw. apply bind_ok in Hr as (m1 & Ho & Hr).
    apply (IH m1 m' H0); [|exact Hr|].
    + intros o' d Ho' Hd'. apply (Hd o' d); [|exact Hd'].
      apply list_elem_of_further. exact Ho'.
    + eapply (apply_words P); [exact H0| |exact Ho|exact Hw].
      intros d Hd'. apply (Hd o d); [apply list_elem_of_here|exact Hd'].
Qed.

Lemma lookup_ways_words P ws tg word v :
  Forall (fun l => Forall P (data l)) ws ->
  lookup_ways ws tg word = Ok (Some v) -> P v.
Proof.
  induction ws as [|w ws IH]; intros Hs; simpl; [discriminate|].
  apply Forall_cons in Hs as [Hw Hs].
  destruct (valid w && (tag w =? tg)); [|auto].
  destruct (data w !! word) as [x|] eqn:Hx; simpl; [|discriminate].
  intros [= <-]. exact (Forall_lookup_1 _ _ _ _ Hw Hx).
Qed.

(** X9: whatever operations were made on a cache built by the constructor,
    a word that a lookup or an instruction fetch returns is 0 or a word
    that one of the operations wrote. *)
Theorem read_words_were_written (cs ls lat : Z) (os : list operation) (m' : t) :
  apply_all (construct cs ls lat) os = Ok m' ->
  forall a v,
    lookup_cache m' a = Ok (Some v)
    \/ (exists m'', read_instruction m' a = Ok (m'', v)) ->
    v = 0 \/ exists o, o ∈ os /\ v ∈ written o.
Proof.
  intros Hr a v.
  set (P := fun v => v = 0 \/ exists o, o ∈ os /\ v ∈ written o).
  assert (H0 : P 0) by (left; reflexivity).
  assert (Hw : all_words P m').
  { eapply (apply_all_words P); [exact H0| |exact Hr|].
    - intros o d Ho Hd. right. exists o. auto.
    - unfold all_words, construct. cbn [sets_ main_memory_].
      split; [|apply map_Forall_empty].
      apply Forall_repeat. unfold new_set. cbn [ways].
      apply Forall_repeat. unfold new_line. cbn [data].
      apply Forall_repeat. exact H0. }
  assert (Hlook : forall m, all_words P m -> forall x,
             lookup_cache m a = Ok (Some x) -> P x).
  { intros m [Hs _] x Hl. unfold lookup_cache in Hl.
    apply bind_ok in Hl as (st & Hst & Hl). apply of_option_ok in Hst.
    eapply lookup_ways_words; [|exact Hl].
    exact (Forall_lookup_1 _ _ _ _ Hs Hst). }
  intros [Hl|[m'' Hf]]; [exact (Hlook _ Hw _ Hl)|].
  unfold read_instruction in Hf.
  apply bind_ok in Hf as (r & Hl & Hf).
  destruct r as [v0|].
  - injection Hf as _ <-. exact (Hlook _ Hw _ Hl).
  - apply bind_ok in Hf as ([m1 now] & Hp & Hf).
    apply bind_ok in Hf as (r' & Hl' & Hf). injection Hf as _ <-.
    destruct r' as [x|]; [|exact H0]. simpl.
    apply (Hlook m1); [|exact Hl'].
    eapply (process_request_words P); [exact H0| |exact Hp|exact Hw]. discriminate.
Qed.

End MemoryModelOperations.

Section MemoryModelOperationsWitnesses.
Import MemoryModel.

Lemma address_fields_witness :
  let c := config_ (construct 16384 64 100) in
  get_tag c 305419896 = 149130 /\ get_set_index c 305419896 = 25
  /\ get_offset c 305419896 = 56
  /\ 305419896 = Z.shiftl 149130 11 + Z.shiftl 25 6 + 56.
Proof.
  intros c.
  assert (Hf : get_tag c 305419896 = 149130 /\ get_set_index c 305419896 = 25
               /\ get_offset c 305419896 = 56
               /\ offset_bits c = 6 /\ set_bits c = 5)
    by (repeat split; vm_compute; reflexivity).
  destruct Hf as (Ht & Hs & Ho & Hob & Hsb).
  destruct (address_fields 16384 64 100 305419896) as (Ha & _);
    [lia|lia|lia|reflexivity|vm_compute; discriminate|].
  fold c in Ha. rewrite Ht, Hs, Ho, Hob, Hsb in Ha.
  split; [exact Ht|]. split; [exact Hs|]. split; [exact Ho|]. exact Ha.
Defined.

Lemma write_then_lookup_witness :
  exists m',
    @apply masking_target (construct 256 16 10) (UpdateCache 20 7) = Ok m'
    /\ lookup_cache m' 20 = Ok (Some 7).
Proof.
  destruct (@apply masking_target (construct 256 16 10) (UpdateCache 20 7))
    as [m'|f] eqn:E.
  - exists m'. split; [reflexivity|].
    exact (@write_then_lookup masking_target _ _ 20 7 m' (or_intror eq_refl) E).
  - vm_compute in E. discriminate E.
Defined.

Lemma read_instruction_repeat_witness :
  exists m' v,
    @read_instruction masking_target (construct 256 16 10) 32 = Ok (m', v)
    /\ lookup_cache m' 32 = Ok (Some v)
    /\ @read_instruction masking_target m' 32 = Ok (m', v).
Proof.
  destruct (@read_instruction masking_target (construct 256 16 10) 32)
    as [[m' v]|f] eqn:E.
  - exists m', v. split; [reflexivity|].
    exact (@read_instruction_repeat masking_target _ 32 m' v E).
  - vm_compute in E. discriminate E.
Defined.

Lemma invalidate_then_lookup_witness :
  exists m1 m',
    @apply masking_target (construct 256 16 10) (ProcessRequest 20 7 true) = Ok m1
    /\ lookup_cache m1 20 = Ok (Some 7)
    /\ @invalidate_cache_line masking_target m1 20 = Ok m'
    /\ lookup_cache m' 20 = Ok None.
Proof.
  destruct (@apply masking_target (construct 256 16 10) (ProcessRequest 20 7 true))
    as [m1|f] eqn:E1; [|vm_compute in E1; discriminate E1].
  destruct (@invalidate_cache_line masking_target m1 20) as [m'|f] eqn:E2.
  - exists m1, m'. split; [reflexivity|].
    split; [vm_compute in E1; injection E1 as <-; vm_compute; reflexivity|].
    split; [exact E2|].
    exact (proj1 (@invalidate_then_lookup masking_target m1 20 m' E2)).
  - vm_compute in E1. injection E1 as <-. vm_compute in E2. discriminate E2.
Defined.

Lemma request_latency_witness :
  exists m1 t1 m2 t2,
    @process_request masking_target (construct 256 16 10) 20 7 true = Ok (m1, t1)
    /\ @process_request masking_target m1 24 0 false = Ok (m2, t2)
    /\ t1 = 11 /\ t2 = 12.
Proof.
  destruct (@process_request masking_target (construct 256 16 10) 20 7 true)
    as [[m1 t1]|f] eqn:E1; [|vm_compute in E1; discriminate E1].
  destruct (@process_request masking_target m1 24 0 false)
    as [[m2 t2]|f] eqn:E2;
    [|vm_compute in E1; injection E1 as <- <-; vm_compute in E2; discriminate E2].
  exists m1, t1, m2, t2. split; [reflexivity|]. split; [exact E2|].
  destruct (@request_latency masking_target _ _ _ _ _ _ E1) as (h1 & Hh1 & Ht1 & _).
  destruct (@request_latency masking_target _ _ _ _ _ _ E2) as (h2 & Hh2 & Ht2 & Hc2 & _).
  assert (Hm1 : lookup_cache (construct 256 16 10) 20 = Ok None)
    by (vm_compute; reflexivity).
  assert (Hm2 : lookup_cache m1 24 = Ok (Some 0))
    by (vm_compute in E1; injection E1 as <- <-; vm_compute; reflexivity).
  assert (h1 = false).
  { destruct h1; [|reflexivity]. destruct (proj1 Hh1 eq_refl) as [v Hv].
    rewrite Hm1 in Hv. discriminate Hv. }
  assert (h2 = true) by (apply Hh2; exists 0; exact Hm2).
  subst h1 h2.
  assert (Hc1 : current_cycle_ m1 = 11)
    by (vm_compute in E1; injection E1 as <- <-; reflexivity).
  split; [rewrite Ht1; reflexivity|]. rewrite Ht2, Hc1. reflexivity.
Defined.

Lemma valid_tags_distinct_witness :
  let os := [ProcessRequest 0 5 true; ProcessRequest 128 7 true;
             InvalidateCacheLine 0; ProcessRequest 0 1 false; UpdateCache 128 3] in
  exists m',
    @apply_all masking_target (construct 256 16 10) os = Ok m'
    /\ forall st, st ∈ sets_ m' -> distinct_tags (ways st).
Proof.
  intros os.
  destruct (@apply_all masking_target (construct 256 16 10) os) as [m'|f] eqn:E.
  - exists m'. split; [reflexivity|].
    exact (@valid_tags_distinct masking_target 256 16 10 os m' E).
  - vm_compute in E. discriminate E.
Defined.

Lemma verify_state_passes_witness :
  let os := [ProcessRequest 0 5 true; ReadInstruction 64; EvictCacheLine 0 0;
             InvalidateCacheLine 64; Initialize; UpdateCache 4 9] in
  exists m',
    @apply_all masking_target (construct 256 16 10) os = Ok m'
    /\ verify_state m' = None.
Proof.
  intros os.
  destruct (@apply_all masking_target (construct 256 16 10) os) as [m'|f] eqn:E.
  - exists m'. split; [reflexivity|].
    apply (@verify_state_passes masking_target 256 16 10 os m'); [lia|lia|lia|exact E].
  - vm_compute in E. discriminate E.
Defined.

Lemma evict_cache_line_outcome_witness :
  let m := construct 256 16 10 in
  @evict_cache_line masking_target m 2 0 = Fail Assert_set_index
  /\ @evict_cache_line masking_target m 1 8 = Fail Assert_way_index
  /\ match @evict_cache_line masking_target m 1 7 with
     | Ok m' => evictions (stats_ m') = 1
     | Fail _ => False
     end.
Proof.
  intros m.
  pose proof (@evict_cache_line_outcome masking_target m 2 0 ltac:(lia) ltac:(lia)) as H1.
  pose proof (@evict_cache_line_outcome masking_target m 1 8 ltac:(lia) ltac:(lia)) as H2.
  pose proof (@evict_cache_line_outcome masking_target m 1 7 ltac:(lia) ltac:(lia)) as H3.
  split; [|split].
  - destruct (@evict_cache_line masking_target m 2 0) as [m'|f].
    + destruct H1 as (Hlt & _). vm_compute in Hlt. discriminate Hlt.
    + destruct H1 as [[-> _]|[[_ [Hlt _]]|[_ [Hlt _]]]];
        [reflexivity|vm_compute in Hlt; discriminate Hlt
        |vm_compute in Hlt; discriminate Hlt].
  - destruct (@evict_cache_line masking_target m 1 8) as [m'|f].
    + destruct H2 as (_ & Hlt & _). vm_compute in Hlt. discriminate Hlt.
    + destruct H2 as [[_ Hle]|[[-> _]|[_ [_ [Hlt _]]]]];
        [vm_compute in Hle; exfalso; apply Hle; reflexivity|reflexivity
        |vm_compute in Hlt; discriminate Hlt].
  - destruct (@evict_cache_line masking_target m 1 7) as [m'|f] eqn:E.
    + destruct H3 as (_ & _ & He & _). rewrite He. reflexivity.
    + vm_compute in E. discriminate E.
Defined.

Lemma read_words_were_written_witness :
  let os := [ProcessRequest 0 5 true; UpdateCache 128 7; ProcessRequest 4 9 false;
             EvictCacheLine 0 0; ReadInstruction 0] in
  exists m',
    @apply_all masking_target (construct 256 16 10) os = Ok m'
    /\ forall a v, lookup_cache m' a = Ok (Some v) -> v = 0 \/ v = 5 \/ v = 7.
Proof.
  intros os.
  destruct (@apply_all masking_target (construct 256 16 10) os) as [m'|f] eqn:E.
  - exists m'. split; [reflexivity|]. intros a v Hl.
    destruct (@read_words_were_written masking_target 256 16 10 os m' E a v
                (or_introl Hl)) as [Hz|(o & Ho & Hv)]; [left; exact Hz|].
    right. unfold os in Ho.
    repeat (apply elem_of_cons in Ho as [-> |Ho]);
      try (simpl in Hv; apply list_elem_of_singleton in Hv; auto; fail);
      try (simpl in Hv; inversion Hv; fail).
    inversion Ho.
  - vm_compute in E. discriminate E.
Defined.

End MemoryModelOperationsWitnesses.

Section AtomicUnitExecutions.
Import AtomicUnit.

(** *** The contention path *)

Lemma uncontended_reset s i : rst_n i = false -> uncontended (step s i).
Proof.
  intros Hr. unfold step. rewrite Hr. cbn. unfold uncontended. cbn.
  split; [reflexivity|]. split; [reflexivity|].
  unfold no_slot_valid. repeat constructor.
Qed.

Lemma uncontended_start_request s r :
  pending_reqs s = [] -> atomic_contention_count s = 0 ->
  no_slot_valid (address_valid s) ->
  uncontended (start_request r (pending_reqs s) s).
Proof.
  intros Hp Hc Hv. unfold uncontended, start_request.
  destruct (add_address_slots (address_valid s) (active_addresses s) (address r))
    as [vs addrs] eqn:Ha.
  cbn. split; [exact Hp|]. split; [exact Hc|].
  exists (address_valid s), (active_addresses s). cbn. rewrite Ha. auto.
Qed.

Lemma uncontended_step s i : uncontended s -> uncontended (step s i).
Proof.
  intros Hu. destruct (rst_n i) eqn:Hr; [|apply uncontended_reset; exact Hr].
  destruct Hu as (Hp & Hc & Hs). unfold step. rewrite Hr. cbn [negb].
  destruct (current_state s) eqn:Hst.
  - destruct (req_valid i && req_ready s).
    + unfold check_contention.
      rewrite (no_slot_valid_no_contention _ _ _ Hs).
      apply uncontended_start_request; assumption.
    + rewrite Hp. unfold uncontended. cbn. auto.
  - destruct (mem_ready i).
    + unfold uncontended. cbn. auto.
    + unfold uncontended. rewrite Hst. auto.
  - destruct (mem_response_valid i).
    + unfold uncontended. cbn. auto.
    + unfold uncontended. rewrite Hst. auto.
  - destruct (mem_ready i).
    + unfold uncontended. cbn. auto.
    + unfold uncontended. rewrite Hst. auto.
  - destruct (mem_response_valid i).
    + unfold uncontended. cbn. split; [exact Hp|]. split; [exact Hc|].
      destruct Hs as (vs0 & addrs0 & Hv0 & -> & ->).
      apply add_remove_no_slot_valid. exact Hv0.
    + unfold uncontended. rewrite Hst. auto.
Qed.

Lemma uncontended_run xs : forall s, uncontended s -> uncontended (run s xs).
Proof.
  induction xs as [|i xs IH]; intros s Hu; [exact Hu|].
  simpl. apply IH, uncontended_step, Hu.
Qed.

Lemma wrap32_add_l a b : wrap32 (wrap32 a + b) = wrap32 (a + b).
Proof. unfold wrap32, wrap. apply Zplus_mod_idemp_l. Qed.

Lemma op_count_step s i :
  uncontended s -> word32 (atomic_op_count s) -> rst_n i = true ->
  atomic_op_count (step s i)
  = wrap32 (atomic_op_count s
            + (if rst_n i && req_valid i && req_ready s then 1 else 0)).
Proof.
  intros (Hp & Hc & Hs) Hw Hr.
  assert (Hsame : atomic_op_count s = wrap32 (atomic_op_count s + 0)).
  { rewrite Z.add_0_r. unfold wrap32, wrap. symmetry. apply Z.mod_small. exact Hw. }
  unfold step, req_ready. rewrite Hr. cbn [negb andb].
  destruct (current_state s) eqn:Hst.
  - rewrite Hp. cbn [length]. replace (0 <? MAX_PENDING_REQS)%nat with true by reflexivity.
    rewrite andb_true_r.
    destruct (req_valid i).
    + unfold check_contention.
      rewrite (no_slot_valid_no_contention _ _ _ Hs).
      unfold start_request. destruct (add_address_slots _ _ _). reflexivity.
    + exact Hsame.
  - rewrite andb_false_r. destruct (mem_ready i); exact Hsame.
  - rewrite andb_false_r. destruct (mem_response_valid i); exact Hsame.
  - rewrite andb_false_r. destruct (mem_ready i); exact Hsame.
  - rewrite andb_false_r. destruct (mem_response_valid i); exact Hsame.
Qed.

Lemma wrap32_word x : word32 (wrap32 x).
Proof. unfold word32, wrap32, wrap. apply Z.mod_pos_bound. lia. Qed.

Lemma op_count_run xs : forall s,
  uncontended s -> word32 (atomic_op_count s) ->
  Forall (fun i => rst_n i = true) xs ->
  atomic_op_count (run s xs) = wrap32 (atomic_op_count s + handshakes s xs).
Proof.
  induction xs as [|i xs IH]; intros s Hu Hw Hr.
  - simpl. rewrite Z.add_0_r. unfold wrap32, wrap. symmetry.
    apply Z.mod_small. exact Hw.
  - apply Forall_cons in Hr as [Hi Hr]. cbn [run fold_left handshakes].
    pose proof (op_count_step s i Hu Hw Hi) as Hc.
    change (fold_left step xs (step s i)) with (run (step s i) xs).
    rewrite IH; [|apply uncontended_step; exact Hu
                 |rewrite Hc; apply wrap32_word|exact Hr].
    rewrite Hc, wrap32_add_l. f_equal. lia.
Qed.

(** X10: from a reset on, whatever is driven on the pins, no request is ever
    queued and no contention is ever counted: the unit takes a request only
    when it is IDLE, and then it tracks no address.  Between resets
    [atomic_op_count] is the number of requests taken on the request
    handshake, modulo 2^32. *)
Theorem contention_never_detected (s : state) (i0 : inputs) (xs : list inputs) :
  rst_n i0 = false ->
  pending_reqs (run (step s i0) xs) = []
  /\ atomic_contention_count (run (step s i0) xs) = 0
  /\ (Forall (fun i => rst_n i = true) xs ->
      atomic_op_count (run (step s i0) xs) = wrap32 (handshakes (step s i0) xs)).
Proof.
  intros Hr.
  pose proof (uncontended_reset s i0 Hr) as Hu.
  destruct (uncontended_run xs _ Hu) as (Hp & Hc & _).
  split; [exact Hp|]. split; [exact Hc|].
  intros Hxs. rewrite (op_count_run xs _ Hu); [|..|exact Hxs].
  - f_equal. unfold step. rewrite Hr. reflexivity.
  - unfold step. rewrite Hr. cbn. unfold word32. lia.
Qed.

(** *** Requests one after the other *)

Lemma transaction_resets r c0 k1 c1 k2 c2 k3 c3 k4 c4 :
  Forall (fun c => c_rst_n c = true) (transaction r c0 k1 c1 k2 c2 k3 c3 k4 c4).
Proof.
  unfold transaction, memory_phases.
  constructor; [reflexivity|].
  repeat (apply Forall_app; split);
    try (apply Forall_fmap, Forall_forall; intros c _; reflexivity);
    repeat constructor.
Qed.

Lemma settled_run_cycles cs : forall s m,
  Forall (fun c => c_rst_n c = true) cs -> settled s ->
  settled (sys_run cs (s, m)).1.
Proof.
  induction cs as [|c cs IH]; intros s m Hr Hs; [exact Hs|].
  apply Forall_cons in Hr as [Hc Hr].
  cbn [sys_run fold_left]. unfold sys_step at 2.
  apply IH; [exact Hr|]. apply settled_step; [exact Hs|exact Hc].
Qed.

(** One request, whatever its [valid] field: the unit sets the field of
    the request it takes. *)
Lemma timed_transaction_rmw s m r t :
  settled s -> current_state s = IDLE ->
  (sys_run (timed_transaction (r, t)) (s, m)).2 = atomic_effect m r
  /\ settled (sys_run (timed_transaction (r, t)) (s, m)).1
  /\ current_state (sys_run (timed_transaction (r, t)) (s, m)).1 = IDLE
  /\ resp_valid (sys_run (timed_transaction (r, t)) (s, m)).1 = true
  /\ resp_data (sys_run (timed_transaction (r, t)) (s, m)).1 = read_word m (address r)
  /\ resp_warp_id (sys_run (timed_transaction (r, t)) (s, m)).1 = warp_id r
  /\ resp_lane_id (sys_run (timed_transaction (r, t)) (s, m)).1 = lane_id r.
Proof.
  intros Hset Hs.
  assert (Hsettled : settled (sys_run (timed_transaction (r, t)) (s, m)).1)
    by (apply settled_run_cycles; [apply transaction_resets|exact Hset]).
  destruct Hset as [Hp Hset]. rewrite Hs in Hset. destruct Hset as [Hnv Hv].
  assert (Hq : (length (pending_reqs s) < MAX_PENDING_REQS)%nat)
    by (rewrite Hp; cbv; lia).
  assert (Hc : check_contention s (address r) = false)
    by (apply no_slot_valid_no_contention; exact Hnv).
  destruct (transaction_rmw s m (op r) (address r) (data r) (compare_data r)
              (warp_id r) (lane_id r) (at_request t) (before_read t) (at_read t)
              (reading t) (at_read_response t) (before_write t) (at_write t)
              (writing t) (at_write_response t) Hs Hq Hc Hv)
    as (s1 & Hrun & Hst & Hrv & Hrd & Hw & Hl & _).
  assert (Heq : sys_run (timed_transaction (r, t)) (s, m)
                = (s1, atomic_effect m r)).
  { unfold atomic_effect. rewrite <- Hrun. unfold timed_transaction, transaction.
    change (sys_run (?c :: ?cs) ?sm) with (sys_run cs (sys_step sm c)).
    reflexivity. }
  rewrite Heq in *. cbn [fst snd] in *. auto 10.
Qed.

Lemma serial_run rts : forall s m,
  settled s -> current_state s = IDLE ->
  (sys_run (serial rts) (s, m)).2 = fold_left atomic_effect (map fst rts) m
  /\ settled (sys_run (serial rts) (s, m)).1
  /\ current_state (sys_run (serial rts) (s, m)).1 = IDLE.
Proof.
  induction rts as [|[r t] rts IH]; intros s m Hset Hs; [auto|].
  unfold serial. cbn [flat_map map fold_left fst]. rewrite sys_run_app.
  destruct (timed_transaction_rmw s m r t Hset Hs) as (Hm & Hset1 & Hs1 & _).
  destruct (sys_run (timed_transaction (r, t)) (s, m)) as [s1 m1].
  cbn [fst snd] in *. subst m1. apply IH; assumption.
Qed.

(** X11: requests presented one after the other execute in that order.
    After the last of them the memory is what executing the requests one
    by one, each alone, leaves; the response carries the word that its
    address held when the requests before it had been executed, and the
    warp and lane of the request. *)
Theorem atomic_requests_serialize
    (s : state) (m : gmap Z Z) (rts : list (atomic_request_t * timing))
    (r : atomic_request_t) (t : timing) :
  settled s -> current_state s = IDLE ->
  let before := fold_left atomic_effect (map fst rts) m in
  let after := sys_run (serial (rts ++ [(r, t)])) (s, m) in
  after.2 = atomic_effect before r
  /\ current_state after.1 = IDLE /\ resp_valid after.1 = true
  /\ resp_data after.1 = read_word before (address r)
  /\ resp_warp_id after.1 = warp_id r /\ resp_lane_id after.1 = lane_id r.
Proof.
  intros Hset Hs before after. subst before after.
  unfold serial. rewrite flat_map_app. cbn [flat_map]. rewrite app_nil_r.
  rewrite sys_run_app.
  destruct (serial_run rts s m Hset Hs) as (Hm & Hset1 & Hs1).
  unfold serial in Hm, Hset1, Hs1.
  destruct (sys_run (flat_map timed_transaction rts) (s, m)) as [s1 m1].
  cbn [fst snd] in *. subst m1.
  destruct (timed_transaction_rmw s1 (fold_left atomic_effect (map fst rts) m) r t
              Hset1 Hs1) as (H1 & _ & H2 & H3 & H4 & H5 & H6).
  auto 10.
Qed.

End AtomicUnitExecutions.

Section AtomicUnitExecutionsWitnesses.
Import AtomicUnit.

Lemma contention_never_detected_witness :
  let pin := fun (r v : bool) (a : Z) =>
    {| rst_n := r; req_op := ATOMIC_ADD; req_address := a; req_data := 1;
       req_compare_data := 0; req_warp_id := 0; req_lane_id := 0;
       req_valid := v; resp_ready := false; mem_read_data := 0;
       mem_response_valid := true; mem_ready := true |} in
  let xs := [pin true true 8; pin true true 8; pin true true 8; pin true true 8;
             pin true true 8; pin true true 8; pin true true 12] in
  let s' := run (step power_on (pin false false 0)) xs in
  pending_reqs s' = [] /\ atomic_contention_count s' = 0 /\ atomic_op_count s' = 2.
Proof.
  intros pin xs s'.
  destruct (contention_never_detected power_on (pin false false 0) xs eq_refl)
    as (Hp & Hc & Hn).
  split; [exact Hp|]. split; [exact Hc|].
  unfold s'. rewrite Hn; [reflexivity|].
  repeat constructor.
Defined.

Lemma atomic_requests_serialize_witness :
  let c := {| c_rst_n := true; c_req := None; c_resp_ready := true;
              c_mem_ready := true; c_mem_response_valid := true |} in
  let t := {| at_request := c; before_read := [c]; at_read := c; reading := [];
              at_read_response := c; before_write := [c; c]; at_write := c;
              writing := [c]; at_write_response := c |} in
  let rts := [(mk_request ATOMIC_ADD 64 3 0 1 2, t);
              (mk_request ATOMIC_EXCH 68 9 0 1 3, t);
              (mk_request ATOMIC_MAX 64 2 0 1 4, t)] in
  let after := sys_run (serial (rts ++ [(mk_request ATOMIC_XOR 64 15 0 2 5, t)]))
                 (power_on, {[ 64 := 5 ]}) in
  read_word after.2 64 = 7 /\ read_word after.2 68 = 9
  /\ resp_valid after.1 = true /\ resp_data after.1 = 8 /\ resp_lane_id after.1 = 5.
Proof.
  intros c t rts after.
  assert (H0 : settled power_on).
  { split; [reflexivity|]. split; [|reflexivity].
    unfold no_slot_valid. repeat constructor. }
  destruct (atomic_requests_serialize power_on {[ 64 := 5 ]} rts
              (mk_request ATOMIC_XOR 64 15 0 2 5) t H0 eq_refl)
    as (Hm & _ & Hv & Hd & _ & Hl).
  fold after in Hm, Hv, Hd, Hl.
  split; [rewrite Hm; vm_compute; reflexivity|].
  split; [rewrite Hm; vm_compute; reflexivity|].
  split; [exact Hv|]. split; [rewrite Hd; vm_compute; reflexivity|exact Hl].
Defined.

End AtomicUnitExecutionsWitnesses.

Section BarrierControllerExecutions.
Import BarrierController.

(** *** Releases *)

Lemma release_source_complete s x k :
  release_source s x = Some k -> is_barrier_complete s k = true.
Proof.
  unfold release_source, arrival_releases.
  destruct (classify s x) as [|j|j|].
  2:{ destruct (is_barrier_complete s j) eqn:Hj.
      - intros [= <-]. exact Hj.
      - intros Hl. apply last_below_some in Hl as [Hp _].
        unfold completes in Hp. apply andb_true_iff in Hp as [_ Hp]. exact Hp. }
  all: intros Hl; apply last_below_some in Hl as [Hp _].
  all: unfold completes in Hp; apply andb_true_iff in Hp as [_ Hp]; exact Hp.
Qed.

Lemma releases_full_step s x :
  (forall i, entry_shape (entry s i)) -> releases_full s -> releases_full (step s x).
Proof.
  intros Hshape [Hnext Hout]. unfold step.
  destruct (rst_n x); cbn [negb].
  - unfold releases_full.
    cbn [release_valid_next release_warp_mask_next release_valid release_warp_mask].
    split; [|exact Hnext].
    destruct (release_source s x) as [k|] eqn:Hsrc; [intros _|discriminate].
    apply release_source_complete, is_barrier_complete_iff in Hsrc as [He Hn].
    destruct (Hshape k) as [[Hex _]|(Hex & _)]; congruence.
  - unfold releases_full, reset. cbn. split; discriminate.
Qed.

(** X12: whenever the controller signals a release, the release mask names
    every warp of the block: [expected_warps] is all ones for every barrier
    that was allocated, so that a barrier releases only when all
    WARPS_PER_BLOCK warp positions have arrived. *)
Theorem release_names_every_warp (s0 : state) (xs : list inputs) :
  let s := run (reset s0) xs in
  (release_valid s = true -> release_warp_mask s = all_warps)
  /\ (release_valid_next s = true -> release_warp_mask_next s = all_warps).
Proof.
  intros s.
  assert (Hinv : forall xs s1,
             (forall i, entry_shape (entry s1 i)) -> releases_full s1 ->
             releases_full (run s1 xs)).
  { clear. induction xs as [|x xs IH]; intros s1 Hs Hr; [exact Hr|].
    cbn. apply IH; [apply step_entry_shape; exact Hs|].
    apply releases_full_step; assumption. }
  destruct (Hinv xs (reset s0)) as [Hnext Hout].
  - apply reset_entry_shape.
  - unfold releases_full, reset. cbn. split; discriminate.
  - split; assumption.
Qed.

(** *** One entry for a barrier *)

Lemma find_first_none p n k :
  find_first p n = None -> (k < n)%nat -> p k = false.
Proof.
  induction n as [|n IH]; simpl; [lia|].
  destruct (find_first p n) as [j|]; [discriminate|].
  destruct (p n) eqn:Hp; [discriminate|].
  intros _ Hk. destruct (Nat.eq_dec k n) as [->|]; [assumption|].
  apply IH; [reflexivity|lia].
Qed.

Lemma find_first_unique p n k :
  p k = true -> (k < n)%nat ->
  (forall j, (j < n)%nat -> p j = true -> j = k) ->
  find_first p n = Some k.
Proof.
  intros Hk Hlt Hu.
  destruct (find_first p n) as [j|] eqn:Hf.
  - apply find_first_some in Hf as [Hj Hjn]. f_equal. apply Hu; assumption.
  - rewrite (find_first_none _ _ _ Hf Hlt) in Hk. discriminate.
Qed.

Lemma tracked_out s i :
  (length (barrier_table s) <= i)%nat -> tracked s i = false.
Proof.
  intros Hi. unfold tracked, entry. rewrite nth_overflow by exact Hi.
  cbn. apply andb_false_r.
Qed.

Lemma classify_fresh s x k :
  classify s x = Fresh k ->
  find_barrier s (arrive_barrier_id x) (arrive_block_id x) = None
  /\ free s k = true /\ (k < MAX_BARRIERS)%nat.
Proof.
  unfold classify.
  destruct (arrive_valid x && arrive_ready s); [|discriminate].
  destruct (find_barrier _ _ _) as [j|]; [discriminate|].
  destruct (find_free_barrier s) as [j|] eqn:Hf; [|discriminate].
  intros [= <-]. apply find_first_some in Hf as [Hf Hk]. auto.
Qed.

Lemma fsm_entry_ids s x i :
  barrier_id (fsm_entry s x i) = barrier_id (entry s i)
  /\ block_id (fsm_entry s x i) = block_id (entry s i).
Proof.
  unfold fsm_entry. destruct (collecting s i); [cbn; tauto|].
  destruct (acked s x i || errored s i); cbn; tauto.
Qed.

Lemma fsm_tracked s x i :
  negb (fsm_free s x i) && active (fsm_entry s x i)
  = tracked s i && negb (acked s x i || errored s i).
Proof.
  unfold fsm_free, fsm_entry, tracked.
  destruct (collecting s i) eqn:Hc.
  - assert (Hn : acked s x i || errored s i = false).
    { unfold collecting in Hc. unfold acked, errored.
      destruct (tracked s i); [|discriminate]. destruct (state_of s i); try discriminate.
      reflexivity. }
    rewrite Hn. cbn. rewrite andb_true_r. reflexivity.
  - destruct (acked s x i || errored s i); cbn.
    + rewrite andb_false_r. reflexivity.
    + rewrite andb_true_r. reflexivity.
Qed.

Lemma step_entry s x i :
  rst_n x = true -> (i < MAX_BARRIERS)%nat ->
  entry (step s x) i = arrive_entry (classify s x) x i (fsm_entry s x i).
Proof.
  intros Hr Hi. unfold step. rewrite Hr. cbn [negb].
  unfold entry at 1. cbn [barrier_table].
  rewrite nth_tabulate by exact Hi. reflexivity.
Qed.

Lemma step_free s x i :
  rst_n x = true -> (i < MAX_BARRIERS)%nat ->
  free (step s x) i
  = match classify s x with
    | Fresh k => if Nat.eqb i k then false else fsm_free s x i
    | _ => fsm_free s x i
    end.
Proof.
  intros Hr Hi. unfold step. rewrite Hr. cbn [negb].
  unfold free at 1. cbn [barrier_free].
  rewrite nth_tabulate by exact Hi. reflexivity.
Qed.

(** The entries tracked after an edge: the one allocated for a new
    barrier, and those tracked before and neither acknowledged nor in
    error, with the identifiers they had. *)
Lemma tracked_step s x i :
  rst_n x = true -> tracked (step s x) i = true ->
  (i < MAX_BARRIERS)%nat
  /\ ((classify s x = Fresh i
       /\ barrier_id (entry (step s x) i) = arrive_barrier_id x
       /\ block_id (entry (step s x) i) = arrive_block_id x)
      \/ (classify s x <> Fresh i /\ tracked s i = true
          /\ acked s x i || errored s i = false
          /\ barrier_id (entry (step s x) i) = barrier_id (entry s i)
          /\ block_id (entry (step s x) i) = block_id (entry s i))).
Proof.
  intros Hr Ht.
  destruct (Nat.lt_ge_cases i MAX_BARRIERS) as [Hi|Hi].
  2:{ rewrite tracked_out in Ht; [discriminate|].
      unfold step. rewrite Hr. cbn. exact Hi. }
  split; [exact Hi|]. revert Ht.
  unfold tracked at 1. rewrite (step_entry s x i Hr Hi), (step_free s x i Hr Hi).
  destruct (fsm_entry_ids s x i) as [Hbid Hblk].
  pose proof (fsm_tracked s x i) as Hfsm.
  unfold arrive_entry.
  destruct (classify s x) as [|k|k|] eqn:Hc.
  - rewrite Hfsm. intros Ht. apply andb_true_iff in Ht as [Ht Hn].
    apply negb_true_iff in Hn. right. repeat split; auto; discriminate.
  - destruct (Nat.eqb_spec i k) as [->|Hne]; cbn [active barrier_id block_id].
    + rewrite Hfsm. intros Ht. apply andb_true_iff in Ht as [Ht Hn].
      apply negb_true_iff in Hn. right. repeat split; auto; discriminate.
    + rewrite Hfsm. intros Ht. apply andb_true_iff in Ht as [Ht Hn].
      apply negb_true_iff in Hn. right. repeat split; auto; discriminate.
  - destruct (Nat.eqb_spec i k) as [->|Hne]; cbn [active barrier_id block_id].
    + intros _. left. auto.
    + rewrite Hfsm. intros Ht. apply andb_true_iff in Ht as [Ht Hn].
      apply negb_true_iff in Hn. right. repeat split; auto; congruence.
  - rewrite Hfsm. intros Ht. apply andb_true_iff in Ht as [Ht Hn].
    apply negb_true_iff in Hn. right. repeat split; auto; discriminate.
Qed.

Lemma fresh_not_found s x k j :
  classify s x = Fresh k -> tracked s j = true -> (j < MAX_BARRIERS)%nat ->
  barrier_id (entry s j) = arrive_barrier_id x ->
  block_id (entry s j) = arrive_block_id x -> False.
Proof.
  intros Hc Ht Hj Hbid Hblk.
  apply classify_fresh in Hc as (Hf & _ & _).
  unfold find_barrier in Hf.
  pose proof (find_first_none _ _ j Hf Hj) as Hp. cbn beta in Hp.
  unfold tracked in Ht. rewrite Ht, Hbid, Hblk, !Z.eqb_refl in Hp. discriminate.
Qed.

Lemma tracked_reset s i : tracked (reset s) i = false.
Proof.
  destruct (Nat.lt_ge_cases i MAX_BARRIERS) as [Hlt|Hge].
  - unfold tracked, free, reset. cbn [barrier_free].
    rewrite nth_tabulate by exact Hlt. reflexivity.
  - apply tracked_out. unfold reset. cbn. exact Hge.
Qed.

Lemma ids_unique_reset s : ids_unique (reset s).
Proof. intros i j Hi _. rewrite tracked_reset in Hi. discriminate. Qed.

Lemma ids_unique_step s x : ids_unique s -> ids_unique (step s x).
Proof.
  intros Hu. destruct (rst_n x) eqn:Hr.
  2:{ unfold step. rewrite Hr. apply ids_unique_reset. }
  intros i j Hi Hj Hbid Hblk.
  destruct (tracked_step s x i Hr Hi) as (Hilt & [(Hci & Hbi & Hki)|(Hci & Hti & _ & Hbi & Hki)]);
    destruct (tracked_step s x j Hr Hj) as (Hjlt & [(Hcj & Hbj & Hkj)|(Hcj & Htj & _ & Hbj & Hkj)]).
  - congruence.
  - exfalso. apply (fresh_not_found s x i j Hci Htj Hjlt); congruence.
  - exfalso. apply (fresh_not_found s x j i Hcj Hti Hilt); congruence.
  - apply Hu; congruence.
Qed.

Lemma ids_unique_run xs : forall s, ids_unique s -> ids_unique (run s xs).
Proof.
  induction xs as [|x xs IH]; intros s Hu; [exact Hu|].
  cbn. apply IH, ids_unique_step, Hu.
Qed.

(** X13: at every point of an execution after reset, a barrier of a block
    has at most one entry of the table: two entries that are allocated and
    active differ in their barrier identifier or in their block. *)
Theorem barrier_has_one_entry (s0 : state) (xs : list inputs) (i j : nat) :
  let s := run (reset s0) xs in
  tracked s i = true -> tracked s j = true ->
  barrier_id (entry s i) = barrier_id (entry s j) ->
  block_id (entry s i) = block_id (entry s j) ->
  i = j.
Proof.
  intros s. apply (ids_unique_run xs (reset s0) (ids_unique_reset s0)).
Qed.

(** X14: an accepted arrival is found again: when the arrival is for an
    entry that exists and is not being freed at this edge, or a free entry
    is allocated for it, then after the edge [find_barrier] returns that
    entry for the barrier and block of the arrival, and the bit of the
    arriving warp is set in its arrived mask. *)
Theorem arrival_is_recorded (s0 : state) (xs : list inputs) (x : inputs) (k : nat) :
  let s := run (reset s0) xs in
  rst_n x = true ->
  classify s x = Existing k \/ classify s x = Fresh k ->
  acked s x k || errored s k = false ->
  in_block (arrive_warp_id x) = true ->
  find_barrier (step s x) (arrive_barrier_id x) (arrive_block_id x) = Some k
  /\ Z.testbit (arrived_warps (entry (step s x) k)) (arrive_warp_id x) = true.
Proof.
  intros s Hr Hc Hn Hw.
  assert (Hu : ids_unique (step s x))
    by (apply ids_unique_step, ids_unique_run, ids_unique_reset).
  assert (Hk : (k < MAX_BARRIERS)%nat).
  { destruct Hc as [Hc|Hc].
    - apply classify_existing in Hc as (_ & _ & Hf).
      apply find_first_some in Hf as [_ Hk]. exact Hk.
    - apply classify_fresh in Hc as (_ & _ & Hk). exact Hk. }
  assert (Hw0 : 0 <= arrive_warp_id x).
  { unfold in_block in Hw. apply andb_true_iff in Hw as [Hw _].
    apply Z.leb_le. exact Hw. }
  assert (Hnew : tracked (step s x) k = true
                 /\ barrier_id (entry (step s x) k) = arrive_barrier_id x
                 /\ block_id (entry (step s x) k) = arrive_block_id x
                 /\ Z.testbit (arrived_warps (entry (step s x) k)) (arrive_warp_id x)
                    = true).
  { unfold tracked at 1. rewrite (step_entry s x k Hr Hk), (step_free s x k Hr Hk).
    destruct (fsm_entry_ids s x k) as [Hbid Hblk].
    pose proof (fsm_tracked s x k) as Hfsm. rewrite Hn in Hfsm.
    unfold arrive_entry, set_warp_bit. rewrite Hw.
    destruct Hc as [Hc|Hc]; rewrite Hc, Nat.eqb_refl;
      cbn [active barrier_id block_id arrived_warps].
    - apply classify_existing in Hc as (_ & _ & Hf).
      apply find_first_some in Hf as [Hp _]. cbn beta in Hp.
      rewrite !andb_true_iff in Hp. destruct Hp as [[[Hf Ha] Hb1] Hb2].
      apply Z.eqb_eq in Hb1, Hb2.
      rewrite Hfsm. unfold tracked. rewrite Hf, Ha.
      split; [reflexivity|]. split; [congruence|]. split; [congruence|].
      apply Z.setbit_eq. exact Hw0.
    - split; [reflexivity|]. split; [reflexivity|]. split; [reflexivity|].
      apply Z.setbit_eq. exact Hw0. }
  destruct Hnew as (Ht & Hbid & Hblk & Hbit).
  split; [|exact Hbit].
  unfold find_barrier. apply find_first_unique; [|exact Hk|].
  - unfold tracked in Ht. rewrite Ht, Hbid, Hblk, !Z.eqb_refl. reflexivity.
  - intros j Hj Hp. rewrite !andb_true_iff in Hp. destruct Hp as [[[Hfj Haj] Hb1] Hb2].
    apply Z.eqb_eq in Hb1, Hb2.
    apply Hu; [unfold tracked; rewrite Hfj, Haj; reflexivity|exact Ht
              |congruence|congruence].
Qed.

End BarrierControllerExecutions.

Section BarrierControllerExecutionsWitnesses.
Import BarrierController.

Lemma release_names_every_warp_witness :
  let s := run (reset power_on) (quiet false :: all_arrive ++ [quiet false; quiet false]) in
  release_valid s = true /\ release_warp_mask s = 4294967295.
Proof.
  intros s.
  assert (Hv : release_valid s = true) by (vm_compute; reflexivity).
  split; [exact Hv|].
  exact (proj1 (release_names_every_warp power_on
                  (quiet false :: all_arrive ++ [quiet false; quiet false])) Hv).
Defined.

Lemma barrier_has_one_entry_witness :
  let s := run (reset power_on) [quiet false; arrive 3 1 0; arrive 4 1 0; arrive 3 1 5] in
  tracked s 0 = true /\ tracked s 1 = true /\ tracked s 2 = false
  /\ forall i, tracked s i = true ->
               barrier_id (entry s i) = 3 -> block_id (entry s i) = 1 -> i = 0%nat.
Proof.
  intros s.
  assert (H0 : tracked s 0 = true) by (vm_compute; reflexivity).
  split; [exact H0|]. split; [vm_compute; reflexivity|].
  split; [vm_compute; reflexivity|].
  intros i Hi Hb Hk.
  apply (barrier_has_one_entry power_on
           [quiet false; arrive 3 1 0; arrive 4 1 0; arrive 3 1 5] i 0%nat Hi H0).
  - transitivity 3; [exact Hb|vm_compute; reflexivity].
  - transitivity 1; [exact Hk|vm_compute; reflexivity].
Defined.

Lemma arrival_is_recorded_witness :
  let xs := [quiet false; arrive 3 1 0; arrive 4 1 0] in
  let s := run (reset power_on) xs in
  find_barrier (step s (arrive 3 1 5)) 3 1 = Some 0%nat
  /\ Z.testbit (arrived_warps (entry (step s (arrive 3 1 5)) 0)) 5 = true
  /\ find_barrier (step s (arrive 9 2 7)) 9 2 = Some 2%nat.
Proof.
  intros xs s.
  destruct (arrival_is_recorded power_on xs (arrive 3 1 5) 0 eq_refl)
    as [H1 H2]; [left; vm_compute; reflexivity|vm_compute; reflexivity|reflexivity|].
  destruct (arrival_is_recorded power_on xs (arrive 9 2 7) 2 eq_refl)
    as [H3 _]; [right; vm_compute; reflexivity|vm_compute; reflexivity|reflexivity|].
  split; [exact H1|]. split; [exact H2|exact H3].
Defined.

End BarrierControllerExecutionsWitnesses.

Section BarrierControllerCompletion.
Import BarrierController.

(** *** The release of an entry that completes *)

Lemma last_below_none p n k :
  last_below p n = None -> (k < n)%nat -> p k = false.
Proof.
  induction n as [|n IH]; simpl; [lia|].
  destruct (p n) eqn:Hp; [discriminate|].
  intros H Hk. destruct (Nat.eq_dec k n) as [->|]; [assumption|].
  apply IH; [assumption|lia].
Qed.

Lemma last_below_unique p n k :
  p k = true -> (k < n)%nat ->
  (forall j, (j < n)%nat -> p j = true -> j = k) ->
  last_below p n = Some k.
Proof.
  intros Hk Hlt Hu.
  destruct (last_below p n) as [j|] eqn:Hl.
  - apply last_below_some in Hl as [Hj Hjn]. f_equal. apply Hu; assumption.
  - rewrite (last_below_none p n k Hl Hlt) in Hk. discriminate.
Qed.

Lemma step_state s x i :
  rst_n x = true -> (i < MAX_BARRIERS)%nat ->
  state_of (step s x) i
  = match classify s x with
    | Existing k =>
        if Nat.eqb i k && is_barrier_complete s k then RELEASING else fsm_state s x i
    | Fresh k => if Nat.eqb i k then COLLECTING else fsm_state s x i
    | _ => fsm_state s x i
    end.
Proof.
  intros Hr Hi. unfold step. rewrite Hr. cbn [negb].
  unfold state_of at 1. cbn [barrier_states].
  rewrite nth_tabulate by exact Hi. reflexivity.
Qed.

Lemma state_of_out s x i :
  (MAX_BARRIERS <= i)%nat -> state_of (step s x) i = IDLE.
Proof.
  intros Hi. unfold state_of, step, reset.
  destruct (negb (rst_n x)); cbn [barrier_states]; apply nth_tabulate_out; exact Hi.
Qed.

(** The loop leaves COLLECTING only the entries it found collecting and
    not complete. *)
Lemma fsm_state_collecting s x i :
  idle_when_free s -> fsm_state s x i = COLLECTING ->
  collecting s i = true /\ is_barrier_complete s i = false.
Proof.
  intros Hv. unfold fsm_state, collecting.
  destruct (tracked s i) eqn:Ht.
  - destruct (state_of s i); try discriminate.
    + destruct (is_barrier_complete s i); [discriminate|]. auto.
    + destruct (release_acknowledged s x i); discriminate.
  - intros Hs. destruct (Hv i Ht Hs).
Qed.

Lemma collecting_kept s x i :
  collecting s i = true -> acked s x i || errored s i = false.
Proof.
  unfold collecting, acked, errored.
  destruct (tracked s i); [|discriminate].
  destruct (state_of s i); try discriminate. reflexivity.
Qed.

Lemma first_arrival_incomplete w : set_warp_bit 0 w <> all_warps.
Proof.
  unfold set_warp_bit, in_block, all_warps.
  destruct (Z.leb_spec 0 w) as [Hw|]; [|discriminate].
  destruct (w <? WARPS_PER_BLOCK); cbn [andb]; [|discriminate].
  intros He.
  pose proof (f_equal (fun z => Z.testbit z 0) He) as H0.
  pose proof (f_equal (fun z => Z.testbit z 1) He) as H1.
  cbn beta in H0, H1. rewrite Z.setbit_eqb in H0, H1 by exact Hw.
  cbn in H0, H1. rewrite orb_false_r in H0, H1.
  apply Z.eqb_eq in H0, H1. lia.
Qed.

Lemma idle_when_free_reset s : idle_when_free (reset s).
Proof.
  intros i _. unfold state_of, reset. cbn [barrier_states].
  destruct (Nat.lt_ge_cases i MAX_BARRIERS) as [Hi|Hi].
  - rewrite nth_tabulate by exact Hi. discriminate.
  - rewrite nth_tabulate_out by exact Hi. discriminate.
Qed.

Lemma idle_when_free_step s x : idle_when_free s -> idle_when_free (step s x).
Proof.
  intros Hv. destruct (rst_n x) eqn:Hr.
  2:{ unfold step. rewrite Hr. apply idle_when_free_reset. }
  intros i Ht Hs.
  destruct (Nat.lt_ge_cases i MAX_BARRIERS) as [Hi|Hi].
  2:{ rewrite state_of_out in Hs by exact Hi. discriminate. }
  rewrite (step_state s x i Hr Hi) in Hs.
  revert Ht. unfold tracked at 1.
  rewrite (step_entry s x i Hr Hi), (step_free s x i Hr Hi).
  pose proof (fsm_tracked s x i) as Hfsm.
  assert (Hkeep : fsm_state s x i = COLLECTING ->
                  negb (fsm_free s x i) && active (fsm_entry s x i) = true).
  { intros Hc. apply (fsm_state_collecting s x i Hv) in Hc as [Hc _].
    rewrite Hfsm, (collecting_kept s x i Hc).
    unfold collecting in Hc. apply andb_true_iff in Hc as [-> _]. reflexivity. }
  unfold arrive_entry.
  destruct (classify s x) as [|k|k|].
  - rewrite (Hkeep Hs). discriminate.
  - destruct (Nat.eqb_spec i k) as [->|Hne]; cbn [andb active] in *.
    + destruct (is_barrier_complete s k); [discriminate|].
      rewrite (Hkeep Hs). discriminate.
    + rewrite (Hkeep Hs). discriminate.
  - destruct (Nat.eqb_spec i k) as [->|Hne]; cbn [active].
    + discriminate.
    + rewrite (Hkeep Hs). discriminate.
  - rewrite (Hkeep Hs). discriminate.
Qed.

Lemma idle_when_free_run xs : forall s, idle_when_free s -> idle_when_free (run s xs).
Proof.
  induction xs as [|x xs IH]; intros s Hv; [exact Hv|].
  cbn. apply IH, idle_when_free_step, Hv.
Qed.

Lemma is_barrier_complete_masks s s' i j :
  arrived_warps (entry s' i) = arrived_warps (entry s j) ->
  expected_warps (entry s' i) = expected_warps (entry s j) ->
  is_barrier_complete s' i = is_barrier_complete s j.
Proof. unfold is_barrier_complete. intros -> ->. reflexivity. Qed.

(** An entry that is collecting and complete after an edge got its last
    warp at that edge. *)
Lemma completes_step s x i :
  rst_n x = true -> idle_when_free s ->
  completes (step s x) i = true -> classify s x = Existing i.
Proof.
  intros Hr Hv Hc. unfold completes, collecting in Hc.
  apply andb_true_iff in Hc as [Hc Hcomp]. apply andb_true_iff in Hc as [Ht Hs].
  destruct (tracked_step s x i Hr Ht) as [Hi _].
  rewrite (step_state s x i Hr Hi) in Hs.
  destruct (fsm_entry_masks s x i) as [Hexp Harr].
  assert (Hsame : fsm_state s x i = COLLECTING ->
                  entry (step s x) i = fsm_entry s x i -> False).
  { intros Hf He. apply (fsm_state_collecting s x i Hv) in Hf as [_ Hf].
    rewrite (is_barrier_complete_masks s (step s x) i i) in Hcomp; [congruence| |];
      rewrite He; assumption. }
  pose proof (step_entry s x i Hr Hi) as He. unfold arrive_entry in He.
  destruct (classify s x) as [|k|k|].
  - exfalso. destruct (fsm_state s x i) eqn:Hf; try discriminate. auto.
  - destruct (Nat.eqb_spec i k) as [->|Hne]; [reflexivity|].
    exfalso. cbn [andb] in Hs. destruct (fsm_state s x i) eqn:Hf; try discriminate. auto.
  - exfalso. destruct (Nat.eqb_spec i k) as [->|Hne].
    + unfold is_barrier_complete in Hcomp. rewrite He in Hcomp.
      cbn [arrived_warps expected_warps] in Hcomp.
      apply andb_true_iff in Hcomp as [Hcomp _]. apply Z.eqb_eq in Hcomp.
      exact (first_arrival_incomplete _ Hcomp).
    + destruct (fsm_state s x i) eqn:Hf; try discriminate. auto.
  - exfalso. destruct (fsm_state s x i) eqn:Hf; try discriminate. auto.
Qed.

Lemma completes_reset s i : completes (reset s) i = false.
Proof. unfold completes, collecting. rewrite tracked_reset. reflexivity. Qed.

(** At most one entry is collecting and complete at a time. *)
Lemma completes_unique (s0 : state) (xs : list inputs) (i j : nat) :
  let s := run (reset s0) xs in
  completes s i = true -> completes s j = true -> i = j.
Proof.
  intros s. unfold s. clear s.
  destruct xs as [|x xs _] using rev_ind.
  - cbn. rewrite completes_reset. discriminate.
  - rewrite barrier_run_app. cbn [run fold_left].
    set (s1 := fold_left step xs (reset s0)).
    assert (Hv : idle_when_free s1)
      by (apply (idle_when_free_run xs), idle_when_free_reset).
    destruct (rst_n x) eqn:Hr.
    2:{ unfold step. rewrite Hr. cbn [negb]. rewrite completes_reset. discriminate. }
    intros Hi Hj.
    apply (completes_step s1 x i Hr Hv) in Hi.
    apply (completes_step s1 x j Hr Hv) in Hj. congruence.
Qed.

(** What was latched is on the output after the next edge. *)
Lemma step_release_out s x :
  rst_n x = true ->
  release_valid (step s x) = release_valid_next s
  /\ release_barrier_id (step s x) = release_barrier_id_next s
  /\ release_block_id (step s x) = release_block_id_next s
  /\ release_warp_mask (step s x) = release_warp_mask_next s.
Proof. intros Hr. unfold step. rewrite Hr. cbn. auto. Qed.

(** X25: an entry that completes is released at the next edge.  When,
    after reset, an allocated and active entry that is COLLECTING has its
    arrived mask equal to its non-zero expected mask, and the arrival
    accepted at the edge, if there is one, is not for another entry that
    is already complete, then the edge latches a release with the barrier,
    the block and the arrived mask of this entry and takes the entry to
    RELEASING; the release is on the output after the edge that follows. *)
Theorem completed_entry_is_released
    (s0 : state) (xs : list inputs) (x : inputs) (k : nat) :
  let s := run (reset s0) xs in
  rst_n x = true ->
  completes s k = true ->
  (forall j, classify s x = Existing j -> is_barrier_complete s j = true -> j = k) ->
  let s' := step s x in
  release_valid_next s' = true
  /\ release_barrier_id_next s' = barrier_id (entry s k)
  /\ release_block_id_next s' = block_id (entry s k)
  /\ release_warp_mask_next s' = arrived_warps (entry s k)
  /\ state_of s' k = RELEASING
  /\ forall x', rst_n x' = true ->
       release_valid (step s' x') = true
       /\ release_barrier_id (step s' x') = barrier_id (entry s k)
       /\ release_block_id (step s' x') = block_id (entry s k)
       /\ release_warp_mask (step s' x') = arrived_warps (entry s k).
Proof.
  intros s Hr Hk Hother s'.
  assert (Hlt : (k < MAX_BARRIERS)%nat).
  { destruct (Nat.lt_ge_cases k MAX_BARRIERS) as [Hlt|Hge]; [exact Hlt|].
    exfalso. unfold completes, collecting in Hk.
    destruct xs as [|x0 xs _] using rev_ind.
    - unfold s in Hk. cbn in Hk. rewrite tracked_reset in Hk. discriminate.
    - rewrite tracked_out in Hk; [discriminate|].
      unfold s. rewrite barrier_run_app. cbn [run fold_left].
      unfold step, reset. destruct (negb (rst_n x0)); cbn [barrier_table];
        unfold tabulate; rewrite length_map, length_seq; exact Hge. }
  assert (Hsrc : release_source s x = Some k).
  { unfold release_source, arrival_releases.
    destruct (classify s x) as [|j|j|] eqn:Hc.
    2:{ destruct (is_barrier_complete s j) eqn:Hj.
        - f_equal. apply Hother; [reflexivity|exact Hj].
        - apply last_below_unique; [exact Hk|exact Hlt|].
          intros i _ Hi. exact (completes_unique s0 xs i k Hi Hk). }
    all: apply last_below_unique; [exact Hk|exact Hlt|].
    all: intros i _ Hi; exact (completes_unique s0 xs i k Hi Hk). }
  assert (Hnext : release_valid_next s' = true
                  /\ release_barrier_id_next s' = barrier_id (entry s k)
                  /\ release_block_id_next s' = block_id (entry s k)
                  /\ release_warp_mask_next s' = arrived_warps (entry s k)).
  { unfold s', step. rewrite Hr, Hsrc. cbn. auto. }
  destruct Hnext as (Hv & Hbid & Hblk & Hmask).
  split; [exact Hv|]. split; [exact Hbid|]. split; [exact Hblk|]. split; [exact Hmask|].
  split.
  - unfold s'. rewrite (step_state s x k Hr Hlt).
    pose proof Hk as Hk'. unfold completes, collecting in Hk'.
    apply andb_true_iff in Hk' as [Hk' Hcomp]. apply andb_true_iff in Hk' as [Ht Hst].
    assert (Hfsm : fsm_state s x k = RELEASING).
    { unfold fsm_state. rewrite Ht, Hcomp.
      destruct (state_of s k); try discriminate. reflexivity. }
    destruct (classify s x) as [|j|j|] eqn:Hc; try exact Hfsm.
    + destruct (Nat.eqb k j && is_barrier_complete s j); [reflexivity|exact Hfsm].
    + destruct (Nat.eqb_spec k j) as [->|_]; [|exact Hfsm].
      apply classify_fresh in Hc as (_ & Hfree & _).
      unfold tracked in Ht. rewrite Hfree in Ht. discriminate.
  - intros x' Hr'. destruct (step_release_out s' x' Hr') as (-> & -> & -> & ->). auto.
Qed.

End BarrierControllerCompletion.

Section BarrierControllerCompletionWitnesses.
Import BarrierController.

Lemma completed_entry_is_released_witness :
  let s := run (reset power_on) (quiet false :: all_arrive) in
  let s' := step s (quiet false) in
  completes s 0 = true
  /\ release_valid_next s' = true /\ release_barrier_id_next s' = 0
  /\ release_block_id_next s' = 0 /\ release_warp_mask_next s' = 4294967295
  /\ state_of s' 0 = RELEASING.
Proof.
  intros s s'.
  assert (Hk : completes s 0 = true) by (vm_compute; reflexivity).
  destruct (completed_entry_is_released power_on (quiet false :: all_arrive)
              (quiet false) 0 eq_refl Hk)
    as (Hv & Hbid & Hblk & Hmask & Hst & _).
  { intros j Hc. vm_compute in Hc. discriminate Hc. }
  split; [exact Hk|]. split; [exact Hv|].
  split; [transitivity (barrier_id (entry s 0)); [exact Hbid|vm_compute; reflexivity]|].
  split; [transitivity (block_id (entry s 0)); [exact Hblk|vm_compute; reflexivity]|].
  split; [transitivity (arrived_warps (entry s 0)); [exact Hmask|vm_compute; reflexivity]|].
  exact Hst.
Defined.

End BarrierControllerCompletionWitnesses.

Section RegisterFileExecutions.
Import RegisterFile.

Lemma shaped_reset : shaped reset_state.
Proof.
  unfold shaped, reset_state. cbn [register_file register_busy].
  split; [apply repeat_length|]. split; [|apply repeat_length].
  apply Forall_repeat. split; [apply repeat_length|].
  apply Forall_repeat. apply repeat_length.
Qed.

Lemma shaped_step s x : shaped s -> shaped (step s x).
Proof.
  intros (Hw & Hr & Hb). unfold step.
  destruct (rst_n x); cbn [negb]; [|apply shaped_reset].
  unfold shaped. cbn [register_file register_busy].
  split; [|split].
  - destruct (rd_write_en x); [rewrite length_alter|]; exact Hw.
  - destruct (rd_write_en x); [|exact Hr].
    apply Forall_alter; [exact Hr|]. intros regs _ [Hlen Hlanes].
    split; [rewrite length_alter; exact Hlen|].
    apply Forall_alter; [exact Hlanes|]. intros lanes _ Hl.
    unfold write_lanes. rewrite length_imap. exact Hl.
  - destruct (clear_busy_en x), (rd_write_en x); rewrite ?length_alter; exact Hb.
Qed.

Lemma shaped_run xs : forall s, shaped s -> shaped (run s xs).
Proof.
  induction xs as [|x xs IH]; intros s Hs; [exact Hs|].
  cbn. apply IH, shaped_step, Hs.
Qed.

Lemma shaped_stored s w r t :
  shaped s -> (w < NUM_WARPS)%nat -> (r < NUM_REGISTERS)%nat ->
  (t < THREADS_PER_WARP)%nat ->
  exists regs lanes e,
    register_file s !! w = Some regs /\ regs !! r = Some lanes
    /\ lanes !! t = Some e /\ stored s w r t = Some e.
Proof.
  intros (Hw & Hr & _) Hwlt Hrlt Htlt. unfold stored.
  destruct (lookup_lt_is_Some_2 (register_file s) w ltac:(lia)) as [regs Hregs].
  destruct (Forall_lookup_1 _ _ _ _ Hr Hregs) as [Hlen Hlanes].
  destruct (lookup_lt_is_Some_2 regs r ltac:(lia)) as [lanes Hl].
  pose proof (Forall_lookup_1 _ _ _ _ Hlanes Hl) as Hlen'. cbn beta in Hlen'.
  destruct (lookup_lt_is_Some_2 lanes t ltac:(lia)) as [e He].
  exists regs, lanes, e. rewrite Hregs, Hl. auto.
Qed.

Lemma rs_data_lookup s addr w t :
  (t < THREADS_PER_WARP)%nat ->
  rs_data s addr w !! t
  = Some (if Nat.eqb addr 0 then Some 0 else data <$> stored s w addr t).
Proof.
  intros Ht. unfold rs_data.
  change (map ?f (seq 0 THREADS_PER_WARP)) with (f <$> seq 0 THREADS_PER_WARP).
  rewrite list_lookup_fmap, lookup_seq_lt by exact Ht. reflexivity.
Qed.

(** A write leaves the storage of every other warp alone. *)
Lemma stored_write_other_warp s x w r t :
  rst_n x = true -> w <> rd_warp_id x ->
  stored (step s x) w r t = stored s w r t.
Proof.
  intros Hr Hne. unfold step. rewrite Hr. cbn [negb].
  unfold stored. cbn [register_file].
  destruct (rd_write_en x); [|reflexivity].
  rewrite list_lookup_alter_ne by congruence. reflexivity.
Qed.

(** X15: a write is what the read ports return from the next edge on: on
    the lanes enabled in the thread mask the written register reads as
    the written data, on the other lanes as before; every other register,
    and every register of every other warp, reads as before. *)
Theorem register_write_then_read (s : state) (x : inputs) :
  shaped s -> rst_n x = true -> rd_write_en x = true ->
  rd_addr x <> 0%nat -> (rd_addr x < NUM_REGISTERS)%nat ->
  (rd_warp_id x < NUM_WARPS)%nat ->
  (forall t, (t < THREADS_PER_WARP)%nat ->
     rs_data (step s x) (rd_addr x) (rd_warp_id x) !! t
     = if Z.testbit (rd_thread_mask x) (Z.of_nat t)
       then Some (Some (nth t (rd_data x) 0))
       else rs_data s (rd_addr x) (rd_warp_id x) !! t)
  /\ (forall addr w,
        addr <> rd_addr x \/ w <> rd_warp_id x ->
        rs_data (step s x) addr w = rs_data s addr w).
Proof.
  intros Hs Hr Hen Hnz Hrlt Hwlt. split.
  - intros t Ht. rewrite !rs_data_lookup by exact Ht.
    destruct (Nat.eqb_spec (rd_addr x) 0) as [|_]; [contradiction|].
    destruct (shaped_stored s _ _ t Hs Hwlt Hrlt Ht)
      as (regs & lanes & e & Hregs & Hlanes & He & Hst).
    rewrite Hst.
    assert (Hnew : stored (step s x) (rd_warp_id x) (rd_addr x) t
                   = Some (if Z.testbit (rd_thread_mask x) (Z.of_nat t)
                           then {| data := nth t (rd_data x) 0; valid := true |}
                           else e)).
    { unfold step. rewrite Hr, Hen. cbn [negb]. unfold stored. cbn [register_file].
      rewrite list_lookup_alter_eq, Hregs. cbn [fmap option_fmap option_map].
      rewrite list_lookup_alter_eq, Hlanes. cbn [fmap option_fmap option_map].
      unfold write_lanes. rewrite list_lookup_imap, He. reflexivity. }
    rewrite Hnew. destruct (Z.testbit _ _); reflexivity.
  - intros addr w Hne. unfold rs_data. apply map_ext. intros t.
    destruct (Nat.eqb_spec addr 0) as [_|Hn0]; [reflexivity|].
    destruct (decide (addr = rd_addr x)) as [->|Ha].
    + destruct Hne as [Hne|Hne]; [contradiction|].
      rewrite stored_write_other_warp by assumption. reflexivity.
    + rewrite stored_write_other by assumption. reflexivity.
Qed.

(** *** Bank conflicts *)

Lemma bank_conflict_pins x :
  bank_conflict x = bank_conflict (read_pins (rs1_addr x) (rs2_addr x)).
Proof. reflexivity. Qed.

(** X16: the conflict signal is raised exactly when both read ports name
    the same register and it is not register 0. *)
Theorem bank_conflict_same_register (x : inputs) :
  (rs1_addr x < NUM_REGISTERS)%nat -> (rs2_addr x < NUM_REGISTERS)%nat ->
  (bank_conflict x = true <-> rs1_addr x = rs2_addr x /\ rs1_addr x <> 0%nat).
Proof.
  intros H1 H2. rewrite bank_conflict_pins.
  assert (Hall : forallb (fun a1 =>
            forallb (fun a2 =>
              Bool.eqb (bank_conflict (read_pins a1 a2))
                       (Nat.eqb a1 a2 && negb (Nat.eqb a1 0)))
              (seq 0 NUM_REGISTERS)) (seq 0 NUM_REGISTERS) = true)
    by (vm_compute; reflexivity).
  rewrite forallb_forall in Hall.
  specialize (Hall (rs1_addr x) ltac:(apply in_seq; lia)).
  rewrite forallb_forall in Hall.
  specialize (Hall (rs2_addr x) ltac:(apply in_seq; lia)).
  apply eqb_prop in Hall. rewrite Hall.
  rewrite andb_true_iff, negb_true_iff, Nat.eqb_eq, Nat.eqb_neq. reflexivity.
Qed.

(** *** The scoreboard *)

(** X17: what an edge does to a busy bit: a clear that names the bit leaves
    it clear, also when a write names it at the same edge; otherwise a
    write that names it sets it; otherwise it keeps its value. *)
Theorem scoreboard_clear_over_set (s : state) (x : inputs) (w r : nat) :
  shaped s -> rst_n x = true -> (w < NUM_WARPS)%nat ->
  exists b,
    busy s w r = Some b
    /\ busy (step s x) w r
       = Some (if clear_busy_en x && Nat.eqb (clear_busy_warp x) w
                  && Nat.eqb (clear_busy_reg x) r
               then false
               else if rd_write_en x && Nat.eqb (rd_warp_id x) w
                       && Nat.eqb (rd_addr x) r
               then true
               else b).
Proof.
  intros (_ & _ & Hb) Hr Hw.
  destruct (lookup_lt_is_Some_2 (register_busy s) w ltac:(lia)) as [v Hv].
  exists (Z.testbit v (Z.of_nat r)). unfold busy. rewrite Hv.
  split; [reflexivity|].
  unfold step. rewrite Hr. cbn [negb register_busy].
  assert (Hset : forall rw ra,
             (fun u => Z.testbit u (Z.of_nat r))
               <$> alter (fun u => Z.setbit u (Z.of_nat ra)) rw (register_busy s) !! w
             = Some (if Nat.eqb rw w && Nat.eqb ra r then true
                     else Z.testbit v (Z.of_nat r))).
  { intros rw ra. destruct (Nat.eqb_spec rw w) as [->|Hne].
    - rewrite list_lookup_alter_eq, Hv. cbn. f_equal.
      rewrite Z.setbit_eqb by lia.
      destruct (Nat.eqb_spec ra r) as [->|Hr'].
      + rewrite Z.eqb_refl. reflexivity.
      + destruct (Z.eqb_spec (Z.of_nat ra) (Z.of_nat r)); [lia|reflexivity].
    - rewrite list_lookup_alter_ne by exact Hne. rewrite Hv. reflexivity. }
  destruct (clear_busy_en x); cbn [andb].
  - destruct (Nat.eqb_spec (clear_busy_warp x) w) as [->|Hne]; cbn [andb].
    + rewrite list_lookup_alter_eq.
      assert (Hin : exists u, (if rd_write_en x
                               then alter (fun u => Z.setbit u (Z.of_nat (rd_addr x)))
                                          (rd_warp_id x) (register_busy s)
                               else register_busy s) !! w = Some u
                     /\ Z.testbit u (Z.of_nat r)
                        = (if rd_write_en x && Nat.eqb (rd_warp_id x) w
                              && Nat.eqb (rd_addr x) r
                           then true else Z.testbit v (Z.of_nat r))).
      { destruct (rd_write_en x); cbn [andb].
        - specialize (Hset (rd_warp_id x) (rd_addr x)).
          destruct (alter _ _ _ !! w) as [u|]; [|discriminate].
          exists u. split; [reflexivity|]. cbn in Hset. congruence.
        - exists v. auto. }
      destruct Hin as (u & Hu & Hbit). rewrite Hu. cbn. f_equal.
      rewrite Z.clearbit_eqb, Hbit.
      destruct (Nat.eqb_spec (clear_busy_reg x) r) as [->|Hr'].
      * rewrite Z.eqb_refl. apply andb_false_r.
      * destruct (Z.eqb_spec (Z.of_nat (clear_busy_reg x)) (Z.of_nat r)); [lia|].
        apply andb_true_r.
    + rewrite list_lookup_alter_ne by exact Hne.
      destruct (rd_write_en x); cbn [andb]; [apply Hset|].
      rewrite Hv. reflexivity.
  - destruct (rd_write_en x); cbn [andb]; [apply Hset|].
    rewrite Hv. reflexivity.
Qed.

End RegisterFileExecutions.

Section RegisterFileExecutionsWitnesses.
Import RegisterFile.

Lemma register_write_then_read_witness :
  let x := {| rst_n := true; rs1_addr := 0; rs1_warp_id := 0; rs2_addr := 0;
              rs2_warp_id := 0; rd_addr := 5; rd_warp_id := 3;
              rd_data := map Z.of_nat (seq 100 32); rd_thread_mask := 5;
              rd_write_en := true;
              clear_busy_reg := 0; clear_busy_warp := 0; clear_busy_en := false |} in
  rs_data (step reset_state x) 5 3 !! 0%nat = Some (Some 100)
  /\ rs_data (step reset_state x) 5 3 !! 1%nat = Some (Some 0)
  /\ rs_data (step reset_state x) 5 3 !! 2%nat = Some (Some 102)
  /\ rs_data (step reset_state x) 6 3 = rs_data reset_state 6 3.
Proof.
  intros x.
  destruct (register_write_then_read reset_state x shaped_reset eq_refl eq_refl)
    as [Hw Hf]; [discriminate|cbv; lia|cbv; lia|].
  split; [rewrite Hw by (cbv; lia); reflexivity|].
  split; [rewrite Hw by (cbv; lia); reflexivity|].
  split; [rewrite Hw by (cbv; lia); reflexivity|].
  apply Hf. left. discriminate.
Defined.

Lemma bank_conflict_same_register_witness :
  bank_conflict (read_pins 7 7) = true /\ bank_conflict (read_pins 7 9) = false
  /\ bank_conflict (read_pins 0 0) = false.
Proof.
  split; [|split].
  - apply (bank_conflict_same_register (read_pins 7 7)); [cbv; lia|cbv; lia|].
    split; [reflexivity|discriminate].
  - destruct (bank_conflict (read_pins 7 9)) eqn:E; [|reflexivity].
    apply (bank_conflict_same_register (read_pins 7 9)) in E as [E _];
      [discriminate E|cbv; lia|cbv; lia].
  - destruct (bank_conflict (read_pins 0 0)) eqn:E; [|reflexivity].
    apply (bank_conflict_same_register (read_pins 0 0)) in E as [_ E];
      [exfalso; apply E; reflexivity|cbv; lia|cbv; lia].
Defined.

Lemma scoreboard_clear_over_set_witness :
  let x := {| rst_n := true; rs1_addr := 0; rs1_warp_id := 0; rs2_addr := 0;
              rs2_warp_id := 0; rd_addr := 5; rd_warp_id := 3;
              rd_data := []; rd_thread_mask := 0; rd_write_en := true;
              clear_busy_reg := 5; clear_busy_warp := 3; clear_busy_en := true |} in
  busy (step (step reset_state (write 3 5 [])) x) 3 5 = Some false
  /\ busy (step reset_state (write 3 5 [])) 3 5 = Some true.
Proof.
  intros x.
  destruct (scoreboard_clear_over_set (step reset_state (write 3 5 [])) x 3 5)
    as (b & _ & H1); [apply shaped_step, shaped_reset|reflexivity|cbv; lia|].
  destruct (scoreboard_clear_over_set reset_state (write 3 5 []) 3 5)
    as (b0 & _ & H2); [apply shaped_reset|reflexivity|cbv; lia|].
  split; [exact H1|exact H2].
Defined.

End RegisterFileExecutionsWitnesses.

Section DPIWrapperRequests.
Context `{Target}.
Import DPIWrapper.

Lemma process_request_now m a d w m' now :
  MemoryModel.process_request m a d w = Ok (m', now) ->
  now = MemoryModel.current_cycle_ m' /\ wrap64 now = now.
Proof.
  unfold MemoryModel.process_request.
  destruct (MemoryModel.check_alignment a 4); simpl; [|discriminate].
  intros Hr.
  apply bind_ok in Hr as (st & _ & Hr).
  apply bind_ok in Hr as ([[sets' mm'] stats3] & _ & Hr).
  injection Hr as <- <-. split; [reflexivity|].
  unfold wrap64, wrap. apply Z.mod_mod. lia.
Qed.

(** X18: the result code of [process_memory_request] and what the call
    changes.  SIMULATION_ERROR before initialisation; MEMORY_ERROR for an
    address that is not a multiple of 4 or a warp number that is not below
    [num_warps]; in both cases nothing is changed.  Otherwise SUCCESS: the
    request is made on the memory model of the wrapper, the engine keeps
    its own memory model, warp states and time, and a read (only a read)
    puts one MEMORY_RESPONSE event into the queue of the engine, at the
    cycle at which the memory model completes the request. *)
Theorem process_memory_request_outcome (w : t) (tr : MemoryTransactionDPI) :
  MemoryModel.well_formed (memory_model_ w) -> 0 <= address tr ->
  let eng := sim_engine_ w in
  exists w' code,
    process_memory_request w tr = Ok (w', code)
    /\ code = (if negb (initialized_ w) then SIMULATION_ERROR
               else if negb (address tr mod 4 =? 0)
                       || (SimulationEngine.num_warps (SimulationEngine.config_ eng)
                           <=? warp_id tr)
               then MEMORY_ERROR else SUCCESS)
    /\ (code <> SUCCESS -> w' = w)
    /\ (code = SUCCESS ->
        exists now,
          MemoryModel.process_request (memory_model_ w) (address tr) (data tr)
            (is_write tr) = Ok (memory_model_ w', now)
          /\ initialized_ w' = true
          /\ SimulationEngine.memory_model_ (sim_engine_ w')
             = SimulationEngine.memory_model_ eng
          /\ SimulationEngine.warp_states_ (sim_engine_ w')
             = SimulationEngine.warp_states_ eng
          /\ SimulationEngine.current_time_ (sim_engine_ w')
             = SimulationEngine.current_time_ eng
          /\ SimulationEngine.event_queue_ (sim_engine_ w')
             = if is_write tr then SimulationEngine.event_queue_ eng
               else SimulationEngine.enqueue
                      {| SimulationEngine.type := SimulationEngine.MEMORY_RESPONSE;
                         SimulationEngine.time := now;
                         SimulationEngine.ev_data :=
                           SimulationEngine.Transaction
                             {| SimulationEngine.address := address tr;
                                SimulationEngine.data := data tr;
                                SimulationEngine.is_write := false;
                                SimulationEngine.size := size tr;
                                SimulationEngine.warp_id := warp_id tr;
                                SimulationEngine.thread_mask := thread_mask tr |} |}
                      (SimulationEngine.event_queue_ eng)).
Proof.
  intros Hwf Ha eng. unfold process_memory_request, validate_address, validate_warp_id.
  destruct (initialized_ w) eqn:Hi; cbn [negb].
  2:{ exists w, SIMULATION_ERROR. repeat split; congruence. }
  destruct (Z.eqb_spec (address tr mod 4) 0) as [Hal|Hal]; cbn [negb orb].
  2:{ exists w, MEMORY_ERROR. repeat split; congruence. }
  fold eng.
  destruct (SimulationEngine.num_warps (SimulationEngine.config_ eng) <=? warp_id tr).
  { exists w, MEMORY_ERROR. repeat split; congruence. }
  destruct (process_request_total (memory_model_ w) (address tr) (data tr)
              (is_write tr) Hwf Ha Hal) as (m' & now & Hp & _).
  rewrite Hp. cbn [bind fst snd].
  eexists _, SUCCESS. split; [reflexivity|]. split; [reflexivity|].
  split; [congruence|]. intros _. exists now.
  cbn [memory_model_ initialized_ sim_engine_].
  split; [reflexivity|]. split; [reflexivity|].
  destruct (process_request_now _ _ _ _ _ _ Hp) as [_ Hnow].
  destruct (is_write tr); cbn [negb]; [auto 6|].
  split; [reflexivity|]. split; [reflexivity|]. split; [reflexivity|].
  unfold SimulationEngine.schedule_event.
  cbn [SimulationEngine.set_queue SimulationEngine.event_queue_].
  do 2 f_equal. fold eng.
  unfold wrap64, wrap in *. rewrite Zplus_mod_idemp_r.
  replace (SimulationEngine.current_time_ eng
           + (now - SimulationEngine.current_time_ eng)) with now by lia.
  exact Hnow.
Qed.

End DPIWrapperRequests.

Section SimulationEngineInvariants.
Context `{Target}.
Import SimulationEngine.

(** *** What every call keeps *)

Lemma process_request_sound m a d w m' now :
  MemoryModel.process_request m a d w = Ok (m', now) ->
  MemoryModel.sound m -> MemoryModel.sound m'.
Proof.
  intros Hp. apply (apply_sound m (MemoryModel.ProcessRequest a d w)).
  simpl. rewrite Hp. reflexivity.
Qed.

Lemma read_instruction_sound m a m' v :
  MemoryModel.read_instruction m a = Ok (m', v) ->
  MemoryModel.sound m -> MemoryModel.sound m'.
Proof.
  intros Hp. apply (apply_sound m (MemoryModel.ReadInstruction a)).
  simpl. rewrite Hp. reflexivity.
Qed.

Section KeptByCalls.
Variable P : MemoryModel.t -> Prop.
Hypothesis P_request : forall m a d w m' now,
  MemoryModel.process_request m a d w = Ok (m', now) -> P m -> P m'.
Hypothesis P_read : forall m a m' v,
  MemoryModel.read_instruction m a = Ok (m', v) -> P m -> P m'.
Hypothesis P_initialize : forall m, P m -> P (MemoryModel.initialize m).

Lemma log_event_sound e ev : engine_sound P e -> engine_sound P (log_event e ev).
Proof.
  intros (Hw & Hm & Ht). unfold log_event.
  destruct (Nat.ltb_spec (length (simulation_trace_ e)) TRACE_RESERVE_SIZE) as [Hlt|];
    [|split; [|split]; assumption].
  unfold engine_sound. cbn [set_trace warp_states_ memory_model_ simulation_trace_].
  split; [exact Hw|]. split; [exact Hm|]. rewrite length_app. simpl. lia.
Qed.

Lemma schedule_event_sound e ty dl p :
  engine_sound P e -> engine_sound P (schedule_event e ty dl p).
Proof. intros Hs. exact Hs. Qed.

Lemma warp_sound_insert ws i w :
  Forall warp_sound ws -> warp_sound w -> Forall warp_sound (<[i := w]> ws).
Proof. intros Hs Hw. apply Forall_insert; assumption. Qed.

Lemma process_memory_request_sound e tr e2 :
  process_memory_request e tr = Ok e2 -> engine_sound P e -> engine_sound P e2.
Proof.
  unfold process_memory_request. intros Hp (Hw & Hm & Ht).
  apply bind_ok in Hp as ([m1 now] & Hreq & Hp). cbn [fst snd] in Hp.
  apply bind_ok in Hp as (warp & Hwarp & Hp). apply of_option_ok in Hwarp.
  injection Hp as <-.
  cbn [set_stats memory_model_] in Hreq.
  apply P_request in Hreq; [|exact Hm].
  destruct (is_write tr); cbn [negb] in Hwarp |- *;
    unfold engine_sound;
    cbn [set_warp_states set_memory_model set_stats schedule_event set_queue
         warp_states_ memory_model_ simulation_trace_] in Hwarp |- *.
  - split; [|split; assumption].
    apply warp_sound_insert; [exact Hw|].
    exact (Forall_lookup_1 _ _ _ _ Hw Hwarp).
  - split; [|split; assumption].
    apply warp_sound_insert; [exact Hw|].
    exact (Forall_lookup_1 _ _ _ _ Hw Hwarp).
Qed.

Lemma wrap32_plus4 x : x mod 4 = 0 -> wrap32 (x + 4) mod 4 = 0 /\ 0 <= wrap32 (x + 4).
Proof.
  intros Hx. unfold wrap32, wrap. split; [|apply Z.mod_pos_bound; lia].
  assert (E : (x + 4) mod 2 ^ 32
              = (x / 4 + 1 - 1073741824 * ((x + 4) / 2 ^ 32)) * 4).
  { pose proof (Z.div_mod (x + 4) (2 ^ 32) ltac:(lia)).
    pose proof (Z.div_mod x 4 ltac:(lia)). lia. }
  rewrite E. apply Z.mod_mul. lia.
Qed.

Lemma process_instruction_fetch_sound e w r :
  process_instruction_fetch program_start e w = Ok r ->
  engine_sound P e -> engine_sound P r.2.
Proof.
  unfold process_instruction_fetch. intros Hp (Hw & Hm & Ht).
  apply bind_ok in Hp as (warp & Hwarp & Hp). apply of_option_ok in Hwarp.
  destruct (active warp); cbn [negb] in Hp.
  - apply bind_ok in Hp as ([m1 ins] & Hread & Hp). cbn [fst snd] in Hp.
    apply bind_ok in Hp as (r3 & He3 & Hp). injection He3 as <-.
    cbn [snd fst] in Hp.
    apply bind_ok in Hp as (warp3 & Hwarp3 & Hp). apply of_option_ok in Hwarp3.
    injection Hp as <-.
    cbn [set_stats set_memory_model warp_states_] in Hwarp3.
    apply P_read in Hread; [|exact Hm].
    unfold engine_sound.
    cbn [snd set_warp_states set_memory_model set_stats schedule_event set_queue
         warp_states_ memory_model_ simulation_trace_].
    split; [|split; assumption].
    apply warp_sound_insert; [exact Hw|].
    destruct (Forall_lookup_1 _ _ _ _ Hw Hwarp3) as (Hpc & _ & Hmask).
    destruct (wrap32_plus4 _ Hpc). repeat split; assumption.
  - injection Hp as <-. split; [|split]; assumption.
Qed.

Lemma process_warp_complete_sound e w e2 :
  process_warp_complete e w = Ok e2 -> engine_sound P e -> engine_sound P e2.
Proof.
  unfold process_warp_complete. intros Hp (Hw & Hm & Ht).
  apply bind_ok in Hp as (warp & Hwarp & Hp). apply of_option_ok in Hwarp.
  assert (Hnew : Forall warp_sound
            (<[Z.to_nat w := {| pc := pc warp; ws_thread_mask := ws_thread_mask warp;
                                active := false; last_active := last_active warp |}]>
               (warp_states_ e))).
  { apply warp_sound_insert; [exact Hw|].
    exact (Forall_lookup_1 _ _ _ _ Hw Hwarp). }
  destruct (all_inactive _); injection Hp as <-; (split; [|split]; assumption).
Qed.

Lemma process_event_sound e ev r :
  process_event program_start e ev = Ok r -> engine_sound P e -> engine_sound P r.2.
Proof.
  unfold process_event. intros Hp Hs.
  apply (log_event_sound e ev) in Hs.
  destruct (type ev), (ev_data ev) as [tr|w|]; try discriminate.
  - apply bind_ok in Hp as (e2 & Hp & Hx). injection Hx as <-.
    eapply process_memory_request_sound; eassumption.
  - injection Hp as <-. exact Hs.
  - eapply process_instruction_fetch_sound; eassumption.
  - eapply process_instruction_fetch_sound; eassumption.
  - apply bind_ok in Hp as (e2 & Hp & Hx). injection Hx as <-.
    eapply process_warp_complete_sound; eassumption.
  - apply bind_ok in Hp as (e2 & Hp & Hx). injection Hx as <-.
    eapply process_warp_complete_sound; eassumption.
  - injection Hp as <-. exact Hs.
  - injection Hp as <-. exact Hs.
  - injection Hp as <-. exact Hs.
Qed.

Lemma iteration_sound e ev q r :
  iteration program_start e ev q = Ok r -> engine_sound P e -> engine_sound P r.2.
Proof.
  unfold iteration. intros Hi Hs.
  apply bind_ok in Hi as (r2 & Hp & Hi).
  apply process_event_sound in Hp; [|exact Hs].
  assert (H3 : engine_sound P (if current_time_ r2.2 mod 1000 =? 0
                             then update_statistics r2.2 else r2.2))
    by (destruct (_ =? 0); exact Hp).
  destruct (_ || _); injection Hi as <-; exact H3.
Qed.

Lemma run_loop_sound fuel : forall e r,
  run_loop fuel program_start e = Some (Ok r) -> engine_sound P e -> engine_sound P r.2.
Proof.
  induction fuel as [|fuel IH]; intros e r; simpl; [discriminate|].
  destruct (running_ e); [|intros [= <-]; auto].
  destruct (event_queue_ e) as [|ev q]; [intros [= <-]; auto|].
  destruct (iteration program_start e ev q) as [r1|f] eqn:Hi; [|discriminate].
  pose proof (iteration_statics _ _ _ _ _ Hi) as Hst.
  intros Hr Hs. rewrite Hst in Hr. apply (IH _ _ Hr).
  eapply iteration_sound; eassumption.
Qed.

Lemma initialize_sound e : engine_sound P e -> engine_sound P (initialize e).
Proof.
  intros (Hw & Hm & Ht). unfold initialize.
  set (e0 := {| config_ := config_ e; running_ := running_ e; current_time_ := 0;
                memory_model_ := MemoryModel.initialize (memory_model_ e);
                warp_states_ := warp_states_ e; event_queue_ := [];
                stats_ := no_stats; simulation_trace_ := [] |}).
  assert (H0 : engine_sound P e0).
  { unfold engine_sound, e0. cbn. split; [exact Hw|]. split; [|lia].
    apply P_initialize. exact Hm. }
  clearbody e0. revert e0 H0.
  induction (seq 0 (Z.to_nat (num_warps (config_ e)))) as [|w ws IH];
    intros e0 H0; [exact H0|].
  cbn [fold_left]. apply IH. exact H0.
Qed.

Lemma do_call_sound e c r :
  do_call program_start e c = Some (Ok r) -> engine_sound P e -> engine_sound P r.2.
Proof.
  destruct c; simpl.
  - intros [= <-]. apply initialize_sound.
  - intros [= <-]. auto.
  - intros Hr Hs. eapply run_loop_sound; [exact Hr|exact Hs].
  - intros [= <-]. auto.
  - intros [= <-]. auto.
  - intros [= <-]. auto.
Qed.

Lemma do_calls_sound cs : forall e r,
  do_calls program_start e cs = Some (Ok r) -> engine_sound P e -> engine_sound P r.2.
Proof.
  induction cs as [|c cs IH]; intros e r; simpl.
  - intros [= <-]. auto.
  - destruct (do_call program_start e c) as [[r1|f]|] eqn:Hc; try discriminate.
    pose proof (do_call_statics _ _ _ _ Hc) as Hst.
    intros Hr Hs. rewrite Hst in Hr. apply (IH _ _ Hr).
    eapply do_call_sound; eassumption.
Qed.

End KeptByCalls.

Lemma warps_sound_construct c : Forall warp_sound (warp_states_ (construct c)).
Proof.
  unfold construct. cbn [warp_states_].
  apply Forall_repeat. unfold warp_sound, new_warp. cbn. repeat split; lia.
Qed.

Lemma check_warps_sound ws : Forall warp_sound ws -> check_warps ws = None.
Proof.
  induction 1 as [|w ws (Hpc & _ & Hmask) _ IH]; simpl; [reflexivity|].
  unfold check_warp. rewrite Hpc, Hmask. cbn. exact IH.
Qed.

(** X19: on an engine built for a cache of positive sizes, after any calls
    (initialize, schedule_event, run, stop, the callbacks), the only
    assertion of [check_simulation_state] that can fail is the one on the
    event queue: the program counters are multiples of 4, the thread masks
    are not zero and the memory model passes [verify_state].  The queue
    assertion fails exactly when the queue is empty while the running flag
    is set. *)
Theorem check_simulation_state_outcome
    (c : SimConfig) (cs : list call) (st : statics) (e : t) :
  0 < cache_size c -> 0 < cache_line_size c -> cache_line_size c * 8 < 2 ^ 32 ->
  do_calls program_start (construct c) cs = Some (Ok (st, e)) ->
  check_simulation_state e
  = if running_ e && queue_empty e then Some Queue_while_running else None.
Proof.
  intros Hcs Hls Hl8 Hr.
  apply (do_calls_sound MemoryModel.sound) in Hr.
  - destruct Hr as (Hw & Hm & _). cbn [snd] in Hw, Hm.
    unfold check_simulation_state.
    rewrite (check_warps_sound _ Hw), (sound_verify_state _ Hm).
    destruct (running_ e), (queue_empty e); reflexivity.
  - apply process_request_sound.
  - apply read_instruction_sound.
  - intros m. apply (apply_sound m MemoryModel.Initialize). reflexivity.
  - split; [apply warps_sound_construct|].
    split; [apply construct_sound; assumption|simpl; lia].
Qed.

(** X20: the trace never holds more than TRACE_RESERVE_SIZE entries: an
    event that is processed when the trace is full is not recorded. *)
Theorem trace_is_bounded (c : SimConfig) (cs : list call) (st : statics) (e : t) :
  do_calls program_start (construct c) cs = Some (Ok (st, e)) ->
  (length (simulation_trace_ e) <= TRACE_RESERVE_SIZE)%nat.
Proof.
  intros Hr.
  apply (do_calls_sound (fun _ => True)) in Hr; try (intros; exact I).
  - destruct Hr as (_ & _ & Ht). exact Ht.
  - split; [apply warps_sound_construct|]. split; [exact I|simpl; lia].
Qed.

(** *** A simulation left to itself *)

Lemma Forall_enqueue (Q : SimEvent -> Prop) ev q :
  Q ev -> Forall Q q -> Forall Q (enqueue ev q).
Proof.
  intros Hev Hq. induction Hq as [|x q Hx Hq IH]; simpl; [repeat constructor; exact Hev|].
  destruct (time ev <? time x); repeat constructor; assumption.
Qed.

Lemma enqueue_not_nil ev q : enqueue ev q <> [].
Proof. destruct q as [|x q]; simpl; [discriminate|]. destruct (_ <? _); discriminate. Qed.

Lemma all_inactive_free_running e :
  warp_states_ e <> [] ->
  Forall (fun w => active w = true /\ pc w mod 4 = 0 /\ 0 <= pc w) (warp_states_ e) ->
  all_inactive e = false.
Proof.
  unfold all_inactive. intros Hne Hall.
  destruct Hall as [|w ws (Hw & _) _]; [congruence|]. simpl. rewrite Hw. reflexivity.
Qed.

(** One pass of the loop on a free-running simulation: it succeeds and
    leaves the simulation free-running. *)
Lemma iteration_free_running e ev q :
  free_running e -> event_queue_ e = ev :: q ->
  exists r, iteration program_start e ev q = Ok r /\ free_running r.2.
Proof.
  intros (Hne & Hwarps & _ & Hq & Hwf) He. rewrite He in Hq.
  apply Forall_cons in Hq as [(Hty & w & Hd & Hw0 & Hwlt) Hq].
  unfold iteration, process_event. rewrite Hty, Hd.
  set (e1 := log_event (set_time (set_queue e q) (time ev)) ev).
  assert (H1 : warp_states_ e1 = warp_states_ e /\ memory_model_ e1 = memory_model_ e
               /\ event_queue_ e1 = q).
  { unfold e1, log_event. destruct (_ <? _)%nat; cbn; auto. }
  destruct H1 as (Hws1 & Hmm1 & Hq1). clearbody e1.
  unfold process_instruction_fetch. rewrite Hws1.
  destruct (lookup_lt_is_Some_2 (warp_states_ e) (Z.to_nat w) Hwlt) as [warp Hwarp].
  rewrite Hwarp. cbn [bind of_option].
  destruct (Forall_lookup_1 _ _ _ _ Hwarps Hwarp) as (Hact & Hpc & Hpc0).
  rewrite Hact. cbn [negb]. rewrite Hmm1.
  destruct (read_instruction_total (memory_model_ e) (pc warp) Hwf Hpc0 Hpc)
    as (m' & v & Hread & Hwf' & _).
  rewrite Hread. cbn [bind fst snd].
  unfold instruction_complete_callback. cbn [instruction_complete_callback_instance
    program_start bind snd fst].
  cbn [set_stats set_memory_model warp_states_]. rewrite Hws1, Hwarp.
  cbn [bind of_option].
  match goal with
  | |- context [(program_start, ?e4)] => set (e5 := e4)
  end.
  assert (H5 : free_running e5).
  { unfold free_running, e5.
    cbn [schedule_event set_queue set_warp_states set_stats set_memory_model
         warp_states_ event_queue_ memory_model_].
    rewrite Hq1, length_insert.
    split; [intros Hnil; apply (f_equal length) in Hnil;
            rewrite length_insert in Hnil; destruct (warp_states_ e);
            [congruence|discriminate]|].
    split.
    { apply Forall_insert; [exact Hwarps|]. cbn [active pc].
      destruct (wrap32_plus4 _ Hpc). auto. }
    split; [apply enqueue_not_nil|].
    split; [|exact Hwf'].
    apply Forall_enqueue; [|exact Hq].
    split; [reflexivity|]. exists w. auto. }
  clearbody e5. cbn [bind snd fst].
  assert (H6 : free_running (if current_time_ e5 mod 1000 =? 0
                             then update_statistics e5 else e5))
    by (destruct (_ =? 0); exact H5).
  destruct (_ || _); eexists; (split; [reflexivity|]); exact H6.
Qed.

Lemma run_loop_free_running fuel : forall e r,
  free_running e -> running_ e = true ->
  run_loop fuel program_start e = Some r ->
  exists st e',
    r = Ok (st, e') /\ running_ e' = false /\ CYCLE_LIMIT <= current_time_ e'
    /\ free_running e'.
Proof.
  induction fuel as [|fuel IH]; intros e r Hf Hrun; simpl; [discriminate|].
  rewrite Hrun.
  destruct (event_queue_ e) as [|ev q] eqn:Hq;
    [destruct Hf as (_ & _ & Hne & _); congruence|].
  destruct (iteration_free_running e ev q Hf Hq) as (r1 & Hi & Hf1).
  rewrite Hi.
  pose proof (iteration_statics _ _ _ _ _ Hi) as Hst. rewrite Hst.
  apply iteration_ok in Hi as (Ht & Hiff & _).
  destruct (running_ r1.2) eqn:Hr1; [apply IH; assumption|].
  destruct fuel as [|fuel]; simpl; [discriminate|]. rewrite Hr1.
  intros [= <-]. exists program_start, r1.2. split; [reflexivity|].
  split; [exact Hr1|]. split; [|exact Hf1].
  destruct (Z.le_gt_cases CYCLE_LIMIT (time ev)) as [Hle|Hgt]; [lia|].
  exfalso. assert (Hx : false = true); [|discriminate].
  apply Hiff. destruct Hf as (_ & _ & _ & Hevs & _). rewrite Hq in Hevs.
  apply Forall_cons in Hevs as [(Hty & _) _].
  destruct Hf1 as (Hne1 & Hw1 & _).
  repeat split; [exact Hrun|congruence|exact Hgt|].
  apply all_inactive_free_running; assumption.
Qed.

Lemma schedule_fetches ws : forall e0 n,
  Forall (fetch_event n) (event_queue_ e0) ->
  Forall (fun w => (w < n)%nat) ws ->
  let e1 := fold_left (fun e' w => schedule_event e' INSTRUCTION_FETCH 0 (Warp (Z.of_nat w)))
              ws e0 in
  Forall (fetch_event n) (event_queue_ e1)
  /\ (ws <> [] \/ event_queue_ e0 <> [] -> event_queue_ e1 <> [])
  /\ warp_states_ e1 = warp_states_ e0 /\ memory_model_ e1 = memory_model_ e0.
Proof.
  induction ws as [|w ws IH]; intros e0 n Hq Hws; cbn [fold_left].
  - split; [exact Hq|]. split; [intros [Hx|Hx]; congruence|auto].
  - apply Forall_cons in Hws as [Hw Hws].
    destruct (IH (schedule_event e0 INSTRUCTION_FETCH 0 (Warp (Z.of_nat w))) n)
      as (H1 & H2 & H3 & H4); [|exact Hws|].
    + cbn [schedule_event set_queue event_queue_]. apply Forall_enqueue; [|exact Hq].
      split; [reflexivity|]. exists (Z.of_nat w). rewrite Nat2Z.id.
      split; [reflexivity|]. split; [lia|exact Hw].
    + split; [exact H1|]. split; [|auto].
      intros _. apply H2. right. cbn [schedule_event set_queue event_queue_].
      apply enqueue_not_nil.
Qed.

(** X21: a simulation that is initialised and run goes on to the cycle
    limit.  No warp ever completes (completion is only scheduled by a
    callback, and the callbacks do nothing), so every warp is still active
    when [run] returns, which it does with the time at 1,000,000 cycles or
    more and the running flag cleared. *)
Theorem initialized_run_reaches_limit (c : SimConfig) :
  1 <= num_warps c ->
  4 <= cache_line_size c < 2 ^ 32 ->
  cache_line_size c = 2 ^ Z.log2 (cache_line_size c) ->
  cache_line_size c mod 4 = 0 ->
  1 <= cache_size c / wrap32 (cache_line_size c * 8) ->
  exists fuel st e',
    run fuel program_start (initialize (construct c)) = Some (Ok (st, e'))
    /\ CYCLE_LIMIT <= current_time_ e' /\ running_ e' = false
    /\ Forall (fun w => active w = true) (warp_states_ e').
Proof.
  intros Hn Hls Hpow Hm4 Hns.
  set (e := initialize (construct c)).
  assert (Hf : free_running (set_running e true)).
  { unfold e, initialize.
    cbn [construct config_ running_ memory_model_ warp_states_].
    match goal with
    | |- free_running (set_running (fold_left ?f ?ws ?e0) true) =>
        destruct (schedule_fetches ws e0 (Z.to_nat (num_warps c)))
          as (H1 & H2 & H3 & H4)
    end.
    - constructor.
    - apply Forall_forall. intros w Hw. apply elem_of_seq in Hw. lia.
    - cbn [warp_states_ memory_model_ event_queue_] in H1, H2, H3, H4.
      unfold free_running.
      cbn [set_running warp_states_ event_queue_ memory_model_].
      rewrite H3, H4, repeat_length.
      split; [destruct (Z.to_nat (num_warps c)) eqn:E; [lia|discriminate]|].
      split; [apply Forall_repeat; cbn; repeat split; lia|].
      split.
      { apply H2. left. destruct (Z.to_nat (num_warps c)) eqn:E; [lia|discriminate]. }
      split; [exact H1|].
      apply initialize_well_formed, construct_well_formed; assumption. }
  destruct (run_loop_terminates (S (queue_weight (event_queue_ (set_running e true))))
              (set_running e true) ltac:(lia)) as [r Hr].
  destruct (run_loop_free_running _ _ _ Hf eq_refl Hr)
    as (st & e' & -> & Hrun & Ht & (_ & Hw & _)).
  exists (S (queue_weight (event_queue_ (set_running e true)))), st, e'.
  split; [exact Hr|]. split; [exact Ht|]. split; [exact Hrun|].
  eapply Forall_impl; [exact Hw|]. intros w (Ha & _). exact Ha.
Qed.

End SimulationEngineInvariants.

Section DPIWrapperRequestsWitnesses.
Import DPIWrapper.

Lemma process_memory_request_outcome_witness :
  let cfg := {| num_warps := 4; threads_per_warp := 32; cache_size := 256;
                cache_line_size := 16; memory_latency := 10 |} in
  let w := initialize cfg in
  let tr := fun a wid =>
    {| address := a; data := 0; is_write := false; size := 4; warp_id := wid;
       thread_mask := 1 |} in
  (exists w', @process_memory_request masking_target w (tr 8 0) = Ok (w', SUCCESS))
  /\ @process_memory_request masking_target w (tr 8 4) = Ok (w, MEMORY_ERROR).
Proof.
  intros cfg w tr.
  assert (Hwf : MemoryModel.well_formed (memory_model_ w)).
  { apply initialize_well_formed, construct_well_formed;
      [split; [discriminate|reflexivity]|reflexivity|reflexivity
      |vm_compute; discriminate]. }
  split.
  - destruct (@process_memory_request_outcome masking_target w (tr 8 0) Hwf
                ltac:(cbn; lia)) as (w' & code & Hp & Hc & _).
    exists w'. rewrite Hp, Hc. reflexivity.
  - destruct (@process_memory_request_outcome masking_target w (tr 8 4) Hwf
                ltac:(cbn; lia)) as (w' & code & Hp & Hc & Hsame & _).
    assert (Hcode : code = MEMORY_ERROR) by (rewrite Hc; reflexivity).
    rewrite Hp, Hsame, Hcode; [reflexivity|]. rewrite Hcode. discriminate.
Defined.

End DPIWrapperRequestsWitnesses.

Section SimulationEngineInvariantsWitnesses.
Import SimulationEngine.

Lemma check_simulation_state_outcome_witness :
  let cfg := {| num_warps := 2; threads_per_warp := 32; cache_size := 1024;
                cache_line_size := 128; memory_latency := 100 |} in
  let cs := [Call_schedule_event WARP_COMPLETE 1 (Warp 0); Call_run 5] in
  exists st e,
    @do_calls masking_target program_start (construct cfg) cs = Some (Ok (st, e))
    /\ check_simulation_state e = Some Queue_while_running
    /\ check_simulation_state (stop e) = None.
Proof.
  intros cfg cs.
  destruct (@do_calls masking_target program_start (construct cfg) cs)
    as [[[st e]|f]|] eqn:E.
  - exists st, e. split; [reflexivity|].
    pose proof (@check_simulation_state_outcome masking_target cfg cs st e
                  ltac:(cbn; lia) ltac:(cbn; lia) ltac:(cbn; lia) E) as H1.
    pose proof (@check_simulation_state_outcome masking_target cfg
                  (cs ++ [Call_stop]) st (stop e)
                  ltac:(cbn; lia) ltac:(cbn; lia) ltac:(cbn; lia)) as H2.
    assert (Hq : running_ e && queue_empty e = true)
      by (vm_compute in E; injection E as <- <-; reflexivity).
    rewrite Hq in H1. split; [exact H1|].
    rewrite H2; [reflexivity|].
    vm_compute in E. injection E as <- <-. vm_compute. reflexivity.
  - vm_compute in E. discriminate E.
  - vm_compute in E. discriminate E.
Defined.

Lemma trace_is_bounded_witness :
  let cfg := {| num_warps := 2; threads_per_warp := 32; cache_size := 1024;
                cache_line_size := 128; memory_latency := 100 |} in
  let cs := Call_schedule_event WARP_COMPLETE 0 (Warp 0)
            :: repeat (Call_schedule_event INSTRUCTION_FETCH 1 (Warp 0)) 20
            ++ [Call_run 30] in
  exists st e,
    @do_calls masking_target program_start (construct cfg) cs = Some (Ok (st, e))
    /\ event_queue_ e = []
    /\ (length (simulation_trace_ e) <= 16)%nat.
Proof.
  intros cfg cs.
  destruct (@do_calls masking_target program_start (construct cfg) cs)
    as [[[st e]|f]|] eqn:E.
  - exists st, e. split; [reflexivity|].
    split; [vm_compute in E; injection E as <- <-; reflexivity|].
    exact (@trace_is_bounded masking_target cfg cs st e E).
  - vm_compute in E. discriminate E.
  - vm_compute in E. discriminate E.
Defined.

Lemma initialized_run_reaches_limit_witness :
  let cfg := {| num_warps := 2; threads_per_warp := 32; cache_size := 1024;
                cache_line_size := 128; memory_latency := 100 |} in
  exists fuel st e',
    @run masking_target fuel program_start (initialize (construct cfg))
    = Some (Ok (st, e'))
    /\ CYCLE_LIMIT <= current_time_ e' /\ running_ e' = false
    /\ Forall (fun w => active w = true) (warp_states_ e').
Proof.
  intros cfg.
  apply (@initialized_run_reaches_limit masking_target cfg);
    [cbn; lia|cbn; lia|reflexivity|reflexivity|vm_compute; discriminate].
Defined.

End SimulationEngineInvariantsWitnesses.


Section MemoryModelCoherence.
Context `{Target}.
Import MemoryModel.

Lemma mark_dirty_marked tg l :
  valid (mark_dirty tg l) = true -> tag (mark_dirty tg l) = tg ->
  dirty (mark_dirty tg l) = true.
Proof.
  unfold mark_dirty. destruct (valid l && (tag l =? tg)) eqn:E; [reflexivity|].
  intros Hv Ht. rewrite Hv, Ht, Z.eqb_refl in E. discriminate E.
Qed.

(** X23: a request leaves the line of its address dirty, a read as much
    as a write: after the access [handle_coherence] marks every valid
    line, in every set, whose tag is the tag of the address.  The set of
    the address holds such a line. *)
Theorem request_marks_line_dirty m a d w m' now :
  process_request m a d w = Ok (m', now) ->
  let c := config_ m in
  (exists st l,
     sets_ m' !! Z.to_nat (get_set_index c a) = Some st
     /\ l ∈ ways st /\ valid l = true /\ tag l = get_tag c a /\ dirty l = true)
  /\ (forall st l, st ∈ sets_ m' -> l ∈ ways st ->
        valid l = true -> tag l = get_tag c a -> dirty l = true).
Proof.
  intros Hr c.
  destruct (process_request_line _ _ _ _ _ _ Hr)
    as (st & k & line' & v & _ & Hst & Hsets & Hk & Hv & Ht & _).
  fold c in Hst, Hsets, Ht.
  assert (Hall : forall st' l, st' ∈ sets_ m' -> l ∈ ways st' ->
            valid l = true -> tag l = get_tag c a -> dirty l = true).
  { intros st' l Hin Hl. rewrite Hsets in Hin. unfold handle_coherence in Hin.
    change (map ?f ?x) with (f <$> x) in Hin.
    apply list_elem_of_fmap in Hin as (st0 & -> & _). cbn [ways] in Hl.
    change (map ?f ?x) with (f <$> x) in Hl.
    apply list_elem_of_fmap in Hl as (l0 & -> & _).
    apply mark_dirty_marked. }
  split; [|exact Hall].
  pose proof (handle_coherence_lookup c _ a _ _ (set_way_lookup _ _ k line' _ Hst)) as Hl.
  rewrite <- Hsets in Hl. cbn [ways] in Hl.
  set (l := mark_dirty (get_tag c a) line').
  assert (Hin : l ∈ map (mark_dirty (get_tag c a)) (<[k := line']> (ways st))).
  { change (map ?f ?x) with (f <$> x). apply list_elem_of_fmap.
    exists line'. split; [reflexivity|].
    apply list_elem_of_lookup. exists k. apply list_lookup_insert_eq. exact Hk. }
  assert (Hlv : valid l = true /\ tag l = get_tag c a).
  { unfold l, mark_dirty. rewrite Hv, Ht, Z.eqb_refl. cbn. split; reflexivity. }
  destruct Hlv as [Hlv Hlt].
  eexists _, l. split; [exact Hl|]. split; [exact Hin|].
  split; [exact Hlv|]. split; [exact Hlt|].
  apply mark_dirty_marked; assumption.
Qed.

End MemoryModelCoherence.

Section MemoryModelCoherenceWitnesses.
Import MemoryModel.

Lemma request_marks_line_dirty_witness :
  let m := construct 256 16 10 in
  exists m' now st l,
    @process_request masking_target m 8 0 false = Ok (m', now)
    /\ sets_ m' !! 0%nat = Some st
    /\ l ∈ ways st /\ valid l = true /\ tag l = 0 /\ dirty l = true.
Proof.
  intros m.
  destruct (@process_request masking_target m 8 0 false) as [[m' now]|f] eqn:E.
  - destruct (@request_marks_line_dirty masking_target m 8 0 false m' now E)
      as ((st & l & Hst & Hl & Hv & Ht & Hd) & _).
    exists m', now, st, l. split; [reflexivity|].
    split; [exact Hst|]. split; [exact Hl|]. split; [exact Hv|].
    split; [exact Ht|exact Hd].
  - vm_compute in E. discriminate E.
Defined.

End MemoryModelCoherenceWitnesses.
